(** * ARION 1.0 reference codec (js/src/arion.js): embedding and properties

    The development follows the source file top to bottom: host string
    primitives, [isNumberLike] and [parseScalar], [tokenizeLines], the
    recursive-descent [parseBlock] inside [loadsArion], and the encoder
    [dumpsArion] with its local [encodeScalar] and [encodeBlock].

    Conventions.
    - A JavaScript string is a sequence of UTF-16 code units.  The embedding
      carries the code units below 256 as [ascii]; every class of character
      the codec tells apart (space, tab, CR, LF, the other characters removed
      by [trim], and ordinary characters) lies in that range.
    - A JavaScript number is a double.  Its arithmetic is not modelled: the
      host supplies the value of a JSON number literal and the text
      [JSON.stringify] prints for a number (class [JsNumber]).  The grammar
      by which [JSON.parse] accepts a number is modelled in full.
    - A [throw] is the outcome [Throw]; recursion is bounded by a fuel
      argument that [loadsArion] sets from the number of lines, and
      [Starved] is shown never to come out of [loadsArion]. *)

From Stdlib Require Import Bool Arith NArith ZArith List String Ascii Lia.
From Stdlib Require Import DecimalString Sorted Permutation.
Import ListNotations.

Local Open Scope string_scope.
Local Open Scope list_scope.

(** ** Characters and host string primitives *)

Definition LF : ascii := "010"%char.
Definition CR : ascii := "013"%char.
Definition TAB : ascii := "009"%char.
Definition VT : ascii := "011"%char.
Definition FF : ascii := "012"%char.
Definition SP : ascii := " "%char.
Definition NBSP : ascii := "160"%char.

(** WhiteSpace and LineTerminator code units, as removed by
    [String.prototype.trim]. *)
Definition isWhite (c : ascii) : bool :=
  Ascii.eqb c TAB || Ascii.eqb c LF || Ascii.eqb c VT || Ascii.eqb c FF
  || Ascii.eqb c CR || Ascii.eqb c SP || Ascii.eqb c NBSP.

(** The four whitespace characters of the JSON grammar. *)
Definition isJsonWhite (c : ascii) : bool :=
  Ascii.eqb c TAB || Ascii.eqb c LF || Ascii.eqb c CR || Ascii.eqb c SP.

Definition isEmpty (s : string) : bool :=
  match s with EmptyString => true | String _ _ => false end.

(** [dropWhile p s]: [s] without its longest prefix of [p]-characters. *)
Fixpoint dropWhile (p : ascii -> bool) (s : string) : string :=
  match s with
  | EmptyString => EmptyString
  | String c r => if p c then dropWhile p r else s
  end.

(** [dropWhileEnd p s]: [s] without its longest suffix of [p]-characters. *)
Fixpoint dropWhileEnd (p : ascii -> bool) (s : string) : string :=
  match s with
  | EmptyString => EmptyString
  | String c r =>
      let t := dropWhileEnd p r in
      if isEmpty t && p c then EmptyString else String c t
  end.

(** [s.trim()] *)
Definition trim (s : string) : string := dropWhile isWhite (dropWhileEnd isWhite s).

(** [s.replace(/^ +/, "")] *)
Definition stripLeadingSpaces (s : string) : string :=
  dropWhile (fun c => Ascii.eqb c SP) s.

(** [s.startsWith(p)] *)
Fixpoint startsWith (p s : string) : bool :=
  match p with
  | EmptyString => true
  | String c p' =>
      match s with
      | EmptyString => false
      | String d s' => Ascii.eqb c d && startsWith p' s'
      end
  end.

Arguments startsWith p s : simpl nomatch.

(** [s.slice(n)] for [0 <= n] *)
Fixpoint sliceFrom (n : nat) (s : string) : string :=
  match n, s with
  | O, _ => s
  | S _, EmptyString => EmptyString
  | S n', String _ r => sliceFrom n' r
  end.

(** [s.slice(0, n)] for [0 <= n] *)
Fixpoint sliceTo (n : nat) (s : string) : string :=
  match n, s with
  | O, _ => EmptyString
  | S _, EmptyString => EmptyString
  | S n', String c r => String c (sliceTo n' r)
  end.

(** [s.indexOf(c)] for a one-character needle; [None] stands for [-1]. *)
Fixpoint indexOf (c : ascii) (s : string) : option nat :=
  match s with
  | EmptyString => None
  | String d r =>
      if Ascii.eqb d c then Some 0
      else match indexOf c r with Some i => Some (S i) | None => None end
  end.

(** [s.includes(c)] for a one-character needle. *)
Fixpoint includes (c : ascii) (s : string) : bool :=
  match s with
  | EmptyString => false
  | String d r => Ascii.eqb d c || includes c r
  end.

(** [" ".repeat(n)] *)
Fixpoint spaces (n : nat) : string :=
  match n with O => EmptyString | S n' => String SP (spaces n') end.

(** [s.split("\n")] *)
Fixpoint splitNewline (s : string) : list string :=
  match s with
  | EmptyString => [EmptyString]
  | String c r =>
      if Ascii.eqb c LF then EmptyString :: splitNewline r
      else match splitNewline r with
           | h :: t => String c h :: t
           | [] => [String c EmptyString]
           end
  end.

(** [text.split(/\r?\n/)]: a separator is a line feed, taken together with
    a carriage return standing directly before it. *)
Fixpoint splitLines (s : string) : list string :=
  match s with
  | EmptyString => [EmptyString]
  | String c r =>
      if Ascii.eqb c LF then EmptyString :: splitLines r
      else
        match r with
        | String d r' =>
            if Ascii.eqb c CR && Ascii.eqb d LF then EmptyString :: splitLines r'
            else match splitLines r with
                 | h :: t => String c h :: t
                 | [] => [String c EmptyString]
                 end
        | EmptyString => [String c EmptyString]
        end
  end.

(** [parts.join("\n")] *)
Fixpoint joinNewline (parts : list string) : string :=
  match parts with
  | [] => EmptyString
  | [p] => p
  | p :: rest => (p ++ String LF (joinNewline rest))%string
  end.

(** Decimal text of a natural number, as a template literal prints it. *)
Definition natToString (n : nat) : string :=
  NilEmpty.string_of_uint (Nat.to_uint n).

(** ** Host numbers *)

(** The part of the host that is not modelled: the double a JSON number
    literal denotes, and the text [JSON.stringify] gives for a number. *)
Class JsNumber : Type := {
  num : Type;
  numOfLiteral : string -> num;
  numToString : num -> string
}.

Definition isDigit (c : ascii) : bool :=
  let n := nat_of_ascii c in (48 <=? n)%nat && (n <=? 57)%nat.

Definition isDigit19 (c : ascii) : bool :=
  let n := nat_of_ascii c in (49 <=? n)%nat && (n <=? 57)%nat.

(** JSON number grammar: an optional minus sign; an integer part that is
    either the digit 0 alone or a digit 1-9 followed by any digits; an
    optional fraction, a dot and one or more digits; an optional exponent,
    e or E, an optional sign, one or more digits.
    Each phase returns what is left of the text, or [None]. *)
Definition numSign (s : string) : string :=
  match s with
  | String c r => if Ascii.eqb c "-" then r else s
  | EmptyString => s
  end.

Definition numInt (s : string) : option string :=
  match s with
  | String c r =>
      if Ascii.eqb c "0" then Some r
      else if isDigit19 c then Some (dropWhile isDigit r)
      else None
  | EmptyString => None
  end.

Definition numDigits1 (s : string) : option string :=
  match s with
  | String c r => if isDigit c then Some (dropWhile isDigit r) else None
  | EmptyString => None
  end.

Definition numFrac (s : string) : option string :=
  match s with
  | String c r => if Ascii.eqb c "." then numDigits1 r else Some s
  | EmptyString => Some s
  end.

Definition numExpSign (s : string) : string :=
  match s with
  | String c r => if Ascii.eqb c "+" || Ascii.eqb c "-" then r else s
  | EmptyString => s
  end.

Definition numExp (s : string) : option string :=
  match s with
  | String c r =>
      if Ascii.eqb c "e" || Ascii.eqb c "E" then numDigits1 (numExpSign r)
      else Some s
  | EmptyString => Some s
  end.

Definition numericLiteral (s : string) : bool :=
  match numInt (numSign s) with
  | Some s1 =>
      match numFrac s1 with
      | Some s2 =>
          match numExp s2 with
          | Some s3 => isEmpty s3
          | None => false
          end
      | None => false
      end
  | None => false
  end.

(** The text [JSON.parse] reads as a value: the input without the JSON
    whitespace around it. *)
Definition jsonBody (s : string) : string :=
  dropWhile isJsonWhite (dropWhileEnd isJsonWhite s).

(** A host whose numbers are the integers, read and printed in decimal; it
    serves to run the codec on concrete documents. *)
Fixpoint intDigits (acc : Z) (s : string) : Z :=
  match s with
  | EmptyString => acc
  | String c r =>
      if isDigit c
      then intDigits (acc * 10 + Z.of_nat (nat_of_ascii c - 48)) r
      else acc
  end.

Definition intOfLiteral (s : string) : Z :=
  match s with
  | String c r => if Ascii.eqb c "-" then (- intDigits 0 r)%Z else intDigits 0 s
  | EmptyString => 0%Z
  end.

Definition intToString (z : Z) : string := NilZero.string_of_int (Z.to_int z).

Definition IntHost : JsNumber :=
  {| num := Z; numOfLiteral := intOfLiteral; numToString := intToString |}.

(** ** The data model *)

(** The data model: the JSON values, with JavaScript objects as the codec
    sees them.  [props] lists the own properties in enumeration order
    ([Object.keys], [Object.entries]).  [detached] records that the
    prototype chain no longer reaches [Object.prototype], so that the
    inherited [__proto__] setter is out of reach (see [objSet]). *)
Section Codec.

Context {host : JsNumber}.

#[warnings="-register-all"]
Inductive Value : Type :=
  | Null
  | Boolean (b : bool)
  | Number (n : num)
  | Str (s : string)
  | Object (detached : bool) (props : list (string * Value))
  | Array (items : list Value).

(** ** [isNumberLike] and [parseScalar] *)

(** [JSON.parse(s)] succeeds with a number exactly when [s] is a number
    literal with JSON whitespace around it. *)
Definition isNumberLike (s : string) : bool := numericLiteral (jsonBody s).

Definition parseScalar (raw : string) : Value :=
  let s := trim raw in
  if String.eqb s "" then Str ""
  else if startsWith "'" s then Str (sliceFrom 1 s)
  else if String.eqb s "true" then Boolean true
  else if String.eqb s "false" then Boolean false
  else if String.eqb s "null" then Null
  else if isNumberLike s then Number (numOfLiteral (jsonBody s))
  else Str s.

(** ** [tokenizeLines] *)

Definition Line : Type := (nat * string)%type.

Fixpoint tokenizeLoop (lines : list string) : list Line :=
  match lines with
  | [] => []
  | line :: rest =>
      if isEmpty (trim line) then tokenizeLoop rest
      else
        let stripped := stripLeadingSpaces line in
        let indent := String.length line - String.length stripped in
        if startsWith "!ARION" stripped then tokenizeLoop rest
        else if startsWith "#" stripped then tokenizeLoop rest
        else (indent, stripped) :: tokenizeLoop rest
  end.

Definition tokenizeLines (text : string) : list Line :=
  tokenizeLoop (splitLines text).

(** ** JavaScript objects *)

Definition JsObject : Type := (bool * list (string * Value))%type.

(** [{}] *)
Definition emptyObject : JsObject := (false, []).

Fixpoint digitsValue (acc : N) (s : string) : option N :=
  match s with
  | EmptyString => Some acc
  | String c r =>
      if isDigit c
      then digitsValue (acc * 10 + N.of_nat (nat_of_ascii c - 48)) r
      else None
  end.

(** A property name is an array index when it is the canonical decimal text
    of an integer below 2^32 - 1; such names are enumerated first, in
    ascending numeric order. *)
Definition arrayIndex (key : string) : option N :=
  match key with
  | EmptyString => None
  | String c r =>
      if Ascii.eqb c "0" then (if isEmpty r then Some 0%N else None)
      else if isDigit19 c then
        match digitsValue 0 key with
        | Some n => if (n <? 4294967295)%N then Some n else None
        | None => None
        end
      else None
  end.

Fixpoint hasOwn (key : string) (props : list (string * Value)) : bool :=
  match props with
  | [] => false
  | (k, _) :: rest => String.eqb k key || hasOwn key rest
  end.

Fixpoint replaceOwn (key : string) (v : Value) (props : list (string * Value))
  : list (string * Value) :=
  match props with
  | [] => []
  | (k, w) :: rest =>
      if String.eqb k key then (k, v) :: rest
      else (k, w) :: replaceOwn key v rest
  end.

Fixpoint insertIndex (n : N) (key : string) (v : Value)
  (props : list (string * Value)) : list (string * Value) :=
  match props with
  | [] => [(key, v)]
  | (k, w) :: rest =>
      match arrayIndex k with
      | Some m =>
          if (n <? m)%N then (key, v) :: props
          else (k, w) :: insertIndex n key v rest
      | None => (key, v) :: props
      end
  end.

(** Creation of a new own property, placed where enumeration will list it. *)
Definition defineOwn (key : string) (v : Value) (props : list (string * Value))
  : list (string * Value) :=
  match arrayIndex key with
  | Some n => insertIndex n key v props
  | None => props ++ [(key, v)]
  end.

(** [obj[key] = v] on an ordinary object.  An own property is overwritten in
    place.  Otherwise the name [__proto__] reaches the setter inherited from
    [Object.prototype], which creates no property: it replaces the prototype
    when [v] is an object or [null] and does nothing for other values.  Any
    other name, and [__proto__] once the setter is out of reach, becomes a
    new own property. *)
Definition objSet (key : string) (v : Value) (obj : JsObject) : JsObject :=
  let (detached, props) := obj in
  if hasOwn key props then (detached, replaceOwn key v props)
  else if String.eqb key "__proto__" && negb detached then
    match v with
    | Null => (true, props)
    | Object d _ => (d, props)
    | Array _ => (false, props)
    | _ => (detached, props)
    end
  else (detached, defineOwn key v props).

(** [Object.keys(obj)] *)
Definition ownKeys (obj : JsObject) : list string := map fst (snd obj).

(** ** [loadsArion] *)

(** The two [throw] sites of [parseBlock]. *)
Inductive error : Type :=
  | InvalidLine (indent : nat) (stripped : string)
  | MixedContainer.

Definition errorMessage (e : error) : string :=
  match e with
  | InvalidLine indent stripped =>
      ("Invalid ARION line at indent " ++ natToString indent ++ ": " ++ stripped)%string
  | MixedContainer => "Mixed object and array at the same level is not allowed"
  end.

Inductive outcome (A : Type) : Type :=
  | Ok (a : A)
  | Throw (e : error)
  | Starved.

Arguments Ok {A} a.
Arguments Throw {A} e.
Arguments Starved {A}.

Definition isStructural (s : string) : bool :=
  startsWith "." s || startsWith "-" s.

(** The inner [while (j < lines.length)] loop of the multiline branch, run
    over the lines from [j] on: the strings pushed onto [multiline]. *)
Fixpoint collectMultiline (childIndent : nat) (rest : list Line) : list string :=
  match rest with
  | [] => []
  | (ci, cs) :: rest' =>
      if (ci <? childIndent)%nat then []
      else if (ci =? childIndent)%nat && negb (isStructural cs)
      then cs :: collectMultiline childIndent rest'
      else []
  end.

(** [arr] after [if (arr === null) arr = []]. *)
Definition arrItems (arr : option (list Value)) : list Value :=
  match arr with Some a => a | None => [] end.

(** What one turn of the [while (index < lines.length)] loop does. *)
Inductive stepResult : Type :=
  | Continue (index : nat) (obj : JsObject) (arr : option (list Value))
  | Exit
  | Fail (e : error)
  | NoFuel.

Definition blockStep (lines : list Line)
  (parseBlock : nat -> nat -> outcome (nat * Value))
  (index currentIndent : nat) (obj : JsObject) (arr : option (list Value))
  : stepResult :=
  match nth_error lines index with
  | None => Exit
  | Some (indent, stripped) =>
      if (indent <? currentIndent)%nat then Exit
      else if startsWith "." stripped then
        let content := sliceFrom 1 stripped in
        match indexOf SP content with
        | Some spaceIdx =>
            let key := sliceTo spaceIdx content in
            let valueStr := sliceFrom (spaceIdx + 1) content in
            Continue (index + 1) (objSet key (parseScalar valueStr) obj) arr
        | None =>
            let key := content in
            match nth_error lines (index + 1) with
            | None => Continue (index + 1) (objSet key (Object false []) obj) arr
            | Some (nextIndent, nextStripped) =>
                if (nextIndent <=? indent)%nat
                then Continue (index + 1) (objSet key (Object false []) obj) arr
                else if negb (isStructural nextStripped) then
                  let multiline :=
                    collectMultiline nextIndent (skipn (index + 1) lines) in
                  Continue (index + 1 + List.length multiline)
                           (objSet key (Str (joinNewline multiline)) obj) arr
                else
                  match parseBlock (index + 1) (indent + 1) with
                  | Ok (index', value) => Continue index' (objSet key value obj) arr
                  | Throw e => Fail e
                  | Starved => NoFuel
                  end
            end
        end
      else if startsWith "-" stripped then
        let arr1 := arrItems arr in
        let tail := trim (sliceFrom 1 stripped) in
        if negb (isEmpty tail)
        then Continue (index + 1) obj (Some (arr1 ++ [parseScalar tail]))
        else
          match nth_error lines (index + 1) with
          | None => Continue (index + 1) obj (Some (arr1 ++ [Object false []]))
          | Some (nextIndent, nextStripped) =>
              if (nextIndent <=? indent)%nat
              then Continue (index + 1) obj (Some (arr1 ++ [Object false []]))
              else
                match parseBlock (index + 1) (indent + 1) with
                | Ok (index', value) => Continue index' obj (Some (arr1 ++ [value]))
                | Throw e => Fail e
                | Starved => NoFuel
                end
          end
      else Fail (InvalidLine indent stripped)
  end.

(** The three ways out after the loop. *)
Definition blockResult (index : nat) (obj : JsObject) (arr : option (list Value))
  : outcome (nat * Value) :=
  match arr with
  | Some a =>
      match ownKeys obj with
      | [] => Ok (index, Array a)
      | _ :: _ => Throw MixedContainer
      end
  | None => Ok (index, Object (fst obj) (snd obj))
  end.

(** The loop of [parseBlock] from a given state of [index], [obj], [arr].
    A unit of fuel is spent per turn and per nested call. *)
Fixpoint parseLoop (lines : list Line) (fuel : nat) (index currentIndent : nat)
  (obj : JsObject) (arr : option (list Value)) {struct fuel}
  : outcome (nat * Value) :=
  match fuel with
  | O => Starved
  | S fuel' =>
      match blockStep lines
              (fun i c => parseLoop lines fuel' i c emptyObject None)
              index currentIndent obj arr with
      | Continue index' obj' arr' => parseLoop lines fuel' index' currentIndent obj' arr'
      | Exit => blockResult index obj arr
      | Fail e => Throw e
      | NoFuel => Starved
      end
  end.

Definition parseBlock (lines : list Line) (fuel : nat) (index currentIndent : nat)
  : outcome (nat * Value) :=
  parseLoop lines fuel index currentIndent emptyObject None.

Definition loadsArion (text : string) : outcome Value :=
  let lines := tokenizeLines text in
  match lines with
  | [] => Ok Null
  | (firstIndent, _) :: _ =>
      match parseBlock lines (S (List.length lines)) 0 firstIndent with
      | Ok (_, value) => Ok value
      | Throw e => Throw e
      | Starved => Starved
      end
  end.

(** ** [dumpsArion] *)

(** [encodeScalar] is called on scalars only; [String(v)] of a compound
    value is not modelled and the empty text stands in its place. *)
Definition encodeScalar (v : Value) : string :=
  match v with
  | Boolean b => if b then "true" else "false"
  | Null => "null"
  | Number n => numToString n
  | Str s =>
      if String.eqb s "true" || String.eqb s "false" || String.eqb s "null"
         || isNumberLike s
      then String "'" s
      else s
  | Object _ _ | Array _ => ""
  end.

(** The lines pushed for a string holding a line feed. *)
Definition multilineLines (indent : nat) (s : string) : list string :=
  map (fun line => (spaces (indent + 2) ++ line)%string) (splitNewline s).

Fixpoint encodeBlock (v : Value) (indent : nat) {struct v} : list string :=
  let sp := spaces indent in
  match v with
  | Array items =>
      flat_map
        (fun item =>
           match item with
           | Array _ | Object _ _ =>
               (sp ++ "-")%string :: encodeBlock item (indent + 2)
           | Str s =>
               if includes LF s
               then (sp ++ "-")%string :: multilineLines indent s
               else [(sp ++ "- " ++ encodeScalar item)%string]
           | _ => [(sp ++ "- " ++ encodeScalar item)%string]
           end)
        items
  | Object _ props =>
      flat_map
        (fun entry =>
           match entry with
           | (k, val) =>
               match val with
               | Array _ | Object _ _ =>
                   (sp ++ "." ++ k)%string :: encodeBlock val (indent + 2)
               | Str s =>
                   if includes LF s
                   then (sp ++ "." ++ k)%string :: multilineLines indent s
                   else [(sp ++ "." ++ k ++ " " ++ encodeScalar val)%string]
               | _ => [(sp ++ "." ++ k ++ " " ++ encodeScalar val)%string]
               end
           end)
        props
  | _ => [(sp ++ "- " ++ encodeScalar v)%string]
  end.

Definition dumpsArion (value : Value) (header : bool) : string :=
  let lines :=
    (if header then ["!ARION 1.0"; ""] else []) ++ encodeBlock value 0 in
  (joinNewline lines ++ String LF "")%string.

(** ** Notions used in the statements *)

(** The scalar resolver as the specification words it: rules tried in
    order, the first that applies decides, and a text that no rule takes
    is kept verbatim. *)
Definition ruleEmpty (s : string) : option Value :=
  if isEmpty s then Some (Str "") else None.

Definition ruleQuoted (s : string) : option Value :=
  match s with
  | String c r => if Ascii.eqb c "'" then Some (Str r) else None
  | EmptyString => None
  end.

Definition ruleBoolean (s : string) : option Value :=
  if String.eqb s "true" then Some (Boolean true)
  else if String.eqb s "false" then Some (Boolean false)
  else None.

Definition ruleNull (s : string) : option Value :=
  if String.eqb s "null" then Some Null else None.

Definition ruleNumber (s : string) : option Value :=
  if numericLiteral s then Some (Number (numOfLiteral s)) else None.

Definition scalarRules : list (string -> option Value) :=
  [ruleEmpty; ruleQuoted; ruleBoolean; ruleNull; ruleNumber].

Fixpoint firstMatch (rules : list (string -> option Value)) (s : string) : Value :=
  match rules with
  | [] => Str s
  | rule :: rest =>
      match rule s with
      | Some v => v
      | None => firstMatch rest s
      end
  end.

(** The lines of a text that the tokenizer passes over. *)
Definition blankLine (line : string) : bool := isEmpty (trim line).

Definition headerLine (line : string) : bool :=
  startsWith "!ARION" (stripLeadingSpaces line).

Definition commentLine (line : string) : bool :=
  startsWith "#" (stripLeadingSpaces line).

Definition nonStructural (line : string) : bool :=
  blankLine line || headerLine line || commentLine line.

(** The look-ahead of a marker line without inline value finds nothing
    nested: no next line, or one indented no deeper. *)
Definition nothingNested (lines : list Line) (index indent : nat) : Prop :=
  nth_error lines (index + 1) = None
  \/ exists nextIndent nextStripped,
       nth_error lines (index + 1) = Some (nextIndent, nextStripped)
       /\ nextIndent <= indent.

(** The nested call [parseBlock(index + 1, indent + 1)] of a turn that has
    [fuel] left. *)
Definition nested (lines : list Line) (fuel : nat)
  : nat -> nat -> outcome (nat * Value) :=
  fun i c => parseLoop lines fuel i c emptyObject None.

(** [turns lines ci fuel index obj arr fuel' index' obj' arr']: the loop of
    a block with threshold [ci], standing at [index] with [obj] and [arr],
    comes after some turns to stand at [index'] with [obj'] and [arr']. *)
Inductive turns (lines : list Line) (ci : nat)
  : nat -> nat -> JsObject -> option (list Value)
    -> nat -> nat -> JsObject -> option (list Value) -> Prop :=
  | turns_here fuel index obj arr :
      turns lines ci fuel index obj arr fuel index obj arr
  | turns_next fuel index obj arr index1 obj1 arr1 fuel2 index2 obj2 arr2 :
      blockStep lines (nested lines fuel) index ci obj arr
      = Continue index1 obj1 arr1 ->
      turns lines ci fuel index1 obj1 arr1 fuel2 index2 obj2 arr2 ->
      turns lines ci (S fuel) index obj arr fuel2 index2 obj2 arr2.

(** The key that the loop takes from a key line. *)
Definition lineKey (stripped : string) : string :=
  let content := sliceFrom 1 stripped in
  match indexOf SP content with
  | Some spaceIdx => sliceTo spaceIdx content
  | None => content
  end.

(** Names that become own properties in creation order: every name except
    the array indices and [__proto__]. *)
Definition plainKey (k : string) : bool :=
  negb (String.eqb k "__proto__")
  && match arrayIndex k with Some _ => false | None => true end.

(** Keys in the order in which each is met first. *)
Definition seeKey (seen : list string) (k : string) : list string :=
  if plainKey k
  then (if existsb (String.eqb k) seen then seen else seen ++ [k])
  else seen.

Definition firstSeen (seen keys : list string) : list string :=
  fold_left seeKey keys seen.

(** The key lines that the loop of a block reads, each with its line index,
    in the order of the turns. *)
Fixpoint declaredKeys (lines : list Line) (fuel : nat) (index ci : nat)
  (obj : JsObject) (arr : option (list Value)) {struct fuel}
  : list (nat * string) :=
  match fuel with
  | O => []
  | S fuel' =>
      match blockStep lines (nested lines fuel') index ci obj arr with
      | Continue index' obj' arr' =>
          match nth_error lines index with
          | Some (_, stripped) =>
              if startsWith "." stripped
              then (index, lineKey stripped)
                   :: declaredKeys lines fuel' index' ci obj' arr'
              else declaredKeys lines fuel' index' ci obj' arr'
          | None => declaredKeys lines fuel' index' ci obj' arr'
          end
      | _ => []
      end
  end.

(** The lines that [encodeBlock] pushes for one entry of an object. *)
Definition encodeEntry (indent : nat) (entry : string * Value) : list string :=
  let sp := spaces indent in
  match entry with
  | (k, val) =>
      match val with
      | Array _ | Object _ _ =>
          (sp ++ "." ++ k)%string :: encodeBlock val (indent + 2)
      | Str s =>
          if includes LF s
          then (sp ++ "." ++ k)%string :: multilineLines indent s
          else [(sp ++ "." ++ k ++ " " ++ encodeScalar val)%string]
      | _ => [(sp ++ "." ++ k ++ " " ++ encodeScalar val)%string]
      end
  end.

(** The lines that [encodeBlock] pushes for one item of an array. *)
Definition encodeItem (indent : nat) (item : Value) : list string :=
  let sp := spaces indent in
  match item with
  | Array _ | Object _ _ =>
      (sp ++ "-")%string :: encodeBlock item (indent + 2)
  | Str s =>
      if includes LF s
      then (sp ++ "-")%string :: multilineLines indent s
      else [(sp ++ "- " ++ encodeScalar item)%string]
  | _ => [(sp ++ "- " ++ encodeScalar item)%string]
  end.

(** A line of the encoder that opens the entry of [key]. *)
Definition markerChunk (indent : nat) (key : string) (chunk : list string) : Prop :=
  exists rest more,
    chunk = (spaces indent ++ "." ++ key ++ rest)%string :: more
    /\ (rest = "" \/ startsWith " " rest = true).

(** ** The lines of a block, read off the layout of the text *)

(** The number of leading lines of [rest] indented by at least [c]. *)
Fixpoint deeperRun (c : nat) (rest : list Line) : nat :=
  match rest with
  | [] => 0
  | (n, _) :: rest' => if (n <? c)%nat then 0 else S (deeperRun c rest')
  end.

(** A marker line that carries its value on the line itself: a key line
    with a space after the key, an item line with text after the dash. *)
Definition inlineValue (stripped : string) : bool :=
  if startsWith "." stripped
  then match indexOf SP (sliceFrom 1 stripped) with
       | Some _ => true
       | None => false
       end
  else negb (isEmpty (trim (sliceFrom 1 stripped))).

(** The number of lines after the marker line [(indent, stripped)] that
    make up its entry.  A line with an inline value stands alone.  Under a
    bare key line whose next line is indented deeper and starts with
    neither a dot nor a dash, the entry is the text of a multiline string:
    the run of such lines at the indent of the first.  Otherwise it is the
    nested block: the run of lines indented deeper than the marker line. *)
Definition entryExtent (indent : nat) (stripped : string) (rest : list Line) : nat :=
  if inlineValue stripped then 0
  else
    match rest with
    | [] => 0
    | (nextIndent, nextStripped) :: _ =>
        if (indent <? nextIndent)%nat && startsWith "." stripped
           && negb (isStructural nextStripped)
        then List.length (collectMultiline nextIndent rest)
        else deeperRun (indent + 1) rest
    end.

(** The own lines of the block with threshold [ci] that starts with the
    first line of [rest], which is line [pos] of the document: each own
    line with its index, up to the first one indented less than [ci].  The
    next [skip] lines belong to the entry of the own line before them. *)
Fixpoint ownLines (ci skip pos : nat) (rest : list Line) : list (nat * string) :=
  match rest with
  | [] => []
  | (n, s) :: rest' =>
      match skip with
      | S k => ownLines ci k (S pos) rest'
      | O =>
          if (n <? ci)%nat then []
          else (pos, s) :: ownLines ci (entryExtent n s rest') (S pos) rest'
      end
  end.

Definition blockLines (lines : list Line) (index ci : nat) : list (nat * string) :=
  ownLines ci 0 index (skipn index lines).

(** The key lines among the own lines of a block, each with its line index
    and the key it declares, in the order of the text. *)
Definition keyLines (lines : list Line) (index ci : nat) : list (nat * string) :=
  map (fun e => (fst e, lineKey (snd e)))
      (filter (fun e => startsWith "." (snd e)) (blockLines lines index ci)).

(** ** The order in which JavaScript lists the keys of an object *)

Definition isIndexKey (k : string) : bool :=
  match arrayIndex k with Some _ => true | None => false end.

(** [k1] and [k2] are array indices and [k1] is the smaller number. *)
Definition indexBefore (k1 k2 : string) : Prop :=
  match arrayIndex k1, arrayIndex k2 with
  | Some a, Some b => (a < b)%N
  | _, _ => False
  end.

(** Array indices come first, in ascending order; the other names follow. *)
Definition indexFirst (keys : list string) : Prop :=
  keys = filter isIndexKey keys ++ filter (fun k => negb (isIndexKey k)) keys
  /\ StronglySorted indexBefore (filter isIndexKey keys).

(** The value of the own property [key], if there is one. *)
Fixpoint getOwn (key : string) (props : list (string * Value)) : option Value :=
  match props with
  | [] => None
  | (k, w) :: rest => if String.eqb k key then Some w else getOwn key rest
  end.

(** ** The values that the round trip gives back *)

Definition isCR (c : ascii) : bool := Ascii.eqb c CR.

(** No carriage return at the end (one there would be taken as part of the
    line separator). *)
Definition noTrailingCR (s : string) : bool :=
  String.eqb (dropWhileEnd isCR s) s.

(** A key that a marker line gives back as written: no space, no line
    feed, no carriage return at the end. *)
Definition keyOk (k : string) : bool :=
  negb (includes SP k) && negb (includes LF k) && noTrailingCR k.

(** A one-line string that the scalar resolver gives back as written: no
    whitespace at either end and no quote at the front. *)
Definition plainText (s : string) : bool :=
  negb (includes LF s) && String.eqb (trim s) s && negb (startsWith "'" s).

(** A line of a multiline string that the tokenizer keeps as it stands and
    that the multiline loop accepts. *)
Definition segmentOk (seg : string) : bool :=
  negb (isEmpty (trim seg))
  && negb (startsWith " " seg)
  && negb (isStructural seg)
  && negb (startsWith "#" seg)
  && negb (startsWith "!ARION" seg)
  && noTrailingCR seg.

Definition multilineOk (s : string) : bool :=
  includes LF s && forallb segmentOk (splitNewline s).

(** A number that [JSON.stringify] prints as a literal denoting it again. *)
Definition numberOk (n : num) : Prop :=
  numericLiteral (numToString n) = true
  /\ numOfLiteral (numToString n) = n.

(** The own properties in the order in which assignments create them. *)
Definition buildObject (props : list (string * Value)) : JsObject :=
  fold_left (fun obj entry => objSet (fst entry) (snd entry) obj) props emptyObject.

Inductive position : Type := Root | Entry | Item.

(** [encodable pos v]: [v], standing as the document, as the value of an
    object entry or as an array item, is within the part of the data model
    that the text format carries:
    - the document is an object or an array with at least one member;
    - an array has at least one item; an array item is not a multiline
      string and not the empty string;
    - a string has one line satisfying [plainText], or, as an entry value,
      several lines satisfying [segmentOk];
    - keys satisfy [keyOk], and the properties of an object are listed as
      assignments in that order create them (which excludes a repeated
      key and a key [__proto__]);
    - numbers satisfy [numberOk]. *)
Fixpoint encodable (pos : position) (v : Value) {struct v} : Prop :=
  match v with
  | Null | Boolean _ => pos <> Root
  | Number n => pos <> Root /\ numberOk n
  | Str s =>
      match pos with
      | Root => False
      | Entry => plainText s = true \/ multilineOk s = true
      | Item => plainText s = true /\ isEmpty s = false
      end
  | Object d props =>
      d = false
      /\ (pos = Root -> props <> [])
      /\ buildObject props = (false, props)
      /\ fold_right
           (fun entry rest =>
              match entry with
              | (k, val) => keyOk k = true /\ encodable Entry val /\ rest
              end)
           True props
  | Array items =>
      items <> []
      /\ fold_right (fun item rest => encodable Item item /\ rest) True items
  end.

(** A text line as the tokenizer records it. *)
Definition tokenOf (line : string) : Line :=
  (String.length line - String.length (stripLeadingSpaces line),
   stripLeadingSpaces line).

(** The head of [rest], if any, is indented less than [n]. *)
Definition below (n : nat) (rest : list Line) : Prop :=
  match rest with
  | [] => True
  | (indent, _) :: _ => indent < n
  end.

(** Characters of number literals. *)
Definition numChar (c : ascii) : bool :=
  isDigit c || Ascii.eqb c "-" || Ascii.eqb c "+" || Ascii.eqb c "."
  || Ascii.eqb c "e" || Ascii.eqb c "E".

Fixpoint allChars (p : ascii -> bool) (s : string) : bool :=
  match s with
  | EmptyString => true
  | String c r => p c && allChars p r
  end.

(** A scalar that an inline value carries. *)
Definition scalarOk (v : Value) : Prop :=
  match v with
  | Null | Boolean _ => True
  | Number n => numberOk n
  | Str s => plainText s = true
  | Object _ _ | Array _ => False
  end.

(** A text line that [split] gives back whole, and one that the tokenizer
    records. *)
Definition cleanLine (line : string) : bool :=
  negb (includes LF line) && noTrailingCR line.

Definition lineOk (line : string) : bool :=
  cleanLine line && negb (nonStructural line).

Definition entriesOk (props : list (string * Value)) : Prop :=
  fold_right
    (fun entry rest =>
       match entry with
       | (k, val) => keyOk k = true /\ encodable Entry val /\ rest
       end)
    True props.

Definition itemsOk (items : list Value) : Prop :=
  fold_right (fun item rest => encodable Item item /\ rest) True items.

(** The lines of a block as the tokenizer records them. *)
Definition blockTokens (v : Value) (indent : nat) : list Line :=
  map tokenOf (encodeBlock v indent).

Definition entryTokens (indent : nat) (entry : string * Value) : list Line :=
  map tokenOf (encodeEntry indent entry).

Definition itemTokens (indent : nat) (item : Value) : list Line :=
  map tokenOf (encodeItem indent item).

(** [parsesBack v]: wherever the lines of the block [v] stand in a token
    list, followed by nothing or by a line indented less than the
    threshold, [parseBlock] entered at their first line returns [v] and
    the index of the line after them. *)
Definition parsesBack (v : Value) : Prop :=
  match v with
  | Object _ _ | Array _ =>
      forall indent lines pre post fuel ci,
        encodable Entry v ->
        lines = pre ++ blockTokens v indent ++ post ->
        ci <= indent ->
        below ci post ->
        List.length (blockTokens v indent) < fuel ->
        parseLoop lines fuel (List.length pre) ci emptyObject None
        = Ok (List.length pre + List.length (blockTokens v indent), v)
  | _ => True
  end.

(** The recorded lines of an entry and of an item, spelled out. *)
Definition entryShape (n : nat) (entry : string * Value) : list Line :=
  match entry with
  | (k, w) =>
      match w with
      | Object _ _ | Array _ => (n, String "." k) :: blockTokens w (n + 2)
      | Str s =>
          if includes LF s
          then (n, String "." k) :: map (fun seg => (n + 2, seg)) (splitNewline s)
          else [(n, String "." (k ++ String SP (encodeScalar w)))]
      | _ => [(n, String "." (k ++ String SP (encodeScalar w)))]
      end
  end.

Definition itemShape (n : nat) (w : Value) : list Line :=
  match w with
  | Object _ _ | Array _ => (n, "-") :: blockTokens w (n + 2)
  | _ => [(n, String "-" (String SP (encodeScalar w)))]
  end.

(** [linesBack v]: the tokenizer keeps every line of the block [v] and
    records it with its indent and its text. *)
Definition linesBack (v : Value) : Prop :=
  match v with
  | Object _ props =>
      forall n, encodable Entry v ->
        forallb lineOk (encodeBlock v n) = true
        /\ blockTokens v n = flat_map (entryShape n) props
  | Array items =>
      forall n, encodable Entry v ->
        forallb lineOk (encodeBlock v n) = true
        /\ blockTokens v n = flat_map (itemShape n) items
  | _ => True
  end.

(** [arr] after the pushes of [items]. *)
Definition pushed (arr : option (list Value)) (items : list Value)
  : option (list Value) :=
  match items with
  | [] => arr
  | _ :: _ => Some (arrItems arr ++ items)
  end.

(** [obj] after the assignments of [props]. *)
Definition assigned (obj : JsObject) (props : list (string * Value)) : JsObject :=
  fold_left (fun o entry => objSet (fst entry) (snd entry) o) props obj.

(** ** Notions used for the decoder's results and errors *)

(** [treeAll P v]: [P] holds of [v] and of every value inside it. *)
Fixpoint treeAll (P : Value -> Prop) (v : Value) {struct v} : Prop :=
  P v
  /\ match v with
     | Object _ props =>
         fold_right
           (fun entry rest =>
              match entry with
              | (_, w) => treeAll P w /\ rest
              end)
           True props
     | Array items => fold_right (fun w rest => treeAll P w /\ rest) True items
     | _ => True
     end.

Definition notEmptyArray (v : Value) : Prop := v <> Array [].

(** The keys of an object are pairwise distinct and hold no space. *)
Definition keysDistinct (v : Value) : Prop :=
  match v with
  | Object _ props =>
      NoDup (map fst props)
      /\ Forall (fun k => includes SP k = false) (map fst props)
  | _ => True
  end.

Definition decodedNode (v : Value) : Prop := notEmptyArray v /\ keysDistinct v.

(** What the loop keeps true of [obj] and of [arr]. *)
Definition objInv (obj : JsObject) : Prop :=
  NoDup (ownKeys obj)
  /\ Forall (fun k => includes SP k = false) (ownKeys obj)
  /\ Forall (fun e => treeAll decodedNode (snd e)) (snd obj).

Definition arrInv (arr : option (list Value)) : Prop :=
  match arr with
  | None => True
  | Some a => a <> [] /\ Forall (treeAll decodedNode) a
  end.

(** An error names a line of the document that is no marker line. *)
Definition errorSound (lines : list Line) (e : error) : Prop :=
  match e with
  | InvalidLine indent stripped =>
      In (indent, stripped) lines /\ isStructural stripped = false
  | MixedContainer => True
  end.

Definition hasKeyLine (lines : list Line) : Prop :=
  exists indent stripped,
    In (indent, stripped) lines /\ startsWith "." stripped = true.

Definition hasItemLine (lines : list Line) : Prop :=
  exists indent stripped,
    In (indent, stripped) lines /\ startsWith "-" stripped = true.

(** [loadsArion] after the tokenizer. *)
Definition decodeLines (lines : list Line) : outcome Value :=
  match lines with
  | [] => Ok Null
  | (firstIndent, _) :: _ =>
      match parseBlock lines (S (List.length lines)) 0 firstIndent with
      | Ok (_, value) => Ok value
      | Throw e => Throw e
      | Starved => Starved
      end
  end.

(** The text whose lines are [ls], each closed by a carriage return and a
    line feed. *)
Fixpoint closeCRLF (ls : list string) : string :=
  match ls with
  | [] => EmptyString
  | l :: rest => (l ++ String CR (String LF (closeCRLF rest)))%string
  end.

(** * Properties *)

(** ** Strings *)

Lemma append_empty_r (s : string) : (s ++ "")%string = s.
Proof. induction s as [|c s IH]; simpl; [reflexivity | now rewrite IH]. Qed.

Lemma append_assoc (a b c : string) :
  ((a ++ b) ++ c)%string = (a ++ (b ++ c))%string.
Proof. induction a as [|x a IH]; simpl; [reflexivity | now rewrite IH]. Qed.

Lemma length_append (a b : string) :
  String.length (a ++ b) = String.length a + String.length b.
Proof. induction a as [|x a IH]; simpl; [reflexivity | now rewrite IH]. Qed.

Lemma isEmpty_true (s : string) : isEmpty s = true -> s = "".
Proof. destruct s; simpl; [reflexivity | discriminate]. Qed.

Lemma dropWhile_length (p : ascii -> bool) (s : string) :
  dropWhile p s = s \/ String.length (dropWhile p s) < String.length s.
Proof.
  induction s as [|c s IH]; simpl; [now left|].
  destruct (p c); [right | now left].
  destruct IH as [-> | IH]; lia.
Qed.

Lemma dropWhileEnd_length (p : ascii -> bool) (s : string) :
  dropWhileEnd p s = s \/ String.length (dropWhileEnd p s) < String.length s.
Proof.
  induction s as [|c s IH]; simpl; [now left|].
  destruct (isEmpty (dropWhileEnd p s) && p c); simpl; [right; lia|].
  destruct IH as [-> | IH]; [now left | right; lia].
Qed.

(** A text that [trim] leaves alone has nothing to drop at either end. *)
Lemma trim_fixed (s : string) :
  trim s = s -> dropWhileEnd isWhite s = s /\ dropWhile isWhite s = s.
Proof.
  unfold trim. intro H.
  destruct (dropWhileEnd_length isWhite s) as [E | L].
  - rewrite E in H. now split.
  - exfalso.
    destruct (dropWhile_length isWhite (dropWhileEnd isWhite s)) as [E' | L'].
    + rewrite E' in H. rewrite H in L. lia.
    + rewrite H in L'. lia.
Qed.

Lemma dropWhile_weaken (p q : ascii -> bool) (s : string) :
  (forall c, q c = true -> p c = true) ->
  dropWhile p s = s -> dropWhile q s = s.
Proof.
  intros Hqp. destruct s as [|c s]; simpl; [reflexivity|].
  destruct (p c) eqn:Ep.
  - intro H. exfalso.
    destruct (dropWhile_length p s) as [E | L].
    + rewrite E in H. apply (f_equal String.length) in H. simpl in H. lia.
    + apply (f_equal String.length) in H. simpl in H. lia.
  - intros _. destruct (q c) eqn:Eq; [|reflexivity].
    apply Hqp in Eq. congruence.
Qed.

Lemma dropWhileEnd_weaken (p q : ascii -> bool) (s : string) :
  (forall c, q c = true -> p c = true) ->
  dropWhileEnd p s = s -> dropWhileEnd q s = s.
Proof.
  intros Hqp. induction s as [|c s IH]; simpl; [reflexivity|].
  destruct (isEmpty (dropWhileEnd p s) && p c) eqn:E; [discriminate|].
  intro H. injection H as H. rewrite H in E. rewrite (IH H).
  destruct (isEmpty s && q c) eqn:E'; [|reflexivity].
  apply andb_true_iff in E' as [E1 E2]. apply Hqp in E2.
  rewrite E1, E2 in E. discriminate.
Qed.

Lemma jsonWhite_isWhite (c : ascii) : isJsonWhite c = true -> isWhite c = true.
Proof.
  unfold isJsonWhite, isWhite. intro H.
  repeat (apply orb_true_iff in H as [H | H]); rewrite H;
    repeat rewrite orb_true_r; reflexivity.
Qed.

Lemma jsonBody_trimmed (s : string) : trim s = s -> jsonBody s = s.
Proof.
  intro H. apply trim_fixed in H as [H1 H2]. unfold jsonBody.
  rewrite (dropWhileEnd_weaken isWhite isJsonWhite s jsonWhite_isWhite H1).
  exact (dropWhile_weaken isWhite isJsonWhite s jsonWhite_isWhite H2).
Qed.

Lemma startsWith_char (c : ascii) (s : string) :
  startsWith (String c "") s = true -> s = String c (sliceFrom 1 s).
Proof.
  destruct s as [|d s]; simpl; [discriminate|].
  rewrite andb_true_r. intro H. apply Ascii.eqb_eq in H. now subst.
Qed.

Lemma startsWith_cons (c d : ascii) (s : string) :
  startsWith (String c "") (String d s) = Ascii.eqb c d.
Proof. simpl. apply andb_true_r. Qed.

(** ** The scalar resolver *)

Lemma startsWith_quote (s : string) :
  startsWith "'" s = true -> ruleQuoted s = Some (Str (sliceFrom 1 s)).
Proof.
  intro H. rewrite (startsWith_char _ _ H) at 1. simpl. reflexivity.
Qed.

Lemma startsWith_quote_false (s : string) :
  startsWith "'" s = false -> ruleQuoted s = None.
Proof.
  destruct s as [|c s]; [reflexivity|].
  rewrite startsWith_cons, Ascii.eqb_sym. intro H. simpl. now rewrite H.
Qed.

(** C7. For every trimmed raw text, [parseScalar] gives what the ordered
    rules give with the first match winning: the empty text is the empty
    string, a leading quote gives the rest after that one quote, [true] and
    [false] the booleans, [null] the null value, a number literal its
    number, anything else the text itself.  In particular [true] is the
    boolean and ['true] is the string [true]. *)
Theorem parseScalar_priority (s : string) :
  trim s = s ->
  parseScalar s = firstMatch scalarRules s
  /\ parseScalar "true" = Boolean true
  /\ parseScalar "'true" = Str "true".
Proof.
  intro H. split; [|split; reflexivity].
  unfold parseScalar. rewrite H. unfold isNumberLike.
  rewrite (jsonBody_trimmed s H). cbn [firstMatch scalarRules]. unfold ruleEmpty.
  destruct s as [|c s]; [reflexivity|].
  cbn [isEmpty]. change (String.eqb (String c s) "") with false. cbv iota.
  destruct (startsWith "'" (String c s)) eqn:Q.
  - now rewrite (startsWith_quote _ Q).
  - rewrite (startsWith_quote_false _ Q).
    unfold ruleBoolean, ruleNull, ruleNumber.
    destruct (String.eqb (String c s) "true"); [reflexivity|].
    destruct (String.eqb (String c s) "false"); [reflexivity|].
    destruct (String.eqb (String c s) "null"); [reflexivity|].
    destruct (numericLiteral (String c s)); reflexivity.
Qed.

(** ** Documents without structural lines *)

Lemma tokenizeLoop_nonStructural (lines : list string) :
  forallb nonStructural lines = true -> tokenizeLoop lines = [].
Proof.
  induction lines as [|line rest IH]; simpl; [reflexivity|].
  intro H. apply andb_true_iff in H as [H1 H2]. specialize (IH H2).
  unfold nonStructural, blankLine, headerLine, commentLine in H1.
  destruct (isEmpty (trim line)); [exact IH|].
  destruct (startsWith "!ARION" (stripLeadingSpaces line)); [exact IH|].
  destruct (startsWith "#" (stripLeadingSpaces line)); [exact IH|].
  discriminate.
Qed.

(** C10. A text all of whose lines are blank or whitespace-only, comment
    lines or [!ARION] header lines (the empty text among them) decodes to
    [null]: no error and no empty object. *)
Theorem loadsArion_no_lines (text : string) :
  forallb nonStructural (splitLines text) = true ->
  loadsArion text = Ok Null.
Proof.
  intro H. unfold loadsArion, tokenizeLines.
  now rewrite (tokenizeLoop_nonStructural _ H).
Qed.

(** ** Marker lines without a value *)

(** One turn of the loop on a bare marker line with nothing nested under
    it. *)
Lemma blockStep_bare_marker
  (lines : list Line) (call : nat -> nat -> outcome (nat * Value))
  (index currentIndent : nat) (obj : JsObject) (arr : option (list Value))
  (indent : nat) (stripped : string) :
  nth_error lines index = Some (indent, stripped) ->
  currentIndent <= indent ->
  nothingNested lines index indent ->
  (startsWith "." stripped = true ->
   indexOf SP (sliceFrom 1 stripped) = None ->
   blockStep lines call index currentIndent obj arr
   = Continue (index + 1) (objSet (sliceFrom 1 stripped) (Object false []) obj) arr)
  /\
  (startsWith "-" stripped = true ->
   trim (sliceFrom 1 stripped) = "" ->
   blockStep lines call index currentIndent obj arr
   = Continue (index + 1) obj (Some (arrItems arr ++ [Object false []]))).
Proof.
  intros Hline Hci Hnext.
  assert (Hlt : (indent <? currentIndent)%nat = false) by (apply Nat.ltb_ge; lia).
  split.
  - intros Hdot Hsp. unfold blockStep. rewrite Hline, Hlt, Hdot, Hsp.
    destruct Hnext as [-> | (ni & ns & -> & Hle)]; [reflexivity|].
    apply Nat.leb_le in Hle. now rewrite Hle.
  - intros Hdash Htail. unfold blockStep. rewrite Hline, Hlt.
    assert (Hdot : startsWith "." stripped = false).
    { rewrite (startsWith_char _ _ Hdash). apply startsWith_cons. }
    rewrite Hdot, Hdash, Htail. simpl.
    destruct Hnext as [-> | (ni & ns & -> & Hle)]; [reflexivity|].
    apply Nat.leb_le in Hle. now rewrite Hle.
Qed.

(** ** Fuel: the loop always comes to an end *)

Ltac step_cases :=
  repeat match goal with
    | H : context [match ?x with _ => _ end] |- _ => destruct x eqn:?
    | H : Continue _ _ _ = Continue _ _ _ |- _ => injection H as ? ? ?; subst
    | H : Ok _ = Ok _ |- _ => injection H as ?; subst
    end;
  try discriminate.

(** Every turn moves the index forward, given that nested calls end at or
    after the index they start from. *)
Lemma blockStep_advance
  (lines : list Line) (call : nat -> nat -> outcome (nat * Value))
  (index ci : nat) (obj : JsObject) (arr : option (list Value))
  (index' : nat) (obj' : JsObject) (arr' : option (list Value)) :
  (forall i c i' v, call i c = Ok (i', v) -> i <= i') ->
  blockStep lines call index ci obj arr = Continue index' obj' arr' ->
  index < index'.
Proof.
  intros Hrec H. unfold blockStep in H. step_cases; try lia;
    match goal with
    | E : call _ _ = Ok _ |- _ => apply Hrec in E; lia
    end.
Qed.

Lemma blockResult_index (index : nat) (obj : JsObject)
  (arr : option (list Value)) (i : nat) (v : Value) :
  blockResult index obj arr = Ok (i, v) -> i = index.
Proof.
  unfold blockResult. destruct arr; [destruct (ownKeys obj)|];
    intro H; now inversion H.
Qed.

Lemma parseLoop_index (lines : list Line) (fuel : nat) :
  forall index ci obj arr i v,
    parseLoop lines fuel index ci obj arr = Ok (i, v) -> index <= i.
Proof.
  induction fuel as [|fuel IH]; intros index ci obj arr i v H; [discriminate|].
  simpl in H.
  destruct (blockStep lines _ index ci obj arr) as [i1 o1 a1| | |] eqn:Hstep;
    try discriminate.
  - apply blockStep_advance in Hstep.
    + apply IH in H. lia.
    + intros j c j' w Hn. now apply IH in Hn.
  - apply blockResult_index in H. lia.
Qed.

Lemma blockStep_exit_length
  (lines : list Line) (call : nat -> nat -> outcome (nat * Value))
  (index ci : nat) (obj : JsObject) (arr : option (list Value)) :
  blockStep lines call index ci obj arr <> Exit ->
  index < List.length lines.
Proof.
  intro H. apply nth_error_Some. intro E. apply H.
  unfold blockStep. now rewrite E.
Qed.

Lemma blockStep_fuel
  (lines : list Line) (call : nat -> nat -> outcome (nat * Value))
  (index ci : nat) (obj : JsObject) (arr : option (list Value)) :
  (forall c, call (index + 1) c <> Starved) ->
  blockStep lines call index ci obj arr <> NoFuel.
Proof.
  intros Hrec H. unfold blockStep in H. step_cases;
    match goal with
    | E : call _ _ = Starved |- _ => now apply Hrec in E
    end.
Qed.

(** With more fuel than lines left, the loop ends with a value or an error. *)
Lemma parseLoop_total (lines : list Line) (fuel : nat) :
  forall index ci obj arr,
    List.length lines - index < fuel ->
    parseLoop lines fuel index ci obj arr <> Starved.
Proof.
  induction fuel as [|fuel IH]; intros index ci obj arr Hfuel.
  - exfalso. lia.
  - simpl.
    destruct (blockStep lines _ index ci obj arr) as [i1 o1 a1| | |] eqn:Hstep.
    + assert (Hlen : index < List.length lines).
      { eapply blockStep_exit_length. rewrite Hstep. discriminate. }
      apply IH. apply blockStep_advance in Hstep; [lia|].
      intros j c j' w Hn. now apply parseLoop_index in Hn.
    + unfold blockResult. destruct arr; [destruct (ownKeys obj)|]; discriminate.
    + discriminate.
    + exfalso.
      assert (Hlen : index < List.length lines).
      { eapply blockStep_exit_length. rewrite Hstep. discriminate. }
      revert Hstep. apply blockStep_fuel.
      intro c. apply IH. lia.
Qed.

(** [loadsArion] gives fuel enough. *)
Theorem loadsArion_total (text : string) : loadsArion text <> Starved.
Proof.
  unfold loadsArion. destruct (tokenizeLines text) as [|[firstIndent s] rest] eqn:E;
    [discriminate|].
  unfold parseBlock.
  destruct (parseLoop _ _ 0 firstIndent emptyObject None) as [[i v]| |] eqn:H;
    try discriminate.
  exfalso. revert H. apply parseLoop_total. lia.
Qed.

(** ** Blocks that read key lines and item lines *)

Lemma parseLoop_S (lines : list Line) (fuel index ci : nat)
  (obj : JsObject) (arr : option (list Value)) :
  parseLoop lines (S fuel) index ci obj arr
  = match blockStep lines (nested lines fuel) index ci obj arr with
    | Continue index' obj' arr' => parseLoop lines fuel index' ci obj' arr'
    | Exit => blockResult index obj arr
    | Fail e => Throw e
    | NoFuel => Starved
    end.
Proof. reflexivity. Qed.

Lemma turns_parseLoop (lines : list Line) (ci : nat)
  f i o a f' i' o' a' :
  turns lines ci f i o a f' i' o' a' ->
  parseLoop lines f i ci o a = parseLoop lines f' i' ci o' a'.
Proof.
  induction 1 as [|? ? ? ? ? ? ? ? ? ? ? Hstep _ IH]; [reflexivity|].
  now rewrite parseLoop_S, Hstep.
Qed.

(** The turns of a loop follow one another: of two states that the loop
    reaches, one leads to the other. *)
Lemma turns_linear (lines : list Line) (ci : nat)
  f i o a f1 i1 o1 a1 f2 i2 o2 a2 :
  turns lines ci f i o a f1 i1 o1 a1 ->
  turns lines ci f i o a f2 i2 o2 a2 ->
  turns lines ci f1 i1 o1 a1 f2 i2 o2 a2
  \/ turns lines ci f2 i2 o2 a2 f1 i1 o1 a1.
Proof.
  intro T1. revert f2 i2 o2 a2.
  induction T1 as [|? ? ? ? ? ? ? ? ? ? ? Hstep T1 IH]; intros f2 i2 o2 a2 T2.
  - now left.
  - inversion T2 as [|? ? ? ? ? ? ? ? ? ? ? Hstep' T2']; subst.
    + right. eapply turns_next; eassumption.
    + rewrite Hstep in Hstep'. injection Hstep' as <- <- <-.
      now apply IH.
Qed.

Lemma replaceOwn_keys (key : string) (v : Value) (props : list (string * Value)) :
  map fst (replaceOwn key v props) = map fst props.
Proof.
  induction props as [|[k w] rest IH]; simpl; [reflexivity|].
  destruct (String.eqb k key); simpl; [reflexivity | now rewrite IH].
Qed.

Lemma insertIndex_not_nil n key v props : insertIndex n key v props <> [].
Proof.
  destruct props as [|[k w] rest]; simpl; [discriminate|].
  destruct (arrayIndex k) as [m|]; [destruct (n <? m)%N|]; discriminate.
Qed.

Lemma defineOwn_not_nil key v props : defineOwn key v props <> [].
Proof.
  unfold defineOwn. destruct (arrayIndex key).
  - apply insertIndex_not_nil.
  - destruct props; discriminate.
Qed.

Lemma map_fst_not_nil (props : list (string * Value)) :
  props <> [] -> map fst props <> [].
Proof. destruct props; [congruence | discriminate]. Qed.

(** An assignment never empties the list of own keys. *)
Lemma objSet_keeps (key : string) (v : Value) (obj : JsObject) :
  ownKeys obj <> [] -> ownKeys (objSet key v obj) <> [].
Proof.
  destruct obj as [d props]. unfold ownKeys, objSet. simpl. intro H.
  destruct (hasOwn key props).
  - simpl. now rewrite replaceOwn_keys.
  - destruct (String.eqb key "__proto__" && negb d).
    + destruct v; exact H.
    + simpl. apply map_fst_not_nil, defineOwn_not_nil.
Qed.

(** An assignment to a name other than [__proto__] leaves an own key. *)
Lemma objSet_defines (key : string) (v : Value) (obj : JsObject) :
  key <> "__proto__" -> ownKeys (objSet key v obj) <> [].
Proof.
  destruct obj as [d props]. unfold ownKeys, objSet. simpl. intro H.
  destruct (hasOwn key props) eqn:Hown.
  - simpl. rewrite replaceOwn_keys. destruct props; [discriminate Hown | discriminate].
  - apply String.eqb_neq in H. rewrite H. simpl.
    apply map_fst_not_nil, defineOwn_not_nil.
Qed.

Lemma blockStep_keeps
  (lines : list Line) (call : nat -> nat -> outcome (nat * Value))
  (index ci : nat) (obj : JsObject) (arr : option (list Value))
  (index' : nat) (obj' : JsObject) (arr' : option (list Value)) :
  blockStep lines call index ci obj arr = Continue index' obj' arr' ->
  (ownKeys obj <> [] -> ownKeys obj' <> []) /\ (arr <> None -> arr' <> None).
Proof.
  intro H. unfold blockStep in H. step_cases;
    (split; [intro; try assumption; now apply objSet_keeps
            | intro; try assumption; discriminate]).
Qed.

Lemma turns_keeps (lines : list Line) (ci : nat)
  f i o a f' i' o' a' :
  turns lines ci f i o a f' i' o' a' ->
  (ownKeys o <> [] -> ownKeys o' <> []) /\ (a <> None -> a' <> None).
Proof.
  induction 1 as [|? ? ? ? ? ? ? ? ? ? ? Hstep _ IH]; [now split|].
  apply blockStep_keeps in Hstep. tauto.
Qed.

(** What a turn on a key line does to [obj]. *)
Lemma blockStep_key_line
  (lines : list Line) (call : nat -> nat -> outcome (nat * Value))
  (index ci : nat) (obj : JsObject) (arr : option (list Value))
  (indent : nat) (stripped : string)
  (index' : nat) (obj' : JsObject) (arr' : option (list Value)) :
  nth_error lines index = Some (indent, stripped) ->
  startsWith "." stripped = true ->
  blockStep lines call index ci obj arr = Continue index' obj' arr' ->
  (exists v, obj' = objSet (lineKey stripped) v obj) /\ arr' = arr.
Proof.
  intros Hline Hdot H. unfold blockStep in H. rewrite Hline, Hdot in H.
  unfold lineKey. step_cases; split; try reflexivity; eexists; reflexivity.
Qed.

(** What a turn on an item line does to [arr]. *)
Lemma blockStep_item_line
  (lines : list Line) (call : nat -> nat -> outcome (nat * Value))
  (index ci : nat) (obj : JsObject) (arr : option (list Value))
  (indent : nat) (stripped : string)
  (index' : nat) (obj' : JsObject) (arr' : option (list Value)) :
  nth_error lines index = Some (indent, stripped) ->
  startsWith "-" stripped = true ->
  blockStep lines call index ci obj arr = Continue index' obj' arr' ->
  (exists v, arr' = Some (arrItems arr ++ [v])) /\ obj' = obj.
Proof.
  intros Hline Hdash H. unfold blockStep in H.
  assert (Hdot : startsWith "." stripped = false).
  { rewrite (startsWith_char _ _ Hdash). apply startsWith_cons. }
  rewrite Hline, Hdot, Hdash in H.
  step_cases; split; try reflexivity; eexists; reflexivity.
Qed.

Lemma blockStep_no_exit
  (lines : list Line) (call : nat -> nat -> outcome (nat * Value))
  (index ci : nat) (obj : JsObject) (arr : option (list Value))
  (indent : nat) (stripped : string) :
  nth_error lines index = Some (indent, stripped) ->
  ci <= indent ->
  blockStep lines call index ci obj arr <> Exit.
Proof.
  intros Hline Hci H. unfold blockStep in H. rewrite Hline in H.
  assert (Hlt : (indent <? ci)%nat = false) by (apply Nat.ltb_ge; lia).
  rewrite Hlt in H. step_cases.
Qed.

(** Once [arr] is set and [obj] has an own key, the loop can end only in
    an error. *)
Lemma mixed_never_ok (lines : list Line) (fuel : nat) :
  forall index ci obj arr r,
    ownKeys obj <> [] -> arr <> None ->
    parseLoop lines fuel index ci obj arr <> Ok r.
Proof.
  induction fuel as [|fuel IH]; intros index ci obj arr r Ho Ha; [discriminate|].
  rewrite parseLoop_S.
  destruct (blockStep lines _ index ci obj arr) as [i1 o1 a1| | |] eqn:Hstep;
    try discriminate.
  - apply blockStep_keeps in Hstep as [K1 K2]. apply IH; auto.
  - unfold blockResult. destruct arr as [a|]; [|congruence].
    destruct (ownKeys obj); [congruence | discriminate].
Qed.

Lemma key_then_item_never_ok (lines : list Line) (ci : nat)
  f1 i o1 a1 f2 j o2 a2 n1 s1 n2 s2 r :
  turns lines ci f1 i o1 a1 f2 j o2 a2 ->
  nth_error lines i = Some (n1, s1) -> startsWith "." s1 = true ->
  lineKey s1 <> "__proto__" ->
  nth_error lines j = Some (n2, s2) -> startsWith "-" s2 = true ->
  ci <= n2 ->
  parseLoop lines f2 j ci o2 a2 <> Ok r.
Proof.
  intros T Li Di Hk Lj Dj Hci.
  assert (Ho : ownKeys o2 <> []).
  { inversion T as [|? ? ? ? ? ? ? ? ? ? ? Hstep T']; subst.
    - exfalso. rewrite Li in Lj. injection Lj as _ <-.
      rewrite (startsWith_char _ _ Dj) in Di.
      rewrite startsWith_cons in Di. discriminate.
    - destruct (blockStep_key_line _ _ _ _ _ _ _ _ _ _ _ Li Di Hstep) as [[v ->] _].
      apply (turns_keeps _ _ _ _ _ _ _ _ _ _ T'). now apply objSet_defines. }
  destruct f2 as [|f2]; [discriminate|]. rewrite parseLoop_S.
  destruct (blockStep lines _ j ci o2 a2) as [i1 o1' a1'| | |] eqn:Hstep;
    try discriminate.
  - destruct (blockStep_item_line _ _ _ _ _ _ _ _ _ _ _ Lj Dj Hstep) as [[v ->] ->].
    apply mixed_never_ok; [exact Ho | discriminate].
  - exfalso. revert Hstep. eapply blockStep_no_exit; eassumption.
Qed.

Lemma item_then_key_never_ok (lines : list Line) (ci : nat)
  f1 j o1 a1 f2 i o2 a2 n1 s1 n2 s2 r :
  turns lines ci f1 j o1 a1 f2 i o2 a2 ->
  nth_error lines i = Some (n1, s1) -> startsWith "." s1 = true ->
  lineKey s1 <> "__proto__" ->
  nth_error lines j = Some (n2, s2) -> startsWith "-" s2 = true ->
  ci <= n1 ->
  parseLoop lines f2 i ci o2 a2 <> Ok r.
Proof.
  intros T Li Di Hk Lj Dj Hci.
  assert (Ha : a2 <> None).
  { inversion T as [|? ? ? ? ? ? ? ? ? ? ? Hstep T']; subst.
    - exfalso. rewrite Li in Lj. injection Lj as _ <-.
      rewrite (startsWith_char _ _ Dj) in Di.
      rewrite startsWith_cons in Di. discriminate.
    - destruct (blockStep_item_line _ _ _ _ _ _ _ _ _ _ _ Lj Dj Hstep) as [[v ->] _].
      apply (turns_keeps _ _ _ _ _ _ _ _ _ _ T'). discriminate. }
  destruct f2 as [|f2]; [discriminate|]. rewrite parseLoop_S.
  destruct (blockStep lines _ i ci o2 a2) as [i1 o1' a1'| | |] eqn:Hstep;
    try discriminate.
  - destruct (blockStep_key_line _ _ _ _ _ _ _ _ _ _ _ Li Di Hstep) as [[v ->] ->].
    apply mixed_never_ok; [now apply objSet_defines | exact Ha].
  - exfalso. revert Hstep. eapply blockStep_no_exit; eassumption.
Qed.

(** ** The order of the keys *)

Lemma encodeBlock_Object (d : bool) (props : list (string * Value)) (indent : nat) :
  encodeBlock (Object d props) indent = flat_map (encodeEntry indent) props.
Proof. reflexivity. Qed.

Lemma encodeBlock_Array (items : list Value) (indent : nat) :
  encodeBlock (Array items) indent = flat_map (encodeItem indent) items.
Proof. reflexivity. Qed.

Lemma encodeEntry_marker (indent : nat) (k : string) (val : Value) :
  markerChunk indent k (encodeEntry indent (k, val)).
Proof.
  unfold markerChunk, encodeEntry.
  assert (Hbare : forall more,
    exists rest more',
      (spaces indent ++ "." ++ k)%string :: more
      = (spaces indent ++ "." ++ k ++ rest)%string :: more'
      /\ (rest = "" \/ startsWith " " rest = true)).
  { intro more. exists "", more. rewrite append_empty_r. auto. }
  assert (Hinline : forall text,
    exists rest more',
      [(spaces indent ++ "." ++ k ++ " " ++ text)%string]
      = (spaces indent ++ "." ++ k ++ rest)%string :: more'
      /\ (rest = "" \/ startsWith " " rest = true)).
  { intro text. exists (" " ++ text)%string, []. split; [reflexivity|].
    right. exact (startsWith_cons " " " " text). }
  destruct val; try apply Hinline; try apply Hbare.
  destruct (includes LF s); [apply Hbare | apply Hinline].
Qed.

Lemma hasOwn_In (key : string) (props : list (string * Value)) :
  hasOwn key props = true <-> In key (map fst props).
Proof.
  induction props as [|[k w] rest IH]; simpl; [split; [discriminate | tauto]|].
  rewrite orb_true_iff, String.eqb_eq, IH. tauto.
Qed.

Lemma existsb_eqb_In (key : string) (keys : list string) :
  existsb (String.eqb key) keys = true <-> In key keys.
Proof.
  rewrite existsb_exists. split.
  - intros [x [Hin Heq]]. apply String.eqb_eq in Heq. now subst.
  - intro Hin. exists key. split; [exact Hin | apply String.eqb_refl].
Qed.

Lemma insertIndex_plain n key v props :
  plainKey key = false ->
  filter plainKey (map fst (insertIndex n key v props))
  = filter plainKey (map fst props).
Proof.
  intro Hk. induction props as [|[k w] rest IH]; simpl.
  - now rewrite Hk.
  - destruct (arrayIndex k) as [m|]; [destruct (n <? m)%N|]; simpl;
      rewrite ?Hk, ?IH; reflexivity.
Qed.

(** The effect of an assignment on the plain keys: a new one goes last, all
    others stay where they are. *)
Lemma objSet_plain (key : string) (v : Value) (obj : JsObject) :
  filter plainKey (ownKeys (objSet key v obj))
  = seeKey (filter plainKey (ownKeys obj)) key.
Proof.
  destruct obj as [d props]. unfold ownKeys, objSet, seeKey. simpl.
  destruct (hasOwn key props) eqn:Hown.
  - simpl. rewrite replaceOwn_keys.
    destruct (plainKey key) eqn:Hk; [|reflexivity].
    assert (Hin : In key (filter plainKey (map fst props))).
    { apply filter_In. split; [now apply hasOwn_In | exact Hk]. }
    apply existsb_eqb_In in Hin. now rewrite Hin.
  - destruct (String.eqb key "__proto__") eqn:Hp.
    + assert (Hk : plainKey key = false) by (unfold plainKey; now rewrite Hp).
      rewrite Hk. destruct d; simpl.
      * unfold defineOwn. destruct (arrayIndex key) as [n|].
        -- now apply insertIndex_plain.
        -- rewrite map_app, filter_app. simpl. rewrite Hk. apply app_nil_r.
      * destruct v; reflexivity.
    + simpl.
      assert (Hk : plainKey key
                   = match arrayIndex key with Some _ => false | None => true end)
        by (unfold plainKey; now rewrite Hp).
      unfold defineOwn. destruct (arrayIndex key) as [n|] eqn:Hidx; rewrite Hk.
      * now apply insertIndex_plain.
      * rewrite map_app, filter_app. simpl. rewrite Hk.
        destruct (existsb (String.eqb key) (filter plainKey (map fst props))) eqn:Hex;
          [|reflexivity].
        exfalso. apply existsb_eqb_In, filter_In in Hex as [Hin _].
        apply hasOwn_In in Hin. congruence.
Qed.

Lemma declaredKeys_S (lines : list Line) (fuel index ci : nat)
  (obj : JsObject) (arr : option (list Value)) :
  declaredKeys lines (S fuel) index ci obj arr
  = match blockStep lines (nested lines fuel) index ci obj arr with
    | Continue index' obj' arr' =>
        match nth_error lines index with
        | Some (_, stripped) =>
            if startsWith "." stripped
            then (index, lineKey stripped)
                 :: declaredKeys lines fuel index' ci obj' arr'
            else declaredKeys lines fuel index' ci obj' arr'
        | None => declaredKeys lines fuel index' ci obj' arr'
        end
    | _ => []
    end.
Proof. reflexivity. Qed.

Lemma blockStep_other_line
  (lines : list Line) (call : nat -> nat -> outcome (nat * Value))
  (index ci : nat) (obj : JsObject) (arr : option (list Value))
  (indent : nat) (stripped : string)
  (index' : nat) (obj' : JsObject) (arr' : option (list Value)) :
  nth_error lines index = Some (indent, stripped) ->
  startsWith "." stripped = false ->
  blockStep lines call index ci obj arr = Continue index' obj' arr' ->
  obj' = obj.
Proof.
  intros Hline Hdot H. unfold blockStep in H. rewrite Hline, Hdot in H.
  step_cases; reflexivity.
Qed.

(** The plain keys of the object a block returns are the keys of the key
    lines it read, each where it was met first. *)
Lemma parseLoop_plain_keys (lines : list Line) (fuel : nat) :
  forall index ci obj arr index' d props,
    parseLoop lines fuel index ci obj arr = Ok (index', Object d props) ->
    filter plainKey (map fst props)
    = firstSeen (filter plainKey (ownKeys obj))
        (map snd (declaredKeys lines fuel index ci obj arr)).
Proof.
  induction fuel as [|fuel IH]; intros index ci obj arr index' d props H;
    [discriminate|].
  rewrite parseLoop_S in H. rewrite declaredKeys_S.
  destruct (blockStep lines _ index ci obj arr) as [i1 o1 a1| | |] eqn:Hstep;
    try discriminate.
  - apply IH in H. rewrite H.
    destruct (nth_error lines index) as [[n s]|] eqn:Hline.
    + destruct (startsWith "." s) eqn:Hdot.
      * destruct (blockStep_key_line _ _ _ _ _ _ _ _ _ _ _ Hline Hdot Hstep)
          as [[v ->] _].
        simpl. now rewrite objSet_plain.
      * now rewrite (blockStep_other_line _ _ _ _ _ _ _ _ _ _ _ Hline Hdot Hstep).
    + unfold blockStep in Hstep. rewrite Hline in Hstep. discriminate.
  - unfold blockResult in H. destruct arr; [destruct (ownKeys obj); discriminate|].
    injection H as _ <- <-. reflexivity.
Qed.

Lemma declaredKeys_lines (lines : list Line) (fuel : nat) :
  forall index ci obj arr,
    Forall (fun e =>
              index <= fst e
              /\ exists n s, nth_error lines (fst e) = Some (n, s)
                             /\ startsWith "." s = true
                             /\ lineKey s = snd e)
           (declaredKeys lines fuel index ci obj arr).
Proof.
  induction fuel as [|fuel IH]; intros index ci obj arr; [constructor|].
  rewrite declaredKeys_S.
  destruct (blockStep lines _ index ci obj arr) as [i1 o1 a1| | |] eqn:Hstep;
    try constructor.
  assert (Hadv : index < i1).
  { eapply blockStep_advance; [|exact Hstep].
    intros j c j' w Hn. now apply parseLoop_index in Hn. }
  assert (Hrest : Forall (fun e =>
              index <= fst e
              /\ exists n s, nth_error lines (fst e) = Some (n, s)
                             /\ startsWith "." s = true
                             /\ lineKey s = snd e)
           (declaredKeys lines fuel i1 ci o1 a1)).
  { eapply Forall_impl; [|apply IH]. simpl. intros e [Hle Hex]. split; [lia | exact Hex]. }
  destruct (nth_error lines index) as [[n s]|] eqn:Hline; [|exact Hrest].
  destruct (startsWith "." s) eqn:Hdot; [|exact Hrest].
  constructor; [|exact Hrest]. simpl. split; [lia|]. now exists n, s.
Qed.

Lemma declaredKeys_sorted (lines : list Line) (fuel : nat) :
  forall index ci obj arr,
    StronglySorted lt (map fst (declaredKeys lines fuel index ci obj arr)).
Proof.
  induction fuel as [|fuel IH]; intros index ci obj arr; [constructor|].
  rewrite declaredKeys_S.
  destruct (blockStep lines _ index ci obj arr) as [i1 o1 a1| | |] eqn:Hstep;
    try constructor.
  assert (Hadv : index < i1).
  { eapply blockStep_advance; [|exact Hstep].
    intros j c j' w Hn. now apply parseLoop_index in Hn. }
  destruct (nth_error lines index) as [[n s]|] eqn:Hline; [|apply IH].
  destruct (startsWith "." s) eqn:Hdot; [|apply IH].
  simpl. constructor; [apply IH|].
  apply Forall_map. eapply Forall_impl; [|apply (declaredKeys_lines lines fuel i1)].
  simpl. intros e [Hle _]. lia.
Qed.

(** ** Round trip: texts and scalars *)

Lemma allChars_impl (p q : ascii -> bool) (s : string) :
  (forall c, p c = true -> q c = true) ->
  allChars p s = true -> allChars q s = true.
Proof.
  intro Hpq. induction s as [|c s IH]; simpl; [reflexivity|].
  intro H. apply andb_true_iff in H as [H1 H2].
  now rewrite (Hpq _ H1), (IH H2).
Qed.

Lemma allChars_dropWhile (p q : ascii -> bool) (s : string) :
  (forall c, p c = true -> q c = false) ->
  allChars p s = true -> dropWhile q s = s.
Proof.
  intros Hpq H. destruct s as [|c s]; simpl in *; [reflexivity|].
  apply andb_true_iff in H as [H1 _]. now rewrite (Hpq _ H1).
Qed.

Lemma allChars_dropWhileEnd (p q : ascii -> bool) (s : string) :
  (forall c, p c = true -> q c = false) ->
  allChars p s = true -> dropWhileEnd q s = s.
Proof.
  intros Hpq. induction s as [|c s IH]; simpl; [reflexivity|].
  intro H. apply andb_true_iff in H as [H1 H2].
  now rewrite (IH H2), (Hpq _ H1), andb_false_r.
Qed.

Lemma allChars_includes (p : ascii -> bool) (d : ascii) (s : string) :
  p d = false -> allChars p s = true -> includes d s = false.
Proof.
  intro Hd. induction s as [|c s IH]; simpl; [reflexivity|].
  intro H. apply andb_true_iff in H as [H1 H2]. rewrite (IH H2), orb_false_r.
  apply Ascii.eqb_neq. intros ->. congruence.
Qed.

Lemma numChar_not_white (c : ascii) : numChar c = true -> isWhite c = false.
Proof.
  destruct c as [[] [] [] [] [] [] [] []]; vm_compute; intro H;
    first [reflexivity | discriminate H].
Qed.

Lemma numChar_not_quote (c : ascii) : numChar c = true -> Ascii.eqb c "'" = false.
Proof.
  destruct c as [[] [] [] [] [] [] [] []]; vm_compute; intro H;
    first [reflexivity | discriminate H].
Qed.

Lemma isDigit_numChar (c : ascii) : isDigit c = true -> numChar c = true.
Proof. unfold numChar. now intros ->. Qed.

Lemma isDigit19_numChar (c : ascii) : isDigit19 c = true -> numChar c = true.
Proof.
  intro H. apply isDigit_numChar. unfold isDigit19, isDigit in *.
  apply andb_true_iff in H as [H1 H2]. apply Nat.leb_le in H1.
  apply andb_true_iff. split; [apply Nat.leb_le; lia | exact H2].
Qed.

Lemma dropWhile_digits_chars (r : string) :
  allChars numChar (dropWhile isDigit r) = true -> allChars numChar r = true.
Proof.
  induction r as [|c r IH]; simpl; [reflexivity|].
  destruct (isDigit c) eqn:D; [|exact (fun H => H)].
  intro H. now rewrite (isDigit_numChar _ D), (IH H).
Qed.

Lemma numDigits1_chars (s r : string) :
  numDigits1 s = Some r -> allChars numChar r = true ->
  allChars numChar s = true.
Proof.
  destruct s as [|c s]; simpl; [discriminate|].
  destruct (isDigit c) eqn:D; [|discriminate].
  intros [= <-] H. now rewrite (isDigit_numChar _ D), (dropWhile_digits_chars _ H).
Qed.

Lemma numExp_chars (s r : string) :
  numExp s = Some r -> allChars numChar r = true -> allChars numChar s = true.
Proof.
  destruct s as [|c s]; simpl; [now intros [= <-]|].
  destruct (Ascii.eqb c "e" || Ascii.eqb c "E") eqn:E.
  - intros Hd Hr. apply (numDigits1_chars _ _ Hd) in Hr.
    assert (Hc : numChar c = true).
    { unfold numChar. apply orb_true_iff in E as [-> | ->];
        now rewrite ?orb_true_r. }
    rewrite Hc. simpl.
    destruct s as [|d s]; simpl in *; [exact Hr|].
    destruct (Ascii.eqb d "+" || Ascii.eqb d "-") eqn:Sg; [|exact Hr].
    rewrite Hr, andb_true_r. unfold numChar.
    apply orb_true_iff in Sg as [-> | ->]; now rewrite ?orb_true_r.
  - now intros [= <-].
Qed.

Lemma numFrac_chars (s r : string) :
  numFrac s = Some r -> allChars numChar r = true -> allChars numChar s = true.
Proof.
  destruct s as [|c s]; simpl; [now intros [= <-]|].
  destruct (Ascii.eqb c ".") eqn:E.
  - intros Hd Hr. apply (numDigits1_chars _ _ Hd) in Hr. rewrite Hr, andb_true_r.
    unfold numChar. now rewrite E, ?orb_true_r.
  - now intros [= <-].
Qed.

Lemma numInt_chars (s r : string) :
  numInt s = Some r -> allChars numChar r = true ->
  allChars numChar s = true /\ s <> "".
Proof.
  destruct s as [|c s]; simpl; [discriminate|].
  destruct (Ascii.eqb c "0") eqn:Z.
  - intros [= <-] H. rewrite H, andb_true_r. split; [|discriminate].
    apply Ascii.eqb_eq in Z. now subst.
  - destruct (isDigit19 c) eqn:D; [|discriminate].
    intros [= <-] H. split; [|discriminate].
    now rewrite (isDigit19_numChar _ D), (dropWhile_digits_chars _ H).
Qed.

(** A number literal is made of digits, signs, a dot and an exponent mark,
    and is not empty. *)
Lemma numericLiteral_chars (s : string) :
  numericLiteral s = true -> allChars numChar s = true /\ s <> "".
Proof.
  unfold numericLiteral.
  destruct (numInt (numSign s)) as [s1|] eqn:E1; [|discriminate].
  destruct (numFrac s1) as [s2|] eqn:E2; [|discriminate].
  destruct (numExp s2) as [s3|] eqn:E3; [|discriminate].
  intro H. apply isEmpty_true in H. subst s3.
  pose proof (numExp_chars _ _ E3 eq_refl) as H2.
  pose proof (numFrac_chars _ _ E2 H2) as H1.
  destruct (numInt_chars _ _ E1 H1) as [H0 Hne].
  destruct s as [|c s]; simpl in *; [congruence|].
  split; [|discriminate].
  destruct (Ascii.eqb c "-") eqn:M; [|exact H0].
  rewrite H0, andb_true_r. unfold numChar. now rewrite M, ?orb_true_r.
Qed.

Lemma numChars_trim (s : string) : allChars numChar s = true -> trim s = s.
Proof.
  intro H. unfold trim.
  rewrite (allChars_dropWhileEnd numChar isWhite s numChar_not_white H).
  exact (allChars_dropWhile numChar isWhite s numChar_not_white H).
Qed.

Lemma numChars_no_quote (s : string) :
  allChars numChar s = true -> startsWith "'" s = false.
Proof.
  destruct s as [|c s]; [reflexivity|]. intro H. simpl in H.
  apply andb_true_iff in H as [H _]. rewrite startsWith_cons, Ascii.eqb_sym.
  now apply numChar_not_quote.
Qed.

Lemma trim_quote (s : string) :
  trim s = s -> trim (String "'" s) = String "'" s.
Proof.
  intro H. apply trim_fixed in H as [H _]. unfold trim. simpl.
  rewrite H, andb_false_r. reflexivity.
Qed.

Lemma trim_space (s : string) : trim (String SP s) = trim s.
Proof.
  unfold trim. simpl. destruct (isEmpty (dropWhileEnd isWhite s)) eqn:E.
  - simpl. apply isEmpty_true in E. now rewrite E.
  - reflexivity.
Qed.

Lemma trim_spaces (n : nat) (s : string) : trim (spaces n ++ s) = trim s.
Proof.
  induction n as [|n IH]; simpl; [reflexivity|]. now rewrite trim_space.
Qed.

Lemma plainText_facts (s : string) :
  plainText s = true ->
  includes LF s = false /\ trim s = s /\ startsWith "'" s = false.
Proof.
  unfold plainText. intro H.
  apply andb_true_iff in H as [H H3]. apply andb_true_iff in H as [H1 H2].
  apply negb_true_iff in H1, H3. apply String.eqb_eq in H2. auto.
Qed.

(** The text of an inline scalar is trimmed and has no line feed. *)
Lemma encodeScalar_text (v : Value) :
  scalarOk v ->
  trim (encodeScalar v) = encodeScalar v
  /\ includes LF (encodeScalar v) = false.
Proof.
  destruct v as [|b|n|s|d props|items]; simpl; [| | | |intros []|intros []].
  - intros _. now split.
  - intros _. destruct b; now split.
  - intros [Hlit _]. apply numericLiteral_chars in Hlit as [Hc _]. split.
    + now apply numChars_trim.
    + apply (allChars_includes numChar LF); [reflexivity | exact Hc].
  - intro H. apply plainText_facts in H as (H1 & H2 & H3).
    destruct (String.eqb s "true" || String.eqb s "false" || String.eqb s "null"
              || isNumberLike s).
    + split; [now apply trim_quote|]. simpl. exact H1.
    + now split.
Qed.

(** The scalar resolver undoes the scalar formatter. *)
Lemma parseScalar_encodeScalar (v : Value) :
  scalarOk v -> parseScalar (encodeScalar v) = v.
Proof.
  destruct v as [|b|n|s|d props|items]; simpl; [| | | |intros []|intros []].
  - reflexivity.
  - destruct b; reflexivity.
  - intros [Hlit Hval]. pose proof Hlit as Hlit'.
    apply numericLiteral_chars in Hlit as [Hc Hne].
    unfold parseScalar, isNumberLike.
    pose proof (numChars_trim _ Hc) as Htrim. rewrite Htrim.
    rewrite (jsonBody_trimmed _ Htrim), (numChars_no_quote _ Hc), Hlit', Hval.
    destruct (numToString n) as [|c r] eqn:E; [congruence|].
    simpl in Hc. apply andb_true_iff in Hc as [Hc _].
    revert Hc. clear.
    destruct c as [[] [] [] [] [] [] [] []]; vm_compute; intro H;
      first [reflexivity | discriminate H].
  - intro H. apply plainText_facts in H as (H1 & H2 & H3).
    destruct (String.eqb s "true" || String.eqb s "false" || String.eqb s "null"
              || isNumberLike s) eqn:Q.
    + unfold parseScalar. rewrite (trim_quote _ H2), startsWith_cons. reflexivity.
    + apply orb_false_iff in Q as [Q Q4]. apply orb_false_iff in Q as [Q Q3].
      apply orb_false_iff in Q as [Q1 Q2].
      unfold parseScalar. rewrite H2, H3, Q1, Q2, Q3, Q4.
      destruct s; reflexivity.
Qed.

(** ** Round trip: lines *)

Lemma includes_append (c : ascii) (a b : string) :
  includes c (a ++ b) = includes c a || includes c b.
Proof.
  induction a as [|x a IH]; simpl; [reflexivity|]. now rewrite IH, orb_assoc.
Qed.

Lemma includes_spaces (n : nat) : includes LF (spaces n) = false.
Proof. induction n as [|n IH]; simpl; [reflexivity | exact IH]. Qed.

Lemma length_spaces (n : nat) : String.length (spaces n) = n.
Proof. induction n as [|n IH]; simpl; [reflexivity | now rewrite IH]. Qed.

Lemma startsWith_step (c d : ascii) (p s : string) :
  startsWith (String c p) (String d s) = Ascii.eqb c d && startsWith p s.
Proof. reflexivity. Qed.

Lemma dropWhileEnd_cons (p : ascii -> bool) (c : ascii) (s : string) :
  p c = false -> dropWhileEnd p (String c s) = String c (dropWhileEnd p s).
Proof. intro H. simpl. now rewrite H, andb_false_r. Qed.

Lemma dropWhileEnd_append (p : ascii -> bool) (a b : string) :
  dropWhileEnd p b = b -> isEmpty b = false ->
  dropWhileEnd p (a ++ b) = (a ++ b)%string.
Proof.
  intros Hb Hne. induction a as [|x a IH]; simpl; [exact Hb|].
  rewrite IH. destruct (a ++ b)%string eqn:E; [|reflexivity].
  destruct a; simpl in E; [subst b|]; discriminate.
Qed.

Lemma stripLeadingSpaces_spaces (n : nat) (body : string) :
  startsWith " " body = false ->
  stripLeadingSpaces (spaces n ++ body) = body.
Proof.
  intro H. induction n as [|n IH]; simpl.
  - destruct body as [|c r]; [reflexivity|].
    rewrite startsWith_cons in H. unfold stripLeadingSpaces. simpl.
    unfold SP. now rewrite Ascii.eqb_sym, H.
  - exact IH.
Qed.

(** A line made of [n] spaces and a body that the tokenizer keeps. *)
Lemma line_of_body (n : nat) (body : string) :
  includes LF body = false ->
  dropWhileEnd isCR body = body ->
  isEmpty (trim body) = false ->
  startsWith " " body = false ->
  startsWith "!ARION" body = false ->
  startsWith "#" body = false ->
  lineOk (spaces n ++ body) = true /\ tokenOf (spaces n ++ body) = (n, body).
Proof.
  intros Hlf Hcr Hne Hsp Hhd Hcm.
  assert (Hbody : isEmpty body = false).
  { destruct body; [discriminate Hne | reflexivity]. }
  split.
  - unfold lineOk, cleanLine, noTrailingCR, nonStructural,
      blankLine, headerLine, commentLine.
    rewrite includes_append, includes_spaces, Hlf.
    rewrite (dropWhileEnd_append isCR _ _ Hcr Hbody), String.eqb_refl.
    rewrite trim_spaces, Hne, (stripLeadingSpaces_spaces _ _ Hsp), Hhd, Hcm.
    reflexivity.
  - unfold tokenOf. rewrite (stripLeadingSpaces_spaces _ _ Hsp).
    rewrite length_append, length_spaces. f_equal. lia.
Qed.

(** The body of a marker line: a dot or a dash and what follows. *)
Lemma line_of_marker (n : nat) (c : ascii) (r : string) :
  c = "."%char \/ c = "-"%char ->
  includes LF r = false ->
  dropWhileEnd isCR r = r ->
  lineOk (spaces n ++ String c r) = true
  /\ tokenOf (spaces n ++ String c r) = (n, String c r).
Proof.
  intros Hc Hlf Hcr. apply line_of_body.
  - simpl. rewrite Hlf. destruct Hc as [-> | ->]; reflexivity.
  - rewrite dropWhileEnd_cons, Hcr; [reflexivity|].
    destruct Hc as [-> | ->]; reflexivity.
  - unfold trim. rewrite dropWhileEnd_cons by (destruct Hc as [-> | ->]; reflexivity).
    simpl. destruct Hc as [-> | ->]; reflexivity.
  - rewrite startsWith_cons. destruct Hc as [-> | ->]; reflexivity.
  - rewrite startsWith_step. destruct Hc as [-> | ->]; reflexivity.
  - rewrite startsWith_cons. destruct Hc as [-> | ->]; reflexivity.
Qed.

Lemma keyOk_facts (k : string) :
  keyOk k = true ->
  includes SP k = false /\ includes LF k = false /\ dropWhileEnd isCR k = k.
Proof.
  unfold keyOk, noTrailingCR. intro H.
  apply andb_true_iff in H as [H H3]. apply andb_true_iff in H as [H1 H2].
  apply negb_true_iff in H1, H2. apply String.eqb_eq in H3. auto.
Qed.

Lemma isCR_isWhite (c : ascii) : isCR c = true -> isWhite c = true.
Proof.
  unfold isCR, isWhite. intros ->. now rewrite ?orb_true_r.
Qed.

(** What follows the marker on a line with an inline value. *)
Lemma inline_rest (k text : string) :
  includes LF k = false -> includes LF text = false -> trim text = text ->
  includes LF (k ++ String SP text) = false
  /\ dropWhileEnd isCR (k ++ String SP text) = (k ++ String SP text)%string.
Proof.
  intros Hk Hlf Htrim. split.
  - rewrite includes_append, Hk. simpl. exact Hlf.
  - apply dropWhileEnd_append; [|reflexivity].
    rewrite dropWhileEnd_cons by reflexivity. f_equal.
    apply trim_fixed in Htrim as [Hend _].
    exact (dropWhileEnd_weaken isWhite isCR text isCR_isWhite Hend).
Qed.

Lemma indexOf_append (k rest : string) :
  includes SP k = false ->
  indexOf SP (k ++ String SP rest) = Some (String.length k).
Proof.
  induction k as [|c k IH]; simpl; [reflexivity|].
  intro H. apply orb_false_iff in H as [H1 H2]. now rewrite H1, (IH H2).
Qed.

Lemma indexOf_none (k : string) : includes SP k = false -> indexOf SP k = None.
Proof.
  induction k as [|c k IH]; simpl; [reflexivity|].
  intro H. apply orb_false_iff in H as [H1 H2]. now rewrite H1, (IH H2).
Qed.

Lemma sliceTo_append (k rest : string) :
  sliceTo (String.length k) (k ++ rest) = k.
Proof.
  induction k as [|c k IH]; simpl; [now destruct rest | now rewrite IH].
Qed.

Lemma sliceFrom_append (k : string) (c : ascii) (rest : string) :
  sliceFrom (String.length k + 1) (k ++ String c rest) = rest.
Proof. induction k as [|d k IH]; simpl; [reflexivity | exact IH]. Qed.

(** ** Round trip: from the text to the lines *)

Lemma splitLines_line (l rest : string) :
  includes LF l = false -> dropWhileEnd isCR l = l ->
  splitLines (l ++ String LF rest) = l :: splitLines rest.
Proof.
  induction l as [|c l IH]; intros Hlf Hcr.
  - reflexivity.
  - simpl in Hlf. apply orb_false_iff in Hlf as [Hc Hlf].
    assert (Hl : dropWhileEnd isCR l = l).
    { simpl in Hcr. destruct (isEmpty (dropWhileEnd isCR l) && isCR c);
        [discriminate | now injection Hcr]. }
    specialize (IH Hlf Hl).
    change ((String c l ++ String LF rest)%string)
      with (String c (l ++ String LF rest)).
    cbn [splitLines]. rewrite Hc.
    destruct l as [|d l'].
    + simpl. simpl in Hcr.
      destruct (isCR c) eqn:E; [discriminate|]. unfold isCR in E.
      rewrite E. reflexivity.
    + change ((String d l' ++ String LF rest)%string)
        with (String d (l' ++ String LF rest)) in *.
      simpl in Hlf. apply orb_false_iff in Hlf as [Hd _].
      rewrite Hd, andb_false_r. now rewrite IH.
Qed.

Lemma splitLines_join (l : string) (ls : list string) :
  forallb cleanLine (l :: ls) = true ->
  splitLines (joinNewline (l :: ls) ++ String LF "") = (l :: ls) ++ [""].
Proof.
  revert l. induction ls as [|l2 ls IH]; intros l H.
  - simpl in H. rewrite andb_true_r in H. unfold cleanLine, noTrailingCR in H.
    apply andb_true_iff in H as [H1 H2].
    apply negb_true_iff in H1. apply String.eqb_eq in H2.
    simpl. now rewrite splitLines_line.
  - change (forallb cleanLine (l :: l2 :: ls))
      with (cleanLine l && forallb cleanLine (l2 :: ls)) in H.
    apply andb_true_iff in H as [H H'].
    unfold cleanLine, noTrailingCR in H. apply andb_true_iff in H as [H1 H2].
    apply negb_true_iff in H1. apply String.eqb_eq in H2.
    change (joinNewline (l :: l2 :: ls))
      with ((l ++ String LF (joinNewline (l2 :: ls)))%string).
    rewrite append_assoc.
    change ((String LF (joinNewline (l2 :: ls)) ++ String LF "")%string)
      with (String LF (joinNewline (l2 :: ls) ++ String LF "")).
    rewrite splitLines_line by assumption. now rewrite IH.
Qed.

Lemma tokenizeLoop_app (a b : list string) :
  tokenizeLoop (a ++ b) = tokenizeLoop a ++ tokenizeLoop b.
Proof.
  induction a as [|line a IH]; simpl; [reflexivity|].
  destruct (isEmpty (trim line)); [exact IH|].
  destruct (startsWith "!ARION" (stripLeadingSpaces line)); [exact IH|].
  destruct (startsWith "#" (stripLeadingSpaces line)); [exact IH|].
  simpl. now rewrite IH.
Qed.

Lemma tokenizeLoop_kept (ls : list string) :
  forallb lineOk ls = true -> tokenizeLoop ls = map tokenOf ls.
Proof.
  induction ls as [|line ls IH]; simpl; [reflexivity|].
  intro H. apply andb_true_iff in H as [H H'].
  unfold lineOk in H. apply andb_true_iff in H as [_ H].
  apply negb_true_iff in H. unfold nonStructural, blankLine, headerLine, commentLine in H.
  apply orb_false_iff in H as [H H3]. apply orb_false_iff in H as [H1 H2].
  rewrite H1, H2, H3, (IH H'). reflexivity.
Qed.

Lemma lineOk_clean (ls : list string) :
  forallb lineOk ls = true -> forallb cleanLine ls = true.
Proof.
  induction ls as [|line ls IH]; simpl; [reflexivity|].
  intro H. apply andb_true_iff in H as [H H'].
  unfold lineOk in H. apply andb_true_iff in H as [H _].
  now rewrite H, (IH H').
Qed.

(** The tokenizer reads back the lines that [dumpsArion] joined, without
    the header. *)
Lemma tokenize_dump (header : bool) (ls : list string) :
  forallb lineOk ls = true ->
  tokenizeLines
    (joinNewline ((if header then ["!ARION 1.0"; ""] else []) ++ ls) ++ String LF "")
  = map tokenOf ls.
Proof.
  intro H. unfold tokenizeLines.
  pose proof (lineOk_clean _ H) as Hclean.
  destruct header.
  - change (["!ARION 1.0"; ""] ++ ls) with ("!ARION 1.0" :: "" :: ls).
    rewrite splitLines_join.
    + change (tokenizeLoop (("!ARION 1.0" :: "" :: ls) ++ [""]))
        with (tokenizeLoop (ls ++ [""])).
      rewrite tokenizeLoop_app, (tokenizeLoop_kept _ H). apply app_nil_r.
    + change (cleanLine "!ARION 1.0" && (cleanLine "" && forallb cleanLine ls) = true).
      now rewrite Hclean.
  - destruct ls as [|l ls]; [reflexivity|].
    change ([] ++ l :: ls) with (l :: ls).
    rewrite splitLines_join by exact Hclean.
    rewrite tokenizeLoop_app, (tokenizeLoop_kept _ H). apply app_nil_r.
Qed.

(** ** Round trip: multiline strings *)

Lemma splitNewline_not_nil (s : string) : splitNewline s <> [].
Proof.
  destruct s as [|c s]; simpl; [discriminate|].
  destruct (Ascii.eqb c LF); [discriminate|].
  destruct (splitNewline s); discriminate.
Qed.

Lemma join_split (s : string) : joinNewline (splitNewline s) = s.
Proof.
  induction s as [|c s IH]; [reflexivity|]. simpl.
  pose proof (splitNewline_not_nil s) as Hne.
  destruct (Ascii.eqb c LF) eqn:E.
  - apply Ascii.eqb_eq in E. subst c.
    destruct (splitNewline s) as [|h t]; [congruence|].
    change (joinNewline ("" :: h :: t)) with (String LF (joinNewline (h :: t))).
    now rewrite IH.
  - destruct (splitNewline s) as [|h t]; [congruence|].
    destruct t as [|h2 t].
    + simpl in *. now rewrite IH.
    + change (joinNewline (String c h :: h2 :: t))
        with (String c (h ++ String LF (joinNewline (h2 :: t)))).
      change (joinNewline (h :: h2 :: t))
        with ((h ++ String LF (joinNewline (h2 :: t)))%string) in IH.
      now rewrite IH.
Qed.

Lemma splitNewline_no_LF (s : string) :
  Forall (fun seg => includes LF seg = false) (splitNewline s).
Proof.
  induction s as [|c s IH]; simpl; [repeat constructor|].
  destruct (Ascii.eqb c LF) eqn:E; [constructor; [reflexivity | exact IH]|].
  destruct (splitNewline s) as [|h t]; [repeat constructor; simpl; now rewrite E|].
  inversion IH as [|? ? Hh Ht]; subst. constructor; [|exact Ht].
  simpl. now rewrite E, Hh.
Qed.

Lemma segmentOk_facts (seg : string) :
  segmentOk seg = true ->
  isEmpty (trim seg) = false /\ startsWith " " seg = false
  /\ isStructural seg = false /\ startsWith "#" seg = false
  /\ startsWith "!ARION" seg = false /\ dropWhileEnd isCR seg = seg.
Proof.
  unfold segmentOk, noTrailingCR. intro H.
  repeat (apply andb_true_iff in H as [H ?]).
  repeat match goal with
         | X : negb _ = true |- _ => apply negb_true_iff in X
         | X : String.eqb _ _ = true |- _ => apply String.eqb_eq in X
         end.
  auto 10.
Qed.

(** The lines of a multiline string, as pushed and as recorded. *)
Lemma multiline_tokens (n : nat) (segs : list string) :
  forallb segmentOk segs = true ->
  Forall (fun seg => includes LF seg = false) segs ->
  forallb lineOk (map (fun line => (spaces n ++ line)%string) segs) = true
  /\ map tokenOf (map (fun line => (spaces n ++ line)%string) segs)
     = map (fun seg => (n, seg)) segs.
Proof.
  induction segs as [|seg segs IH]; simpl; [split; reflexivity|].
  intros H HLF. apply andb_true_iff in H as [H H'].
  inversion HLF as [|? ? Hlf HLF']; subst.
  destruct (IH H' HLF') as [IH1 IH2].
  apply segmentOk_facts in H as (F1 & F2 & F3 & F4 & F5 & F6).
  destruct (line_of_body n seg Hlf F6 F1 F2 F5 F4) as [L1 L2].
  now rewrite L1, L2, IH1, IH2.
Qed.

Lemma collect_segments (n : nat) (segs : list string) (rest : list Line) :
  forallb segmentOk segs = true ->
  below n rest ->
  collectMultiline n (map (fun seg => (n, seg)) segs ++ rest) = segs.
Proof.
  intros H Hrest. induction segs as [|seg segs IH]; cbn [map app collectMultiline].
  - destruct rest as [|[i t] rest]; [reflexivity|]. simpl in Hrest.
    apply Nat.ltb_lt in Hrest. cbn [collectMultiline]. now rewrite Hrest.
  - simpl in H. apply andb_true_iff in H as [H H'].
    apply segmentOk_facts in H as (_ & _ & F3 & _).
    now rewrite Nat.ltb_irrefl, Nat.eqb_refl, F3, (IH H').
Qed.

(** ** Round trip: positions in the list of lines *)

Lemma nth_error_mid (pre : list Line) (x : Line) (rest : list Line) :
  nth_error (pre ++ x :: rest) (List.length pre) = Some x.
Proof.
  rewrite nth_error_app2 by lia. now rewrite Nat.sub_diag.
Qed.

Lemma nth_error_mid1 (pre : list Line) (x : Line) (rest : list Line) :
  nth_error (pre ++ x :: rest) (List.length pre + 1) = nth_error rest 0.
Proof.
  rewrite nth_error_app2 by lia.
  replace (List.length pre + 1 - List.length pre) with 1 by lia. reflexivity.
Qed.

Lemma skipn_mid1 (pre : list Line) (x : Line) (rest : list Line) :
  skipn (List.length pre + 1) (pre ++ x :: rest) = rest.
Proof.
  rewrite skipn_app. rewrite skipn_all2 by lia.
  replace (List.length pre + 1 - List.length pre) with 1 by lia. reflexivity.
Qed.

Lemma nth_error_end (pre post : list Line) :
  nth_error (pre ++ post) (List.length pre) = nth_error post 0.
Proof.
  rewrite nth_error_app2 by lia. now rewrite Nat.sub_diag.
Qed.

Lemma below_weaken (n m : nat) (rest : list Line) :
  n <= m -> below n rest -> below m rest.
Proof. destruct rest as [|[i t] rest]; simpl; [trivial | lia]. Qed.

(** The loop leaves the block at the end of the lines or at a line
    indented less than the threshold. *)
Lemma blockStep_exit (pre post : list Line)
  (call : nat -> nat -> outcome (nat * Value)) (ci : nat)
  (obj : JsObject) (arr : option (list Value)) :
  below ci post ->
  blockStep (pre ++ post) call (List.length pre) ci obj arr = Exit.
Proof.
  intro H. unfold blockStep. rewrite nth_error_end.
  destruct post as [|[i t] post]; [reflexivity|]. simpl in H.
  apply Nat.ltb_lt in H. cbn [nth_error]. now rewrite H.
Qed.

(** The look-ahead of a bare marker at [indent] when the next line, if
    any, is indented no deeper. *)
Lemma lookahead_flat (rest : list Line) (indent : nat) :
  below (indent + 1) rest ->
  match nth_error rest 0 with
  | None => True
  | Some (nextIndent, _) => (nextIndent <=? indent)%nat = true
  end.
Proof.
  destruct rest as [|[i t] rest]; simpl; [trivial|].
  intro H. apply Nat.leb_le. lia.
Qed.

(** ** Round trip: the lines of a block *)

Lemma Value_ind' (P : Value -> Prop) :
  P Null ->
  (forall b, P (Boolean b)) ->
  (forall n, P (Number n)) ->
  (forall s, P (Str s)) ->
  (forall d props, Forall (fun e => P (snd e)) props -> P (Object d props)) ->
  (forall items, Forall P items -> P (Array items)) ->
  forall v, P v.
Proof.
  intros HN HB HNum HS HO HA. fix IH 1. intros [ | b | n | s | d props | items].
  - exact HN.
  - apply HB.
  - apply HNum.
  - apply HS.
  - apply HO. revert props. fix IHps 1. intros [|[k w] ps].
    + constructor.
    + constructor; [apply IH | apply IHps].
  - apply HA. revert items. fix IHis 1. intros [|w ws].
    + constructor.
    + constructor; [apply IH | apply IHis].
Qed.

Lemma entry_marker_bare (n : nat) (k : string) :
  keyOk k = true ->
  lineOk (spaces n ++ "." ++ k) = true
  /\ tokenOf (spaces n ++ "." ++ k) = (n, String "." k).
Proof.
  intro H. apply keyOk_facts in H as (_ & H2 & H3).
  change ("." ++ k)%string with (String "." k).
  apply line_of_marker; auto.
Qed.

Lemma entry_marker_inline (n : nat) (k text : string) :
  keyOk k = true -> includes LF text = false -> trim text = text ->
  lineOk (spaces n ++ "." ++ k ++ " " ++ text) = true
  /\ tokenOf (spaces n ++ "." ++ k ++ " " ++ text)
     = (n, String "." (k ++ String SP text)).
Proof.
  intros H Hlf Htrim. apply keyOk_facts in H as (_ & H2 & _).
  change ("." ++ k ++ " " ++ text)%string with (String "." (k ++ String SP text)).
  destruct (inline_rest k text H2 Hlf Htrim) as [R1 R2].
  apply line_of_marker; auto.
Qed.

Lemma item_marker_bare (n : nat) :
  lineOk (spaces n ++ "-") = true /\ tokenOf (spaces n ++ "-") = (n, "-").
Proof. apply line_of_marker; auto. Qed.

Lemma item_marker_inline (n : nat) (text : string) :
  includes LF text = false -> trim text = text ->
  lineOk (spaces n ++ "- " ++ text) = true
  /\ tokenOf (spaces n ++ "- " ++ text) = (n, String "-" (String SP text)).
Proof.
  intros Hlf Htrim.
  change ("- " ++ text)%string with (String "-" (String SP text)).
  apply line_of_marker; [auto | exact Hlf |].
  rewrite dropWhileEnd_cons by reflexivity. f_equal.
  apply trim_fixed in Htrim as [Hend _].
  exact (dropWhileEnd_weaken isWhite isCR text isCR_isWhite Hend).
Qed.

Lemma multilineOk_facts (s : string) :
  multilineOk s = true ->
  includes LF s = true /\ forallb segmentOk (splitNewline s) = true.
Proof. unfold multilineOk. intro H. now apply andb_true_iff in H. Qed.

(** The lines of one entry. *)
Lemma entry_lines (n : nat) (k : string) (w : Value) :
  keyOk k = true -> encodable Entry w -> linesBack w ->
  forallb lineOk (encodeEntry n (k, w)) = true
  /\ entryTokens n (k, w) = entryShape n (k, w).
Proof.
  intros Hk Hw Hback. unfold entryTokens.
  assert (Hinline : forall v, scalarOk v ->
    forallb lineOk [(spaces n ++ "." ++ k ++ " " ++ encodeScalar v)%string] = true
    /\ map tokenOf [(spaces n ++ "." ++ k ++ " " ++ encodeScalar v)%string]
       = [(n, String "." (k ++ String SP (encodeScalar v)))]).
  { intros v Hv. destruct (encodeScalar_text v Hv) as [T1 T2].
    destruct (entry_marker_inline n k _ Hk T2 T1) as [L1 L2].
    cbn [forallb map]. now rewrite L1, L2. }
  destruct (entry_marker_bare n k Hk) as [B1 B2].
  destruct w as [|b|m|s|d props|items].
  - apply Hinline. exact I.
  - apply Hinline. exact I.
  - apply Hinline. simpl in Hw. tauto.
  - cbn [encodeEntry entryShape]. simpl in Hw.
    destruct (includes LF s) eqn:E.
    + destruct Hw as [Hw | Hw].
      * apply plainText_facts in Hw as (Hw & _). congruence.
      * apply multilineOk_facts in Hw as [_ Hsegs].
        destruct (multiline_tokens (n + 2) _ Hsegs (splitNewline_no_LF s)) as [M1 M2].
        unfold multilineLines. cbn [forallb map]. now rewrite B1, B2, M1, M2.
    + destruct Hw as [Hw | Hw].
      * apply Hinline. exact Hw.
      * apply multilineOk_facts in Hw as [Hw _]. congruence.
  - destruct (Hback (n + 2) Hw) as [L1 L2].
    cbn [encodeEntry entryShape forallb map]. fold (blockTokens (Object d props) (n + 2)).
    now rewrite B1, B2, L1.
  - destruct (Hback (n + 2) Hw) as [L1 L2].
    cbn [encodeEntry entryShape forallb map]. fold (blockTokens (Array items) (n + 2)).
    now rewrite B1, B2, L1.
Qed.

(** The lines of one item. *)
Lemma item_lines (n : nat) (w : Value) :
  encodable Item w -> linesBack w ->
  forallb lineOk (encodeItem n w) = true
  /\ itemTokens n w = itemShape n w.
Proof.
  intros Hw Hback. unfold itemTokens.
  assert (Hinline : forall v, scalarOk v ->
    forallb lineOk [(spaces n ++ "- " ++ encodeScalar v)%string] = true
    /\ map tokenOf [(spaces n ++ "- " ++ encodeScalar v)%string]
       = [(n, String "-" (String SP (encodeScalar v)))]).
  { intros v Hv. destruct (encodeScalar_text v Hv) as [T1 T2].
    destruct (item_marker_inline n _ T2 T1) as [L1 L2].
    cbn [forallb map]. now rewrite L1, L2. }
  destruct (item_marker_bare n) as [B1 B2].
  destruct w as [|b|m|s|d props|items].
  - apply Hinline. exact I.
  - apply Hinline. exact I.
  - apply Hinline. simpl in Hw. tauto.
  - cbn [encodeItem itemShape]. simpl in Hw. destruct Hw as [Hw _].
    pose proof (plainText_facts _ Hw) as (E & _). rewrite E.
    apply Hinline. exact Hw.
  - assert (He : encodable Entry (Object d props)).
    { simpl in *. intuition discriminate. }
    destruct (Hback (n + 2) He) as [L1 L2].
    cbn [encodeItem itemShape forallb map]. fold (blockTokens (Object d props) (n + 2)).
    now rewrite B1, B2, L1.
  - destruct (Hback (n + 2) Hw) as [L1 L2].
    cbn [encodeItem itemShape forallb map]. fold (blockTokens (Array items) (n + 2)).
    now rewrite B1, B2, L1.
Qed.

Lemma map_flat_map {A B C : Type} (g : B -> C) (f : A -> list B) (l : list A) :
  map g (flat_map f l) = flat_map (fun x => map g (f x)) l.
Proof.
  induction l as [|x l IH]; simpl; [reflexivity|]. now rewrite map_app, IH.
Qed.

Lemma encodable_Object (pos : position) (d : bool) (props : list (string * Value)) :
  encodable pos (Object d props)
  = (d = false /\ (pos = Root -> props <> [])
     /\ buildObject props = (false, props) /\ entriesOk props).
Proof. reflexivity. Qed.

Lemma encodable_Array (pos : position) (items : list Value) :
  encodable pos (Array items) = (items <> [] /\ itemsOk items).
Proof. reflexivity. Qed.

(** The tokenizer keeps every line of an encodable block. *)
Lemma lines_back (v : Value) : linesBack v.
Proof.
  induction v as [ | b | m | s | d props IH | items IH] using Value_ind';
    try exact I.
  - intros n Hv. rewrite encodable_Object in Hv.
    destruct Hv as (_ & _ & _ & Hps).
    unfold blockTokens. rewrite encodeBlock_Object, map_flat_map.
    clear d. induction props as [|[k w] ps IHps]; [split; reflexivity|].
    inversion IH as [|? ? Hw Hrest]; subst. simpl in Hw.
    destruct Hps as (Hk & Hwok & Hps).
    destruct (IHps Hrest Hps) as [R1 R2].
    destruct (entry_lines n k w Hk Hwok Hw) as [E1 E2]. unfold entryTokens in E2.
    cbn [flat_map]. rewrite forallb_app, E1, R1, E2, R2. split; reflexivity.
  - intros n Hv. rewrite encodable_Array in Hv. destruct Hv as (_ & His).
    unfold blockTokens. rewrite encodeBlock_Array, map_flat_map.
    induction items as [|w ws IHws]; [split; reflexivity|].
    inversion IH as [|? ? Hw Hrest]; subst.
    destruct His as (Hwok & His).
    destruct (IHws Hrest His) as [R1 R2].
    destruct (item_lines n w Hwok Hw) as [E1 E2]. unfold itemTokens in E2.
    cbn [flat_map]. rewrite forallb_app, E1, R1, E2, R2. split; reflexivity.
Qed.

(** ** Round trip: the turns of the loop on encoded lines *)

Lemma step_inline_key
  (lines : list Line) (call : nat -> nat -> outcome (nat * Value))
  (idx ci : nat) (obj : JsObject) (arr : option (list Value))
  (ind : nat) (k text : string) :
  nth_error lines idx = Some (ind, String "." (k ++ String SP text)) ->
  ci <= ind -> includes SP k = false ->
  blockStep lines call idx ci obj arr
  = Continue (idx + 1) (objSet k (parseScalar text) obj) arr.
Proof.
  intros Hline Hci Hk. unfold blockStep. rewrite Hline.
  assert (Hlt : (ind <? ci)%nat = false) by (apply Nat.ltb_ge; lia).
  rewrite Hlt, startsWith_cons, Ascii.eqb_refl.
  cbn [sliceFrom]. rewrite (indexOf_append k text Hk).
  now rewrite sliceTo_append, sliceFrom_append.
Qed.

Lemma step_bare_key_flat
  (lines : list Line) (call : nat -> nat -> outcome (nat * Value))
  (idx ci : nat) (obj : JsObject) (arr : option (list Value))
  (ind : nat) (k : string) :
  nth_error lines idx = Some (ind, String "." k) ->
  ci <= ind -> includes SP k = false ->
  match nth_error lines (idx + 1) with
  | None => True
  | Some (nextIndent, _) => (nextIndent <=? ind)%nat = true
  end ->
  blockStep lines call idx ci obj arr
  = Continue (idx + 1) (objSet k (Object false []) obj) arr.
Proof.
  intros Hline Hci Hk Hnext. unfold blockStep. rewrite Hline.
  assert (Hlt : (ind <? ci)%nat = false) by (apply Nat.ltb_ge; lia).
  rewrite Hlt, startsWith_cons, Ascii.eqb_refl.
  cbn [sliceFrom]. rewrite (indexOf_none k Hk).
  destruct (nth_error lines (idx + 1)) as [[ni ns]|]; [|reflexivity].
  now rewrite Hnext.
Qed.

Lemma step_bare_key_multiline
  (lines : list Line) (call : nat -> nat -> outcome (nat * Value))
  (idx ci : nat) (obj : JsObject) (arr : option (list Value))
  (ind : nat) (k : string) (ni : nat) (ns : string) :
  nth_error lines idx = Some (ind, String "." k) ->
  ci <= ind -> includes SP k = false ->
  nth_error lines (idx + 1) = Some (ni, ns) ->
  ind < ni -> isStructural ns = false ->
  blockStep lines call idx ci obj arr
  = Continue (idx + 1 + List.length (collectMultiline ni (skipn (idx + 1) lines)))
      (objSet k (Str (joinNewline (collectMultiline ni (skipn (idx + 1) lines)))) obj)
      arr.
Proof.
  intros Hline Hci Hk Hnext Hni Hns. unfold blockStep. rewrite Hline.
  assert (Hlt : (ind <? ci)%nat = false) by (apply Nat.ltb_ge; lia).
  assert (Hle : (ni <=? ind)%nat = false) by (apply Nat.leb_gt; lia).
  rewrite Hlt, startsWith_cons, Ascii.eqb_refl.
  cbn [sliceFrom]. rewrite (indexOf_none k Hk), Hnext, Hle, Hns. reflexivity.
Qed.

Lemma step_bare_key_nested
  (lines : list Line) (call : nat -> nat -> outcome (nat * Value))
  (idx ci : nat) (obj : JsObject) (arr : option (list Value))
  (ind : nat) (k : string) (ni : nat) (ns : string) (idx' : nat) (v : Value) :
  nth_error lines idx = Some (ind, String "." k) ->
  ci <= ind -> includes SP k = false ->
  nth_error lines (idx + 1) = Some (ni, ns) ->
  ind < ni -> isStructural ns = true ->
  call (idx + 1) (ind + 1) = Ok (idx', v) ->
  blockStep lines call idx ci obj arr = Continue idx' (objSet k v obj) arr.
Proof.
  intros Hline Hci Hk Hnext Hni Hns Hcall. unfold blockStep. rewrite Hline.
  assert (Hlt : (ind <? ci)%nat = false) by (apply Nat.ltb_ge; lia).
  assert (Hle : (ni <=? ind)%nat = false) by (apply Nat.leb_gt; lia).
  rewrite Hlt, startsWith_cons, Ascii.eqb_refl.
  cbn [sliceFrom]. rewrite (indexOf_none k Hk), Hnext, Hle, Hns, Hcall. reflexivity.
Qed.

Lemma step_inline_item
  (lines : list Line) (call : nat -> nat -> outcome (nat * Value))
  (idx ci : nat) (obj : JsObject) (arr : option (list Value))
  (ind : nat) (text : string) :
  nth_error lines idx = Some (ind, String "-" (String SP text)) ->
  ci <= ind -> trim text = text -> isEmpty text = false ->
  blockStep lines call idx ci obj arr
  = Continue (idx + 1) obj (Some (arrItems arr ++ [parseScalar text])).
Proof.
  intros Hline Hci Htrim Hne. unfold blockStep. rewrite Hline.
  assert (Hlt : (ind <? ci)%nat = false) by (apply Nat.ltb_ge; lia).
  rewrite Hlt, !startsWith_cons.
  change (Ascii.eqb "." "-") with false. rewrite Ascii.eqb_refl.
  cbn [sliceFrom]. rewrite trim_space, Htrim, Hne. reflexivity.
Qed.

Lemma step_bare_item_flat
  (lines : list Line) (call : nat -> nat -> outcome (nat * Value))
  (idx ci : nat) (obj : JsObject) (arr : option (list Value)) (ind : nat) :
  nth_error lines idx = Some (ind, "-") ->
  ci <= ind ->
  match nth_error lines (idx + 1) with
  | None => True
  | Some (nextIndent, _) => (nextIndent <=? ind)%nat = true
  end ->
  blockStep lines call idx ci obj arr
  = Continue (idx + 1) obj (Some (arrItems arr ++ [Object false []])).
Proof.
  intros Hline Hci Hnext. unfold blockStep. rewrite Hline.
  assert (Hlt : (ind <? ci)%nat = false) by (apply Nat.ltb_ge; lia).
  rewrite Hlt, !startsWith_cons.
  change (Ascii.eqb "." "-") with false. rewrite Ascii.eqb_refl.
  cbn [sliceFrom]. change (trim "") with "". cbn [isEmpty negb].
  destruct (nth_error lines (idx + 1)) as [[ni ns]|]; [|reflexivity].
  now rewrite Hnext.
Qed.

Lemma step_bare_item_nested
  (lines : list Line) (call : nat -> nat -> outcome (nat * Value))
  (idx ci : nat) (obj : JsObject) (arr : option (list Value))
  (ind : nat) (ni : nat) (ns : string) (idx' : nat) (v : Value) :
  nth_error lines idx = Some (ind, "-") ->
  ci <= ind ->
  nth_error lines (idx + 1) = Some (ni, ns) ->
  ind < ni ->
  call (idx + 1) (ind + 1) = Ok (idx', v) ->
  blockStep lines call idx ci obj arr
  = Continue idx' obj (Some (arrItems arr ++ [v])).
Proof.
  intros Hline Hci Hnext Hni Hcall. unfold blockStep. rewrite Hline.
  assert (Hlt : (ind <? ci)%nat = false) by (apply Nat.ltb_ge; lia).
  assert (Hle : (ni <=? ind)%nat = false) by (apply Nat.leb_gt; lia).
  rewrite Hlt, !startsWith_cons.
  change (Ascii.eqb "." "-") with false. rewrite Ascii.eqb_refl.
  cbn [sliceFrom]. change (trim "") with "". cbn [isEmpty negb].
  rewrite Hnext, Hle, Hcall. reflexivity.
Qed.

(** The first line of an encodable block is a marker line at the indent of
    the block; only the empty object has no line. *)
Lemma blockTokens_head (w : Value) (n : nat) :
  encodable Entry w ->
  match w with
  | Object _ _ | Array _ =>
      (blockTokens w n = [] /\ w = Object false [])
      \/ exists c r more,
           blockTokens w n = (n, String c r) :: more
           /\ isStructural (String c r) = true
  | _ => True
  end.
Proof.
  intro Hw. pose proof (lines_back w) as Hback.
  destruct w as [|b|m|s|d props|items]; try exact I.
  - destruct (Hback n Hw) as [_ ->]. rewrite encodable_Object in Hw.
    destruct Hw as (-> & _ & _ & Hps).
    destruct props as [|[k w] ps]; [now left|]. right.
    cbn [flat_map entryShape].
    destruct w as [|b|m|s|d' props'|items']; try (do 3 eexists; split; reflexivity).
    destruct (includes LF s); do 3 eexists; split; reflexivity.
  - destruct (Hback n Hw) as [_ ->]. rewrite encodable_Array in Hw.
    destruct Hw as (Hne & _).
    destruct items as [|w ws]; [congruence|]. right.
    cbn [flat_map itemShape].
    destruct w; do 3 eexists; split; reflexivity.
Qed.

Lemma entryShape_length (n : nat) (e : string * Value) :
  1 <= List.length (entryShape n e).
Proof.
  destruct e as [k w]. destruct w as [|b|m|s|d props|items]; simpl; try lia.
  destruct (includes LF s); simpl; lia.
Qed.

Lemma itemShape_length (n : nat) (w : Value) : 1 <= List.length (itemShape n w).
Proof. destruct w; simpl; lia. Qed.

Lemma entryShape_head (n : nat) (e : string * Value) (rest : list Line) :
  below (n + 1) (entryShape n e ++ rest).
Proof.
  destruct e as [k w]. destruct w as [|b|m|s|d props|items]; simpl; try lia.
  destruct (includes LF s); simpl; lia.
Qed.

Lemma itemShape_head (n : nat) (w : Value) (rest : list Line) :
  below (n + 1) (itemShape n w ++ rest).
Proof. destruct w; simpl; lia. Qed.

Lemma encodable_entry_scalar (w : Value) :
  encodable Entry w ->
  match w with
  | Null | Boolean _ | Number _ => scalarOk w
  | Str s => includes LF s = false -> scalarOk w
  | _ => True
  end.
Proof.
  destruct w as [|b|m|s|d props|items]; simpl; try tauto.
  intros [H | H] E; [exact H|].
  apply multilineOk_facts in H as [H _]. congruence.
Qed.

Lemma parsesBack_apply (v : Value) :
  match v with Object _ _ | Array _ => True | _ => False end ->
  parsesBack v ->
  forall indent lines pre post fuel ci,
    encodable Entry v ->
    lines = pre ++ blockTokens v indent ++ post ->
    ci <= indent -> below ci post ->
    List.length (blockTokens v indent) < fuel ->
    parseLoop lines fuel (List.length pre) ci emptyObject None
    = Ok (List.length pre + List.length (blockTokens v indent), v).
Proof. destruct v; try contradiction; intros _ H; exact H. Qed.

(** The nested call on the lines under a bare marker. *)
Lemma nested_call
  (lines pre rest : list Line) (fuel ind : nat) (x : Line) (v : Value) :
  match v with Object _ _ | Array _ => True | _ => False end ->
  encodable Entry v -> parsesBack v ->
  lines = pre ++ (x :: blockTokens v (ind + 2)) ++ rest ->
  below (ind + 1) rest ->
  List.length (blockTokens v (ind + 2)) < fuel ->
  nested lines fuel (List.length pre + 1) (ind + 1)
  = Ok (List.length pre + S (List.length (blockTokens v (ind + 2))), v).
Proof.
  intros Hcomp Hv Hpb Hl Hrest Hf. unfold nested.
  pose proof (parsesBack_apply v Hcomp Hpb (ind + 2) lines (pre ++ [x]) rest
                fuel (ind + 1) Hv) as Hgo.
  rewrite length_app in Hgo. cbn [List.length] in Hgo.
  replace (List.length pre + 1 + List.length (blockTokens v (ind + 2)))
    with (List.length pre + S (List.length (blockTokens v (ind + 2))))
    in Hgo by lia.
  apply Hgo; [|lia|exact Hrest|exact Hf].
  rewrite Hl, <- app_assoc. reflexivity.
Qed.

Lemma blockTokens_cases (v : Value) (n : nat) :
  match v with Object _ _ | Array _ => True | _ => False end ->
  encodable Entry v ->
  (blockTokens v n = [] /\ v = Object false [])
  \/ exists c r more,
       blockTokens v n = (n, String c r) :: more
       /\ isStructural (String c r) = true.
Proof.
  intros Hcomp Hv. pose proof (blockTokens_head v n Hv) as H.
  destruct v; try contradiction; exact H.
Qed.

Lemma entry_step_inline
  (lines pre rest : list Line) (fuel ci ind : nat)
  (k : string) (v : Value) (obj : JsObject) (arr : option (list Value)) :
  keyOk k = true -> scalarOk v ->
  lines = pre ++ [(ind, String "." (k ++ String SP (encodeScalar v)))] ++ rest ->
  ci <= ind ->
  blockStep lines (nested lines fuel) (List.length pre) ci obj arr
  = Continue (List.length pre + 1) (objSet k v obj) arr.
Proof.
  intros Hk Hv -> Hci. pose proof (keyOk_facts k Hk) as (Hsp & _ & _).
  erewrite step_inline_key; [|apply nth_error_mid | exact Hci | exact Hsp].
  now rewrite parseScalar_encodeScalar.
Qed.

Lemma entry_step_nested
  (lines pre rest : list Line) (fuel ci ind : nat)
  (k : string) (v : Value) (obj : JsObject) (arr : option (list Value)) :
  keyOk k = true ->
  match v with Object _ _ | Array _ => True | _ => False end ->
  encodable Entry v -> parsesBack v ->
  lines = pre ++ ((ind, String "." k) :: blockTokens v (ind + 2)) ++ rest ->
  ci <= ind -> below (ind + 1) rest ->
  S (List.length (blockTokens v (ind + 2))) <= fuel ->
  blockStep lines (nested lines fuel) (List.length pre) ci obj arr
  = Continue (List.length pre + S (List.length (blockTokens v (ind + 2))))
      (objSet k v obj) arr.
Proof.
  intros Hk Hcomp Hv Hpb Hl Hci Hrest Hf.
  pose proof (keyOk_facts k Hk) as (Hsp & _ & _).
  destruct (blockTokens_cases v (ind + 2) Hcomp Hv)
    as [[E ->] | (c & r & more & E & Hs)].
  - rewrite E in *. subst lines. cbn [List.length].
    rewrite step_bare_key_flat with (ind := ind) (k := k);
      [reflexivity | apply nth_error_mid | exact Hci | exact Hsp |].
    cbn [app]. rewrite nth_error_mid1. now apply lookahead_flat.
  - pose proof (nested_call lines pre rest fuel ind _ v Hcomp Hv Hpb Hl Hrest)
      as Hparse.
    rewrite E in Hl.
    erewrite step_bare_key_nested with (ind := ind) (k := k);
      [reflexivity | subst lines; apply nth_error_mid | exact Hci | exact Hsp
       | subst lines; cbn [app]; rewrite nth_error_mid1; reflexivity
       | lia | exact Hs | apply Hparse; lia].
Qed.

Lemma entry_step_multiline
  (lines pre rest : list Line) (fuel ci ind : nat)
  (k s : string) (obj : JsObject) (arr : option (list Value)) :
  keyOk k = true -> multilineOk s = true ->
  lines = pre ++ ((ind, String "." k)
                  :: map (fun seg => (ind + 2, seg)) (splitNewline s)) ++ rest ->
  ci <= ind -> below (ind + 1) rest ->
  blockStep lines (nested lines fuel) (List.length pre) ci obj arr
  = Continue (List.length pre + S (List.length (splitNewline s)))
      (objSet k (Str s) obj) arr.
Proof.
  intros Hk Hs -> Hci Hrest. pose proof (keyOk_facts k Hk) as (Hsp & _ & _).
  apply multilineOk_facts in Hs as [_ Hsegs].
  pose proof (splitNewline_not_nil s) as Hne.
  pose proof (join_split s) as Hjoin.
  destruct (splitNewline s) as [|seg segs]; [congruence|].
  pose proof Hsegs as Hsegs'. cbn [forallb] in Hsegs'.
  apply andb_true_iff in Hsegs' as [Hseg _].
  apply segmentOk_facts in Hseg as (_ & _ & Hns & _).
  rewrite step_bare_key_multiline
    with (ind := ind) (k := k) (ni := ind + 2) (ns := seg);
    [| apply nth_error_mid | exact Hci | exact Hsp
     | cbn [app map]; rewrite nth_error_mid1; reflexivity | lia | exact Hns].
  cbn [app]. rewrite skipn_mid1, collect_segments;
    [| exact Hsegs | eapply below_weaken; [|exact Hrest]; lia].
  rewrite Hjoin. f_equal. lia.
Qed.

(** One turn of the loop on the lines of an entry. *)
Lemma entry_step
  (lines pre rest : list Line) (fuel ci ind : nat)
  (k : string) (w : Value) (obj : JsObject) (arr : option (list Value)) :
  keyOk k = true -> encodable Entry w -> parsesBack w ->
  lines = pre ++ entryShape ind (k, w) ++ rest ->
  ci <= ind -> below (ind + 1) rest ->
  List.length (entryShape ind (k, w)) <= fuel ->
  blockStep lines (nested lines fuel) (List.length pre) ci obj arr
  = Continue (List.length pre + List.length (entryShape ind (k, w)))
      (objSet k w obj) arr.
Proof.
  intros Hk Hw Hback Hlines Hci Hrest Hfuel.
  pose proof (encodable_entry_scalar w Hw) as Hsc.
  destruct w as [|b|m|s|d props|items].
  - cbn [entryShape List.length] in *. eapply entry_step_inline; eassumption.
  - cbn [entryShape List.length] in *. eapply entry_step_inline; eassumption.
  - cbn [entryShape List.length] in *. eapply entry_step_inline; eassumption.
  - cbn [entryShape] in *. destruct (includes LF s) eqn:E.
    + simpl in Hw. destruct Hw as [Hw | Hw];
        [apply plainText_facts in Hw as (Hw & _); congruence|].
      cbn [List.length]. rewrite length_map.
      eapply entry_step_multiline; eassumption.
    + cbn [List.length] in *. eapply entry_step_inline; try eassumption.
      now apply Hsc.
  - cbn [entryShape List.length] in *.
    eapply entry_step_nested; try eassumption; exact I.
  - cbn [entryShape List.length] in *.
    eapply entry_step_nested; try eassumption; exact I.
Qed.

Lemma item_step_inline
  (lines pre rest : list Line) (fuel ci ind : nat)
  (v : Value) (obj : JsObject) (arr : option (list Value)) :
  scalarOk v -> isEmpty (encodeScalar v) = false ->
  lines = pre ++ [(ind, String "-" (String SP (encodeScalar v)))] ++ rest ->
  ci <= ind ->
  blockStep lines (nested lines fuel) (List.length pre) ci obj arr
  = Continue (List.length pre + 1) obj (Some (arrItems arr ++ [v])).
Proof.
  intros Hv Hne -> Hci. destruct (encodeScalar_text v Hv) as [Htrim _].
  erewrite step_inline_item;
    [|apply nth_error_mid | exact Hci | exact Htrim | exact Hne].
  now rewrite parseScalar_encodeScalar.
Qed.

Lemma item_step_nested
  (lines pre rest : list Line) (fuel ci ind : nat)
  (v : Value) (obj : JsObject) (arr : option (list Value)) :
  match v with Object _ _ | Array _ => True | _ => False end ->
  encodable Entry v -> parsesBack v ->
  lines = pre ++ ((ind, "-") :: blockTokens v (ind + 2)) ++ rest ->
  ci <= ind -> below (ind + 1) rest ->
  S (List.length (blockTokens v (ind + 2))) <= fuel ->
  blockStep lines (nested lines fuel) (List.length pre) ci obj arr
  = Continue (List.length pre + S (List.length (blockTokens v (ind + 2))))
      obj (Some (arrItems arr ++ [v])).
Proof.
  intros Hcomp Hv Hpb Hl Hci Hrest Hf.
  destruct (blockTokens_cases v (ind + 2) Hcomp Hv)
    as [[E ->] | (c & r & more & E & Hs)].
  - rewrite E in *. subst lines. cbn [List.length].
    rewrite step_bare_item_flat with (ind := ind);
      [reflexivity | apply nth_error_mid | exact Hci |].
    cbn [app]. rewrite nth_error_mid1. now apply lookahead_flat.
  - pose proof (nested_call lines pre rest fuel ind _ v Hcomp Hv Hpb Hl Hrest)
      as Hparse.
    rewrite E in Hl.
    erewrite step_bare_item_nested with (ind := ind);
      [reflexivity | subst lines; apply nth_error_mid | exact Hci
       | subst lines; cbn [app]; rewrite nth_error_mid1; reflexivity
       | lia | apply Hparse; lia].
Qed.

Lemma numberOk_text (n : num) : numberOk n -> isEmpty (numToString n) = false.
Proof.
  intros [H _]. apply numericLiteral_chars in H as [_ H].
  destruct (numToString n); [congruence | reflexivity].
Qed.

(** One turn of the loop on the lines of an item. *)
Lemma item_step
  (lines pre rest : list Line) (fuel ci ind : nat)
  (w : Value) (obj : JsObject) (arr : option (list Value)) :
  encodable Item w -> parsesBack w ->
  lines = pre ++ itemShape ind w ++ rest ->
  ci <= ind -> below (ind + 1) rest ->
  List.length (itemShape ind w) <= fuel ->
  blockStep lines (nested lines fuel) (List.length pre) ci obj arr
  = Continue (List.length pre + List.length (itemShape ind w))
      obj (Some (arrItems arr ++ [w])).
Proof.
  intros Hw Hback Hlines Hci Hrest Hfuel.
  destruct w as [|b|m|s|d props|items].
  - cbn [itemShape List.length] in *.
    eapply item_step_inline; try eassumption; first [exact I | reflexivity].
  - cbn [itemShape List.length] in *.
    eapply item_step_inline; try eassumption; first [exact I | now destruct b].
  - cbn [itemShape List.length] in *. simpl in Hw. destruct Hw as [_ Hw].
    eapply item_step_inline; try eassumption. now apply numberOk_text.
  - cbn [itemShape List.length] in *. simpl in Hw. destruct Hw as [Hw Hne].
    eapply item_step_inline; try eassumption.
    simpl. destruct (String.eqb s "true" || String.eqb s "false"
                     || String.eqb s "null" || isNumberLike s);
      [reflexivity | exact Hne].
  - cbn [itemShape List.length] in *.
    eapply item_step_nested; try eassumption; try exact I.
    simpl in *. intuition discriminate.
  - cbn [itemShape List.length] in *.
    eapply item_step_nested; try eassumption; exact I.
Qed.

(** ** Round trip: whole blocks *)

(** The loop over the lines of the entries of an object. *)
Lemma entries_loop (ind : nat) (ps : list (string * Value)) :
  Forall (fun e => parsesBack (snd e)) ps -> entriesOk ps ->
  forall lines pre post fuel ci obj arr,
    lines = pre ++ flat_map (entryShape ind) ps ++ post ->
    ci <= ind -> below ci post ->
    List.length (flat_map (entryShape ind) ps) < fuel ->
    parseLoop lines fuel (List.length pre) ci obj arr
    = blockResult (List.length pre + List.length (flat_map (entryShape ind) ps))
        (assigned obj ps) arr.
Proof.
  induction ps as [|[k w] ps IH]; intros Hpb Hok lines pre post fuel ci obj arr
    Hlines Hci Hpost Hfuel.
  - destruct fuel as [|fuel]; [simpl in Hfuel; lia|].
    subst lines. cbn [flat_map app List.length assigned fold_left].
    rewrite parseLoop_S, blockStep_exit by exact Hpost.
    now rewrite Nat.add_0_r.
  - destruct fuel as [|fuel]; [lia|].
    inversion Hpb as [|? ? Hw Hrest]; subst. simpl in Hw.
    destruct Hok as (Hk & Hwok & Hok).
    cbn [flat_map] in *. rewrite length_app in *.
    pose proof (entryShape_length ind (k, w)) as Hlen.
    rewrite parseLoop_S.
    rewrite (entry_step _ pre (flat_map (entryShape ind) ps ++ post) fuel ci ind
               k w obj arr Hk Hwok Hw);
      [| now rewrite <- app_assoc | exact Hci | | lia].
    + rewrite <- length_app.
      rewrite (IH Hrest Hok _ (pre ++ entryShape ind (k, w)) post fuel ci);
        [| now rewrite <- !app_assoc | exact Hci | exact Hpost | lia].
      rewrite !length_app. cbn [assigned fold_left fst snd].
      f_equal. lia.
    + destruct ps as [|e ps'].
      * cbn [flat_map app]. eapply below_weaken; [|exact Hpost]. lia.
      * cbn [flat_map]. rewrite <- app_assoc. apply entryShape_head.
Qed.

Lemma pushed_cons (arr : option (list Value)) (w : Value) (ws : list Value) :
  pushed (Some (arrItems arr ++ [w])) ws = pushed arr (w :: ws).
Proof.
  destruct ws as [|w' ws]; simpl; [reflexivity|].
  now rewrite <- app_assoc.
Qed.

(** The loop over the lines of the items of an array. *)
Lemma items_loop (ind : nat) (ws : list Value) :
  Forall parsesBack ws -> itemsOk ws ->
  forall lines pre post fuel ci obj arr,
    lines = pre ++ flat_map (itemShape ind) ws ++ post ->
    ci <= ind -> below ci post ->
    List.length (flat_map (itemShape ind) ws) < fuel ->
    parseLoop lines fuel (List.length pre) ci obj arr
    = blockResult (List.length pre + List.length (flat_map (itemShape ind) ws))
        obj (pushed arr ws).
Proof.
  induction ws as [|w ws IH]; intros Hpb Hok lines pre post fuel ci obj arr
    Hlines Hci Hpost Hfuel.
  - destruct fuel as [|fuel]; [simpl in Hfuel; lia|].
    subst lines. cbn [flat_map app List.length pushed].
    rewrite parseLoop_S, blockStep_exit by exact Hpost.
    now rewrite Nat.add_0_r.
  - destruct fuel as [|fuel]; [lia|].
    inversion Hpb as [|? ? Hw Hrest]; subst.
    destruct Hok as (Hwok & Hok).
    cbn [flat_map] in *. rewrite length_app in *.
    pose proof (itemShape_length ind w) as Hlen.
    rewrite parseLoop_S.
    rewrite (item_step _ pre (flat_map (itemShape ind) ws ++ post) fuel ci ind
               w obj arr Hwok Hw);
      [| now rewrite <- app_assoc | exact Hci | | lia].
    + rewrite <- length_app.
      rewrite (IH Hrest Hok _ (pre ++ itemShape ind w) post fuel ci);
        [| now rewrite <- !app_assoc | exact Hci | exact Hpost | lia].
      rewrite !length_app, pushed_cons. f_equal. lia.
    + destruct ws as [|e ws'].
      * cbn [flat_map app]. eapply below_weaken; [|exact Hpost]. lia.
      * cbn [flat_map]. rewrite <- app_assoc. apply itemShape_head.
Qed.

(** [parseBlock] gives back every encodable block. *)
Lemma parse_back (v : Value) : parsesBack v.
Proof.
  induction v as [ | b | m | s | d props IH | items IH] using Value_ind';
    try exact I.
  - intros indent lines pre post fuel ci Hv Hlines Hci Hpost Hfuel.
    destruct (lines_back (Object d props) indent Hv) as [_ E].
    rewrite E in *. rewrite encodable_Object in Hv.
    destruct Hv as (-> & _ & Hbuild & Hok).
    rewrite (entries_loop indent props IH Hok lines pre post fuel ci);
      try assumption.
    unfold buildObject in Hbuild. unfold assigned. rewrite Hbuild. reflexivity.
  - intros indent lines pre post fuel ci Hv Hlines Hci Hpost Hfuel.
    destruct (lines_back (Array items) indent Hv) as [_ E].
    rewrite E in *. rewrite encodable_Array in Hv. destruct Hv as (Hne & Hok).
    rewrite (items_loop indent items IH Hok lines pre post fuel ci);
      try assumption.
    destruct items as [|w ws]; [congruence|]. reflexivity.
Qed.

Lemma encodable_root (v : Value) :
  encodable Root v ->
  match v with Object _ _ | Array _ => True | _ => False end
  /\ encodable Entry v
  /\ encodeBlock v 0 <> [].
Proof.
  destruct v as [|b|m|s|d props|items]; simpl; try tauto.
  - intros (Hd & Hne & Hb & Hok). repeat split; auto; try discriminate.
    specialize (Hne eq_refl). destruct props as [|[k w] ps]; [congruence|].
    cbn [flat_map]. destruct w as [|b|m|s|d' props'|items']; try discriminate.
    destruct (includes LF s); discriminate.
  - intros (Hne & Hok). repeat split; auto.
    destruct items as [|w ws]; [congruence|].
    cbn [flat_map]. destruct w as [|b|m|s|d' props'|items']; try discriminate.
    destruct (includes LF s); discriminate.
Qed.

(** Decoding the text of an encodable document gives the document back. *)
Lemma roundtrip_encodable (v : Value) (header : bool) :
  encodable Root v -> loadsArion (dumpsArion v header) = Ok v.
Proof.
  intro Hroot. destruct (encodable_root v Hroot) as (Hcomp & Hv & Hne).
  assert (Hlines : forallb lineOk (encodeBlock v 0) = true).
  { pose proof (lines_back v) as H.
    destruct v; try contradiction; now destruct (H 0 Hv). }
  unfold loadsArion, dumpsArion. rewrite (tokenize_dump header _ Hlines).
  fold (blockTokens v 0).
  assert (Hparse :
    parseBlock (blockTokens v 0) (S (List.length (blockTokens v 0))) 0 0
    = Ok (List.length (blockTokens v 0), v)).
  { unfold parseBlock.
    apply (parsesBack_apply v Hcomp (parse_back v) 0 (blockTokens v 0) [] []
             (S (List.length (blockTokens v 0))) 0 Hv);
      [now rewrite app_nil_r | lia | exact I | lia]. }
  destruct (blockTokens_cases v 0 Hcomp Hv) as [[E _] | (c & r & more & E & _)].
  - unfold blockTokens in E. destruct (encodeBlock v 0); [congruence | discriminate].
  - cbv zeta. rewrite E in *. now rewrite Hparse.
Qed.

(** C1, as the code has it.  For every document within [encodable Root]
    (an object or an array with at least one member, built from the values
    that the text format carries), with or without header, decoding the
    encoding gives a tree equal to the document, the order of the keys
    included. *)
Theorem document_roundtrip (v : Value) (header : bool) :
  encodable Root v -> loadsArion (dumpsArion v header) = Ok v.
Proof. apply roundtrip_encodable. Qed.

Lemma single_entry_encodable (k : string) (w : Value) :
  keyOk k = true -> k <> "__proto__" -> encodable Entry w ->
  encodable Root (Object false [(k, w)]).
Proof.
  intros Hk Hp Hw. rewrite encodable_Object.
  split; [reflexivity|]. split; [intros _; discriminate|]. split.
  - unfold buildObject. cbn [fold_left fst snd emptyObject objSet hasOwn].
    apply String.eqb_neq in Hp. rewrite Hp. cbn [andb].
    unfold defineOwn. destruct (arrayIndex k); reflexivity.
  - cbn [entriesOk fold_right]. auto.
Qed.

Lemma literal_plainText (s : string) :
  numericLiteral s = true -> plainText s = true /\ isNumberLike s = true.
Proof.
  intro H. pose proof H as Hlit. apply numericLiteral_chars in H as [Hc _].
  pose proof (numChars_trim _ Hc) as Htrim. split.
  - unfold plainText.
    rewrite (allChars_includes numChar LF s eq_refl Hc), Htrim,
      String.eqb_refl, (numChars_no_quote _ Hc).
    reflexivity.
  - unfold isNumberLike. now rewrite (jsonBody_trimmed _ Htrim).
Qed.

(** C4. For the texts [true], [false], [null] and every number literal
    [s], the object holding [s] under the key [k] is encoded as the one
    line [.k 's], the scalar part opened by the quote marker, and decoding
    that text gives the object back with the string [s] under [k].  The
    key is [k] as the specification writes it, or any other key that a marker line
    carries. *)
Theorem quoted_string_roundtrip (k s : string) (header : bool) :
  keyOk k = true -> k <> "__proto__" ->
  s = "true" \/ s = "false" \/ s = "null" \/ numericLiteral s = true ->
  encodeBlock (Object false [(k, Str s)]) 0
  = [("." ++ k ++ " " ++ String "'" s)%string]
  /\ loadsArion (dumpsArion (Object false [(k, Str s)]) header)
     = Ok (Object false [(k, Str s)]).
Proof.
  intros Hk Hp Hs.
  assert (H : plainText s = true
              /\ (String.eqb s "true" || String.eqb s "false"
                  || String.eqb s "null" || isNumberLike s) = true).
  { destruct Hs as [-> | [-> | [-> | Hlit]]]; try (split; reflexivity).
    destruct (literal_plainText s Hlit) as [H1 H2].
    split; [exact H1 | now rewrite H2, !orb_true_r]. }
  destruct H as [Hplain Hquote]. split.
  - rewrite encodeBlock_Object. cbn [flat_map encodeEntry app].
    apply plainText_facts in Hplain as (-> & _).
    cbn [encodeScalar spaces]. now rewrite Hquote.
  - apply roundtrip_encodable, single_entry_encodable; auto.
    simpl. now left.
Qed.

(** C5, as the code has it.  For every string with a line feed whose lines
    satisfy [segmentOk] (not blank, not opened by a space, a dot, a dash, a
    hash or [!ARION], not closed by a carriage return), held under a key
    that a marker line carries: the encoder pushes the marker line and one
    line per line of the string, and decoding gives the string back, each
    line as it was and as many as there were. *)
Theorem multiline_roundtrip (k s : string) (header : bool) :
  keyOk k = true -> k <> "__proto__" -> multilineOk s = true ->
  encodeBlock (Object false [(k, Str s)]) 0
  = ("." ++ k)%string :: map (fun line => ("  " ++ line)%string) (splitNewline s)
  /\ loadsArion (dumpsArion (Object false [(k, Str s)]) header)
     = Ok (Object false [(k, Str s)]).
Proof.
  intros Hk Hp Hs. split.
  - rewrite encodeBlock_Object. cbn [flat_map encodeEntry app].
    apply multilineOk_facts in Hs as [-> _]. apply app_nil_r.
  - apply roundtrip_encodable, single_entry_encodable; auto.
    simpl. now right.
Qed.

(** * Further properties of the decoder *)

(** ** The shape of decoded values *)

Lemma fold_entries (Q : Value -> Prop) (props : list (string * Value)) :
  fold_right (fun entry rest => match entry with (_, w) => Q w /\ rest end)
             True props
  <-> Forall (fun e => Q (snd e)) props.
Proof.
  induction props as [|[k w] ps IH]; simpl.
  - split; [constructor | trivial].
  - rewrite IH. split.
    + intros [H1 H2]. now constructor.
    + intro H. inversion H; subst. now split.
Qed.

Lemma fold_items (Q : Value -> Prop) (items : list Value) :
  fold_right (fun w rest => Q w /\ rest) True items <-> Forall Q items.
Proof.
  induction items as [|w ws IH]; simpl.
  - split; [constructor | trivial].
  - rewrite IH. split.
    + intros [H1 H2]. now constructor.
    + intro H. inversion H; subst. now split.
Qed.

Lemma treeAll_Object (P : Value -> Prop) (d : bool) (props : list (string * Value)) :
  treeAll P (Object d props)
  <-> P (Object d props) /\ Forall (fun e => treeAll P (snd e)) props.
Proof. cbn [treeAll]. now rewrite fold_entries. Qed.

Lemma treeAll_Array (P : Value -> Prop) (items : list Value) :
  treeAll P (Array items) <-> P (Array items) /\ Forall (treeAll P) items.
Proof. cbn [treeAll]. now rewrite fold_items. Qed.

Lemma treeAll_node (P : Value -> Prop) (v : Value) : treeAll P v -> P v.
Proof. destruct v; cbn [treeAll]; tauto. Qed.

(** A property of all nodes passes to a weaker one. *)
Lemma treeAll_impl (P Q : Value -> Prop) (v : Value) :
  (forall x, P x -> Q x) -> treeAll P v -> treeAll Q v.
Proof.
  intro HPQ.
  induction v as [ | b | m | s | d props IH | items IH] using Value_ind';
    try (cbn [treeAll]; intros [H _]; split; [now apply HPQ | exact I]).
  - rewrite !treeAll_Object. intros [H1 H2]. split; [now apply HPQ|].
    clear H1. induction IH as [|e ps He _ IHps]; [constructor|].
    inversion H2; subst. constructor; auto.
  - rewrite !treeAll_Array. intros [H1 H2]. split; [now apply HPQ|].
    clear H1. induction IH as [|w ws Hw _ IHws]; [constructor|].
    inversion H2; subst. constructor; auto.
Qed.

Lemma parseScalar_tree (raw : string) : treeAll decodedNode (parseScalar raw).
Proof.
  unfold parseScalar.
  repeat match goal with
         | |- context [if ?b then _ else _] => destruct b
         end;
    (split; [split; [discriminate | exact I] | exact I]).
Qed.

Lemma emptyObject_tree : treeAll decodedNode (Object false []).
Proof.
  apply treeAll_Object. split; [|constructor].
  split; [discriminate|]. split; constructor.
Qed.

Lemma insertIndex_perm n key v props :
  Permutation (insertIndex n key v props) ((key, v) :: props).
Proof.
  induction props as [|[k w] ps IH]; simpl; [reflexivity|].
  destruct (arrayIndex k) as [m|]; [destruct (n <? m)%N|]; try reflexivity.
  rewrite IH. apply perm_swap.
Qed.

Lemma defineOwn_perm key v props :
  Permutation (defineOwn key v props) ((key, v) :: props).
Proof.
  unfold defineOwn. destruct (arrayIndex key).
  - apply insertIndex_perm.
  - symmetry. apply Permutation_cons_append.
Qed.

Lemma replaceOwn_values (Q : Value -> Prop) key v props :
  Q v -> Forall (fun e => Q (snd e)) props ->
  Forall (fun e => Q (snd e)) (replaceOwn key v props).
Proof.
  intros Hv. induction props as [|[k w] ps IH]; simpl; intro H; [constructor|].
  inversion H; subst. destruct (String.eqb k key); constructor; auto.
Qed.

(** An assignment keeps the keys distinct and free of spaces. *)
Lemma objSet_inv (key : string) (v : Value) (obj : JsObject) :
  includes SP key = false -> treeAll decodedNode v ->
  objInv obj -> objInv (objSet key v obj).
Proof.
  destruct obj as [d props]. unfold objInv, ownKeys, objSet. simpl.
  intros Hk Hv (Hnd & Hsp & Hvals).
  destruct (hasOwn key props) eqn:Hown.
  - simpl. rewrite replaceOwn_keys. repeat split; auto.
    now apply replaceOwn_values.
  - assert (Hnew : NoDup (map fst (defineOwn key v props))
                   /\ Forall (fun k => includes SP k = false)
                             (map fst (defineOwn key v props))
                   /\ Forall (fun e => treeAll decodedNode (snd e))
                             (defineOwn key v props)).
    { pose proof (defineOwn_perm key v props) as Hp.
      assert (Hnotin : ~ In key (map fst props)).
      { intro Hin. apply hasOwn_In in Hin. congruence. }
      repeat split.
      - eapply Permutation_NoDup;
          [symmetry; apply Permutation_map; exact Hp|].
        simpl. now constructor.
      - eapply Permutation_Forall;
          [symmetry; apply Permutation_map; exact Hp|].
        simpl. now constructor.
      - eapply Permutation_Forall; [symmetry; exact Hp|].
        now constructor. }
    destruct (String.eqb key "__proto__" && negb d); [|exact Hnew].
    destruct v; simpl; auto.
Qed.

Lemma indexOf_some_key (c : string) (i : nat) :
  indexOf SP c = Some i -> includes SP (sliceTo i c) = false.
Proof.
  revert i. induction c as [|x c IH]; simpl; intros i H; [discriminate|].
  destruct (Ascii.eqb x SP) eqn:E.
  - injection H as <-. reflexivity.
  - destruct (indexOf SP c) as [j|]; [|discriminate].
    injection H as <-. simpl. now rewrite E, (IH j eq_refl).
Qed.

Lemma indexOf_none_key (c : string) :
  indexOf SP c = None -> includes SP c = false.
Proof.
  induction c as [|x c IH]; simpl; intro H; [reflexivity|].
  destruct (Ascii.eqb x SP); [discriminate|].
  destruct (indexOf SP c); [discriminate|]. now apply IH.
Qed.

Lemma arrInv_push (arr : option (list Value)) (v : Value) :
  arrInv arr -> treeAll decodedNode v -> arrInv (Some (arrItems arr ++ [v])).
Proof.
  intros Ha Hv. split.
  - destruct (arrItems arr); discriminate.
  - apply Forall_app. split; [|now constructor].
    destruct arr as [a|]; simpl in *; [tauto | constructor].
Qed.

Lemma blockStep_inv
  (lines : list Line) (call : nat -> nat -> outcome (nat * Value))
  (index ci : nat) (obj : JsObject) (arr : option (list Value))
  (index' : nat) (obj' : JsObject) (arr' : option (list Value)) :
  (forall i c i' v, call i c = Ok (i', v) -> treeAll decodedNode v) ->
  objInv obj -> arrInv arr ->
  blockStep lines call index ci obj arr = Continue index' obj' arr' ->
  objInv obj' /\ arrInv arr'.
Proof.
  intros Hcall Ho Ha H. unfold blockStep in H. step_cases;
    (split;
     [ first [ exact Ho
             | apply objSet_inv;
               [ first [ now apply indexOf_some_key | now apply indexOf_none_key ]
               | first [ apply parseScalar_tree | apply emptyObject_tree
                       | (split; [split; [discriminate | exact I] | exact I])
                       | eapply Hcall; eassumption ]
               | exact Ho ] ]
     | first [ exact Ha
             | apply arrInv_push;
               [ exact Ha
               | first [ apply parseScalar_tree | apply emptyObject_tree
                       | eapply Hcall; eassumption ] ] ] ]).
Qed.

(** Every value that a block returns has its arrays non-empty and its keys
    distinct and free of spaces, all the way down. *)
Lemma parseLoop_tree (lines : list Line) (fuel : nat) :
  forall index ci obj arr i v,
    objInv obj -> arrInv arr ->
    parseLoop lines fuel index ci obj arr = Ok (i, v) ->
    treeAll decodedNode v.
Proof.
  induction fuel as [|fuel IH]; intros index ci obj arr i v Ho Ha H;
    [discriminate|].
  rewrite parseLoop_S in H.
  destruct (blockStep lines _ index ci obj arr) as [i1 o1 a1| | |] eqn:Hstep;
    try discriminate.
  - apply blockStep_inv in Hstep as [Ho1 Ha1]; auto.
    + eapply IH; eassumption.
    + intros j c j' w Hn. unfold nested in Hn. eapply IH; [| |exact Hn].
      * repeat split; constructor.
      * exact I.
  - unfold blockResult in H. destruct arr as [a|].
    + destruct (ownKeys obj); [|discriminate]. injection H as _ <-.
      destruct Ha as [Hne Hall]. apply treeAll_Array. split; [|exact Hall].
      split; [|exact I]. intro E. injection E as E. contradiction.
    + injection H as _ <-. destruct Ho as (H1 & H2 & H3).
      apply treeAll_Object. split; [|exact H3]. split; [discriminate|].
      split; assumption.
Qed.

Lemma loadsArion_tree (text : string) (v : Value) :
  loadsArion text = Ok v -> treeAll decodedNode v.
Proof.
  unfold loadsArion. destruct (tokenizeLines text) as [|[f s] rest].
  - intros [= <-]. split; [split; [discriminate | exact I] | exact I].
  - unfold parseBlock.
    destruct (parseLoop _ _ 0 f emptyObject None) as [[i w]| |] eqn:H;
      try discriminate.
    intros [= <-]. eapply parseLoop_tree; [| |exact H].
    + repeat split; constructor.
    + exact I.
Qed.

(** X9. The decoder never returns an empty array, at the root or anywhere
    inside the tree. *)
Theorem decoded_arrays_not_empty (text : string) (v : Value) :
  loadsArion text = Ok v -> treeAll notEmptyArray v.
Proof.
  intro H. apply (treeAll_impl decodedNode); [|exact (loadsArion_tree text v H)].
  intros x [Hx _]. exact Hx.
Qed.

(** X10. In every object of a decoded tree the keys are pairwise distinct
    and none holds a space. *)
Theorem decoded_keys_distinct (text : string) (v : Value) :
  loadsArion text = Ok v -> treeAll keysDistinct v.
Proof.
  intro H. apply (treeAll_impl decodedNode); [|exact (loadsArion_tree text v H)].
  intros x [_ Hx]. exact Hx.
Qed.

Lemma parseLoop_shape (lines : list Line) (fuel : nat) :
  forall index ci obj arr i w,
    parseLoop lines fuel index ci obj arr = Ok (i, w) ->
    (exists d props, w = Object d props) \/ exists items, w = Array items.
Proof.
  induction fuel as [|fuel IH]; intros index ci obj arr i w Hp; [discriminate|].
  rewrite parseLoop_S in Hp.
  destruct (blockStep lines _ index ci obj arr) as [i1 o1 a1| | |];
    try discriminate.
  - eapply IH; exact Hp.
  - unfold blockResult in Hp. destruct arr as [a|].
    + destruct (ownKeys obj); [|discriminate]. injection Hp as _ <-.
      right. now exists a.
    + injection Hp as _ <-. left. now exists (fst obj), (snd obj).
Qed.

(** X8. The decoder returns [null] exactly for a text without structural
    line, and otherwise an object or a non-empty array: never a bare
    string, number or boolean. *)
Theorem loadsArion_root_shape (text : string) (v : Value) :
  loadsArion text = Ok v ->
  match v with
  | Null => tokenizeLines text = []
  | Object _ _ => tokenizeLines text <> []
  | Array items => tokenizeLines text <> [] /\ items <> []
  | _ => False
  end.
Proof.
  intro H. pose proof (loadsArion_tree text v H) as Ht.
  unfold loadsArion in H. destruct (tokenizeLines text) as [|[f s] rest].
  - now injection H as <-.
  - unfold parseBlock in H.
    destruct (parseLoop _ _ 0 f emptyObject None) as [[i w]| |] eqn:Hp;
      try discriminate.
    injection H as <-.
    destruct (parseLoop_shape _ _ _ _ _ _ _ _ Hp)
      as [(d & props & ->) | (items & ->)].
    + discriminate.
    + split; [discriminate|]. apply treeAll_node in Ht as [Hne _].
      intros ->. now apply Hne.
Qed.

(** ** What the errors say *)

Lemma blockStep_fail
  (lines : list Line) (call : nat -> nat -> outcome (nat * Value))
  (index ci : nat) (obj : JsObject) (arr : option (list Value)) (e : error) :
  blockStep lines call index ci obj arr = Fail e ->
  (exists i c, call i c = Throw e)
  \/ exists indent stripped,
       nth_error lines index = Some (indent, stripped)
       /\ isStructural stripped = false
       /\ e = InvalidLine indent stripped.
Proof.
  intro H. unfold blockStep in H. step_cases;
    try (left; eexists; eexists;
         match goal with
         | E : call _ _ = Throw _, F : Fail _ = Fail _ |- _ =>
             injection F as <-; exact E
         end).
  right. injection H as <-. do 2 eexists. split; [reflexivity|].
  split; [|reflexivity]. unfold isStructural.
  repeat match goal with
         | E : startsWith _ _ = false |- _ => rewrite E; clear E
         end.
  reflexivity.
Qed.

Lemma parseLoop_error_sound (lines : list Line) (fuel : nat) :
  forall index ci obj arr e,
    parseLoop lines fuel index ci obj arr = Throw e -> errorSound lines e.
Proof.
  induction fuel as [|fuel IH]; intros index ci obj arr e H; [discriminate|].
  rewrite parseLoop_S in H.
  destruct (blockStep lines _ index ci obj arr) as [i1 o1 a1| |e'|] eqn:Hstep;
    try discriminate.
  - eapply IH; exact H.
  - unfold blockResult in H. destruct arr; [destruct (ownKeys obj)|];
      try discriminate. injection H as <-. exact I.
  - injection H as <-.
    apply blockStep_fail in Hstep as [(i & c & Hc) | (n & s & Hl & Hs & ->)].
    + unfold nested in Hc. eapply IH; exact Hc.
    + split; [|exact Hs]. eapply nth_error_In; exact Hl.
Qed.

(** X11. The invalid-line error always names the indent and the text of a
    line that the tokenizer recorded for the document and that starts with
    neither a dot nor a dash. *)
Theorem invalid_line_error_sound (text : string) (indent : nat) (stripped : string) :
  loadsArion text = Throw (InvalidLine indent stripped) ->
  In (indent, stripped) (tokenizeLines text) /\ isStructural stripped = false.
Proof.
  unfold loadsArion. destruct (tokenizeLines text) as [|[f s] rest] eqn:E;
    [discriminate|].
  unfold parseBlock.
  destruct (parseLoop _ _ 0 f emptyObject None) as [[i w]|e|] eqn:H;
    try discriminate.
  intros [= ->]. exact (parseLoop_error_sound _ _ _ _ _ _ _ H).
Qed.

Lemma blockStep_arr
  (lines : list Line) (call : nat -> nat -> outcome (nat * Value))
  (index ci : nat) (obj : JsObject) (arr : option (list Value))
  (index' : nat) (obj' : JsObject) (arr' : option (list Value)) :
  blockStep lines call index ci obj arr = Continue index' obj' arr' ->
  arr' = arr
  \/ exists indent stripped,
       nth_error lines index = Some (indent, stripped)
       /\ startsWith "-" stripped = true.
Proof.
  intro H. unfold blockStep in H. step_cases;
    first [ now left | right; do 2 eexists; split; [reflexivity | assumption] ].
Qed.

Lemma blockStep_obj
  (lines : list Line) (call : nat -> nat -> outcome (nat * Value))
  (index ci : nat) (obj : JsObject) (arr : option (list Value))
  (index' : nat) (obj' : JsObject) (arr' : option (list Value)) :
  blockStep lines call index ci obj arr = Continue index' obj' arr' ->
  obj' = obj
  \/ exists indent stripped,
       nth_error lines index = Some (indent, stripped)
       /\ startsWith "." stripped = true.
Proof.
  intro H. unfold blockStep in H. step_cases;
    first [ now left | right; do 2 eexists; split; [reflexivity | assumption] ].
Qed.

Lemma parseLoop_mixed (lines : list Line) (fuel : nat) :
  forall index ci obj arr,
    parseLoop lines fuel index ci obj arr = Throw MixedContainer ->
    (ownKeys obj <> [] \/ hasKeyLine lines)
    /\ (arr <> None \/ hasItemLine lines).
Proof.
  induction fuel as [|fuel IH]; intros index ci obj arr H; [discriminate|].
  rewrite parseLoop_S in H.
  destruct (blockStep lines _ index ci obj arr) as [i1 o1 a1| |e'|] eqn:Hstep;
    try discriminate.
  - apply IH in H as [H1 H2]. split.
    + destruct H1 as [H1 | H1]; [|now right].
      destruct (blockStep_obj _ _ _ _ _ _ _ _ _ Hstep) as [-> | (n & s & Hl & Hs)];
        [now left|].
      right. exists n, s. split; [eapply nth_error_In; exact Hl | exact Hs].
    + destruct H2 as [H2 | H2]; [|now right].
      destruct (blockStep_arr _ _ _ _ _ _ _ _ _ Hstep) as [-> | (n & s & Hl & Hs)];
        [now left|].
      right. exists n, s. split; [eapply nth_error_In; exact Hl | exact Hs].
  - unfold blockResult in H. destruct arr as [a|]; [|discriminate].
    destruct (ownKeys obj); [discriminate|]. split; left; discriminate.
  - injection H as ->.
    apply blockStep_fail in Hstep as [(i & c & Hc) | (n & s & _ & _ & He)];
      [|discriminate].
    unfold nested in Hc. apply IH in Hc as [[H1 | H1] [H2 | H2]];
      try (exfalso; now apply H1); try (exfalso; now apply H2).
    now split; right.
Qed.

(** X12. The mixed-container error is raised only for a document that has
    both a line starting with a dot and a line starting with a dash. *)
Theorem mixed_error_needs_both_markers (text : string) :
  loadsArion text = Throw MixedContainer ->
  hasKeyLine (tokenizeLines text) /\ hasItemLine (tokenizeLines text).
Proof.
  unfold loadsArion. destruct (tokenizeLines text) as [|[f s] rest] eqn:E;
    [discriminate|].
  unfold parseBlock.
  destruct (parseLoop _ _ 0 f emptyObject None) as [[i w]|e|] eqn:H;
    try discriminate.
  intros [= ->]. apply parseLoop_mixed in H as [[H1 | H1] [H2 | H2]];
    try (exfalso; now apply H1); try (exfalso; now apply H2).
  now split.
Qed.

(** ** Where a block ends *)

Lemma skipn_nth_error (lines : list Line) (i : nat) :
  match nth_error lines i with
  | None => skipn i lines = []
  | Some x => exists rest, skipn i lines = x :: rest
  end.
Proof.
  revert i. induction lines as [|l ls IH]; intros [|i]; simpl;
    try reflexivity.
  - now exists ls.
  - apply IH.
Qed.

Lemma blockStep_exit_inv
  (lines : list Line) (call : nat -> nat -> outcome (nat * Value))
  (index ci : nat) (obj : JsObject) (arr : option (list Value)) :
  blockStep lines call index ci obj arr = Exit ->
  below ci (skipn index lines).
Proof.
  intro H. unfold blockStep in H.
  pose proof (skipn_nth_error lines index) as Hs.
  destruct (nth_error lines index) as [[n s]|].
  - destruct Hs as [rest ->]. simpl.
    destruct (n <? ci)%nat eqn:E; [now apply Nat.ltb_lt in E|].
    step_cases.
  - now rewrite Hs.
Qed.

Lemma collectMultiline_length (childIndent : nat) (rest : list Line) :
  List.length (collectMultiline childIndent rest) <= List.length rest.
Proof.
  induction rest as [|[ci cs] rest IH]; simpl; [lia|].
  destruct (ci <? childIndent)%nat; simpl; [lia|].
  destruct ((ci =? childIndent)%nat && negb (isStructural cs)); simpl; lia.
Qed.

Lemma blockStep_bound
  (lines : list Line) (call : nat -> nat -> outcome (nat * Value))
  (index ci : nat) (obj : JsObject) (arr : option (list Value))
  (index' : nat) (obj' : JsObject) (arr' : option (list Value)) :
  (forall i c i' v, i <= List.length lines -> call i c = Ok (i', v) ->
                    i' <= List.length lines) ->
  blockStep lines call index ci obj arr = Continue index' obj' arr' ->
  index' <= List.length lines.
Proof.
  intros Hcall H.
  assert (Hlen : index < List.length lines).
  { eapply blockStep_exit_length. rewrite H. discriminate. }
  unfold blockStep in H. step_cases; try lia;
    try (match goal with
         | E : call _ _ = Ok _ |- _ => apply Hcall in E; [exact E | lia]
         end).
  match goal with
  | |- context [collectMultiline ?n ?r] =>
      pose proof (collectMultiline_length n r) as Hb
  end.
  rewrite length_skipn in Hb. lia.
Qed.

Lemma parseLoop_bound (lines : list Line) (fuel : nat) :
  forall index ci obj arr i v,
    index <= List.length lines ->
    parseLoop lines fuel index ci obj arr = Ok (i, v) ->
    i <= List.length lines.
Proof.
  induction fuel as [|fuel IH]; intros index ci obj arr i v Hidx H;
    [discriminate|].
  rewrite parseLoop_S in H.
  destruct (blockStep lines _ index ci obj arr) as [i1 o1 a1| | |] eqn:Hstep;
    try discriminate.
  - apply blockStep_bound in Hstep.
    + eapply IH; eassumption.
    + intros j c j' w Hj Hn. unfold nested in Hn. eapply IH; eassumption.
  - apply blockResult_index in H. lia.
Qed.

(** X13. The index that a block returns is not before the index it was
    entered at and not past the end of the lines, and the line standing
    there, if any, is indented less than the threshold of the block. *)
Theorem block_ends_at_dedent
  (lines : list Line) (fuel index ci : nat) (i : nat) (v : Value) :
  index <= List.length lines ->
  parseBlock lines fuel index ci = Ok (i, v) ->
  index <= i <= List.length lines /\ below ci (skipn i lines).
Proof.
  intros Hidx H. unfold parseBlock in H. split.
  - split; [eapply parseLoop_index | eapply parseLoop_bound]; eassumption.
  - clear Hidx. revert H. generalize emptyObject, (@None (list Value)), index.
    induction fuel as [|fuel IH]; intros obj arr idx H; [discriminate|].
    rewrite parseLoop_S in H.
    destruct (blockStep lines _ idx ci obj arr) as [i1 o1 a1| | |] eqn:Hstep;
      try discriminate.
    + eapply IH; exact H.
    + pose proof (blockResult_index _ _ _ _ _ H) as ->.
      eapply blockStep_exit_inv; exact Hstep.
Qed.

(** ** The own lines of a block *)

Lemma skipn_cons_nth (lines : list Line) (i : nat) (x : Line) :
  nth_error lines i = Some x -> skipn i lines = x :: skipn (S i) lines.
Proof.
  revert i. induction lines as [|l ls IH]; intros [|i]; simpl;
    try discriminate.
  - now intros [= ->].
  - apply IH.
Qed.

Lemma deeperRun_split (ci c : nat) (rest : list Line) :
  ci <= c ->
  deeperRun ci rest
  = deeperRun c rest + deeperRun ci (skipn (deeperRun c rest) rest).
Proof.
  intro Hc. induction rest as [|[n s] rest IH]; [reflexivity|].
  cbn [deeperRun]. destruct (n <? c)%nat eqn:E; [reflexivity|].
  apply Nat.ltb_ge in E.
  assert (E' : (n <? ci)%nat = false) by (apply Nat.ltb_ge; lia).
  rewrite E'. cbn [skipn Nat.add]. now rewrite <- IH.
Qed.

Lemma deeperRun_multiline (ci c : nat) (rest : list Line) :
  ci <= c ->
  deeperRun ci rest
  = List.length (collectMultiline c rest)
    + deeperRun ci (skipn (List.length (collectMultiline c rest)) rest).
Proof.
  intro Hc. induction rest as [|[n s] rest IH]; [reflexivity|].
  cbn [collectMultiline]. destruct (n <? c)%nat eqn:E; [reflexivity|].
  destruct ((n =? c)%nat && negb (isStructural s)); [|reflexivity].
  apply Nat.ltb_ge in E.
  assert (E' : (n <? ci)%nat = false) by (apply Nat.ltb_ge; lia).
  cbn [List.length skipn Nat.add deeperRun]. rewrite E'. now rewrite <- IH.
Qed.

(** The lines of an entry are indented at least as deep as its marker
    line. *)
Lemma deeperRun_entry (ci n : nat) (s : string) (rest : list Line) :
  ci <= n ->
  deeperRun ci rest
  = entryExtent n s rest + deeperRun ci (skipn (entryExtent n s rest) rest).
Proof.
  intro Hc. unfold entryExtent.
  destruct (inlineValue s); [reflexivity|].
  destruct rest as [|[n1 s1] rest]; [reflexivity|].
  destruct ((n <? n1)%nat && startsWith "." s && negb (isStructural s1)) eqn:E.
  - apply andb_true_iff in E as [E _]. apply andb_true_iff in E as [E _].
    apply Nat.ltb_lt in E. apply deeperRun_multiline. lia.
  - apply deeperRun_split. lia.
Qed.

(** Where a turn of the loop goes: past the line it stands at and past the
    lines of that line's entry. *)
Lemma blockStep_jump
  (lines : list Line) (call : nat -> nat -> outcome (nat * Value))
  (index ci : nat) (obj : JsObject) (arr : option (list Value))
  (i1 : nat) (o1 : JsObject) (a1 : option (list Value)) :
  (forall i c i' v, call i c = Ok (i', v) ->
                    i' = i + deeperRun c (skipn i lines)) ->
  blockStep lines call index ci obj arr = Continue i1 o1 a1 ->
  exists n s,
    nth_error lines index = Some (n, s) /\ ci <= n
    /\ i1 = S index + entryExtent n s (skipn (S index) lines).
Proof.
  intros Hcall H. unfold blockStep in H.
  destruct (nth_error lines index) as [[n s]|] eqn:Hl; [|discriminate].
  destruct (n <? ci)%nat eqn:Hci; [discriminate|]. apply Nat.ltb_ge in Hci.
  exists n, s. split; [reflexivity|]. split; [exact Hci|].
  replace (index + 1) with (S index) in H by lia.
  unfold entryExtent, inlineValue.
  pose proof (skipn_nth_error lines (S index)) as Hs.
  destruct (startsWith "." s) eqn:Hdot.
  - destruct (indexOf SP (sliceFrom 1 s)) as [sp|].
    { injection H as <- _ _. lia. }
    destruct (nth_error lines (S index)) as [[n1 s1]|].
    2:{ rewrite Hs. injection H as <- _ _. lia. }
    destruct Hs as [rest Hs]. rewrite Hs.
    destruct (n1 <=? n)%nat eqn:Hle.
    { apply Nat.leb_le in Hle. injection H as <- _ _.
      assert (E1 : (n <? n1)%nat = false) by (apply Nat.ltb_ge; lia).
      assert (E2 : (n1 <? n + 1)%nat = true) by (apply Nat.ltb_lt; lia).
      rewrite E1. cbn [andb deeperRun]. rewrite E2. lia. }
    apply Nat.leb_gt in Hle.
    assert (E1 : (n <? n1)%nat = true) by (apply Nat.ltb_lt; lia).
    rewrite E1. cbn [andb].
    destruct (isStructural s1);
      [ change (negb true) with false in H |- *
      | change (negb false) with true in H |- * ];
      cbv iota in H |- *.
    + destruct (call (S index) (n + 1)) as [[i' w]| |] eqn:Hn; try discriminate.
      injection H as <- _ _. apply Hcall in Hn. rewrite Hs in Hn. exact Hn.
    + injection H as <- _ _. rewrite <- Hs. cbn [skipn Nat.add]. reflexivity.
  - destruct (startsWith "-" s); [|discriminate].
    destruct (isEmpty (trim (sliceFrom 1 s)));
      [ change (negb true) with false in H |- *
      | change (negb false) with true in H |- * ];
      cbv iota in H |- *.
    2:{ injection H as <- _ _. lia. }
    destruct (nth_error lines (S index)) as [[n1 s1]|].
    2:{ rewrite Hs. injection H as <- _ _. lia. }
    destruct Hs as [rest Hs]. rewrite Hs.
    rewrite andb_false_r. cbn [andb].
    destruct (n1 <=? n)%nat eqn:Hle.
    { apply Nat.leb_le in Hle. injection H as <- _ _.
      assert (E2 : (n1 <? n + 1)%nat = true) by (apply Nat.ltb_lt; lia).
      cbn [deeperRun]. rewrite E2. lia. }
    destruct (call (S index) (n + 1)) as [[i' w]| |] eqn:Hn; try discriminate.
    injection H as <- _ _. apply Hcall in Hn. rewrite Hs in Hn. exact Hn.
Qed.

(** A block that returns has read every line from its first one up to the
    first line indented less than its threshold. *)
Lemma parseLoop_extent (lines : list Line) (fuel : nat) :
  forall index ci obj arr i v,
    parseLoop lines fuel index ci obj arr = Ok (i, v) ->
    i = index + deeperRun ci (skipn index lines).
Proof.
  induction fuel as [|fuel IH]; intros index ci obj arr i v H; [discriminate|].
  rewrite parseLoop_S in H.
  destruct (blockStep lines _ index ci obj arr) as [i1 o1 a1| | |] eqn:Hstep;
    try discriminate.
  - apply IH in H.
    apply blockStep_jump in Hstep as (n & s & Hl & Hci & ->);
      [|intros j c j' w Hn; unfold nested in Hn; now apply IH in Hn].
    rewrite (skipn_cons_nth _ _ _ Hl). cbn [deeperRun].
    assert (E : (n <? ci)%nat = false) by (apply Nat.ltb_ge; lia).
    rewrite E, (deeperRun_entry ci n s _ Hci), skipn_skipn.
    rewrite H. rewrite (Nat.add_comm (entryExtent _ _ _) (S index)). lia.
  - apply blockResult_index in H. subst i.
    apply blockStep_exit_inv in Hstep.
    destruct (skipn index lines) as [|[n s] rest]; [simpl; lia|].
    simpl in Hstep. apply Nat.ltb_lt in Hstep. cbn [deeperRun].
    rewrite Hstep. lia.
Qed.

Lemma ownLines_skip (ci : nat) (rest : list Line) :
  forall k pos, ownLines ci k pos rest = ownLines ci 0 (pos + k) (skipn k rest).
Proof.
  induction rest as [|[n s] rest IH]; intros k pos.
  - now rewrite skipn_nil.
  - destruct k as [|k].
    + now rewrite Nat.add_0_r.
    + cbn [ownLines skipn]. rewrite IH. f_equal. lia.
Qed.

Lemma blockLines_step
  (lines : list Line) (fuel index ci : nat) (obj : JsObject)
  (arr : option (list Value))
  (i1 : nat) (o1 : JsObject) (a1 : option (list Value)) :
  blockStep lines (nested lines fuel) index ci obj arr = Continue i1 o1 a1 ->
  exists n s,
    nth_error lines index = Some (n, s) /\ ci <= n
    /\ blockLines lines index ci = (index, s) :: blockLines lines i1 ci.
Proof.
  intro Hstep.
  apply blockStep_jump in Hstep as (n & s & Hl & Hci & ->);
    [|intros j c j' w Hn; unfold nested in Hn;
      now apply parseLoop_extent in Hn].
  exists n, s. split; [exact Hl|]. split; [exact Hci|].
  unfold blockLines. rewrite (skipn_cons_nth _ _ _ Hl). cbn [ownLines].
  assert (E : (n <? ci)%nat = false) by (apply Nat.ltb_ge; lia).
  rewrite E, ownLines_skip, skipn_skipn. f_equal.
  now rewrite (Nat.add_comm (entryExtent _ _ _) (S index)).
Qed.

Lemma blockLines_exit
  (lines : list Line) (call : nat -> nat -> outcome (nat * Value))
  (index ci : nat) (obj : JsObject) (arr : option (list Value)) :
  blockStep lines call index ci obj arr = Exit ->
  blockLines lines index ci = [].
Proof.
  intro H. apply blockStep_exit_inv in H. unfold blockLines.
  destruct (skipn index lines) as [|[n s] rest]; [reflexivity|].
  simpl in H. apply Nat.ltb_lt in H. cbn [ownLines]. now rewrite H.
Qed.

(** The key lines that the loop of a returning block has met are the key
    lines among its own lines. *)
Lemma declaredKeys_keyLines (lines : list Line) (fuel : nat) :
  forall index ci obj arr r,
    parseLoop lines fuel index ci obj arr = Ok r ->
    declaredKeys lines fuel index ci obj arr = keyLines lines index ci.
Proof.
  induction fuel as [|fuel IH]; intros index ci obj arr r H; [discriminate|].
  rewrite parseLoop_S in H. rewrite declaredKeys_S. unfold keyLines.
  destruct (blockStep lines _ index ci obj arr) as [i1 o1 a1| | |] eqn:Hstep;
    try discriminate.
  - apply IH in H.
    destruct (blockLines_step _ _ _ _ _ _ _ _ _ Hstep) as (n & s & Hl & _ & ->).
    rewrite Hl. cbn [filter snd].
    destruct (startsWith "." s); [cbn [map fst snd]; f_equal|]; exact H.
  - now rewrite (blockLines_exit _ _ _ _ _ _ Hstep).
Qed.

(** The loop of a returning block comes to stand at each of its own
    lines. *)
Lemma blockLines_turns (lines : list Line) (ci : nat) (fuel : nat) :
  forall index obj arr r i s,
    parseLoop lines fuel index ci obj arr = Ok r ->
    In (i, s) (blockLines lines index ci) ->
    exists fuel' obj' arr' n,
      turns lines ci fuel index obj arr fuel' i obj' arr'
      /\ nth_error lines i = Some (n, s) /\ ci <= n.
Proof.
  induction fuel as [|fuel IH]; intros index obj arr r i s H Hin;
    [discriminate|].
  rewrite parseLoop_S in H.
  destruct (blockStep lines _ index ci obj arr) as [i1 o1 a1| | |] eqn:Hstep;
    try discriminate.
  - destruct (blockLines_step _ _ _ _ _ _ _ _ _ Hstep) as (n & s0 & Hl & Hci & E).
    rewrite E in Hin. destruct Hin as [[= <- <-] | Hin].
    + exists (S fuel), obj, arr, n. split; [apply turns_here | now split].
    + destruct (IH _ _ _ _ _ _ H Hin) as (f' & o' & a' & n' & T & Hl' & Hci').
      exists f', o', a', n'. split; [|now split].
      eapply turns_next; eassumption.
  - now rewrite (blockLines_exit _ _ _ _ _ _ Hstep) in Hin.
Qed.

(** ** Array indices among the keys *)

Lemma isDigit_value (c : ascii) :
  isDigit c = true -> (N.of_nat (nat_of_ascii c - 48) <= 9)%N.
Proof.
  unfold isDigit. intro H. apply andb_true_iff in H as [H1 H2].
  apply Nat.leb_le in H1, H2. lia.
Qed.

Lemma isDigit_inj (c1 c2 : ascii) :
  isDigit c1 = true -> isDigit c2 = true ->
  N.of_nat (nat_of_ascii c1 - 48) = N.of_nat (nat_of_ascii c2 - 48) ->
  c1 = c2.
Proof.
  unfold isDigit. intros H1 H2 E.
  apply andb_true_iff in H1 as [H1 _]. apply andb_true_iff in H2 as [H2 _].
  apply Nat.leb_le in H1, H2.
  rewrite <- (ascii_nat_embedding c1), <- (ascii_nat_embedding c2).
  f_equal. lia.
Qed.

Lemma digitsValue_bounds (s : string) :
  forall acc v,
    digitsValue acc s = Some v ->
    (acc * 10 ^ N.of_nat (String.length s) <= v
     < (acc + 1) * 10 ^ N.of_nat (String.length s))%N.
Proof.
  induction s as [|c s IH]; intros acc v H; cbn [digitsValue] in H.
  - injection H as <-. cbn. lia.
  - destruct (isDigit c) eqn:Hd; [|discriminate].
    apply IH in H. pose proof (isDigit_value c Hd) as Hc.
    cbn [String.length]. rewrite Nat2N.inj_succ, N.pow_succ_r'.
    set (P := (10 ^ N.of_nat (String.length s))%N) in *.
    set (dv := N.of_nat (nat_of_ascii c - 48)) in *.
    nia.
Qed.

Lemma digitsValue_inj (s1 : string) :
  forall s2 acc v,
    String.length s1 = String.length s2 ->
    digitsValue acc s1 = Some v -> digitsValue acc s2 = Some v -> s1 = s2.
Proof.
  induction s1 as [|c1 s1 IH]; intros [|c2 s2] acc v Hlen H1 H2;
    try discriminate; [reflexivity|].
  cbn [digitsValue] in H1, H2.
  destruct (isDigit c1) eqn:D1; [|discriminate].
  destruct (isDigit c2) eqn:D2; [|discriminate].
  injection Hlen as Hlen.
  pose proof (digitsValue_bounds _ _ _ H1) as B1.
  pose proof (digitsValue_bounds _ _ _ H2) as B2.
  rewrite Hlen in B1.
  assert (HP : (0 < 10 ^ N.of_nat (String.length s2))%N)
    by (apply N.neq_0_lt_0, N.pow_nonzero; discriminate).
  set (P := (10 ^ N.of_nat (String.length s2))%N) in *.
  assert (E : N.of_nat (nat_of_ascii c1 - 48) = N.of_nat (nat_of_ascii c2 - 48)).
  { set (d1 := N.of_nat (nat_of_ascii c1 - 48)) in *.
    set (d2 := N.of_nat (nat_of_ascii c2 - 48)) in *.
    nia. }
  rewrite <- E in H2. f_equal.
  - now apply isDigit_inj.
  - eapply IH; eassumption.
Qed.

(** An array index is the text [0] or a run of digits without a leading
    zero, and its number tells the length of the run. *)
Lemma arrayIndex_digits (key : string) (n : N) :
  arrayIndex key = Some n ->
  (key = "0" /\ n = 0%N)
  \/ (digitsValue 0 key = Some n
      /\ (10 ^ N.of_nat (String.length key - 1) <= n
          < 10 ^ N.of_nat (String.length key))%N).
Proof.
  unfold arrayIndex. destruct key as [|c r]; [discriminate|].
  destruct (Ascii.eqb c "0") eqn:E0.
  - apply Ascii.eqb_eq in E0. subst c.
    destruct (isEmpty r) eqn:Er; [|discriminate].
    intros [= <-]. left. now rewrite (isEmpty_true _ Er).
  - destruct (isDigit19 c) eqn:E19; [|discriminate].
    destruct (digitsValue 0 (String c r)) as [m|] eqn:Hd; [|discriminate].
    destruct (m <? 4294967295)%N; [|discriminate].
    intros [= <-]. right. split; [reflexivity|].
    cbn [digitsValue] in Hd. destruct (isDigit c) eqn:Hc; [|discriminate].
    apply digitsValue_bounds in Hd.
    unfold isDigit19 in E19. apply andb_true_iff in E19 as [E1 E2].
    apply Nat.leb_le in E1, E2.
    cbn [String.length]. rewrite Nat.sub_succ, Nat.sub_0_r, Nat2N.inj_succ.
    rewrite N.pow_succ_r'.
    set (P := (10 ^ N.of_nat (String.length r))%N) in *.
    assert (D1 : (1 <= N.of_nat (nat_of_ascii c - 48))%N) by lia.
    assert (D2 : (N.of_nat (nat_of_ascii c - 48) <= 9)%N) by lia.
    set (dv := N.of_nat (nat_of_ascii c - 48)) in *.
    nia.
Qed.

(** No two names are the same array index. *)
Lemma arrayIndex_inj (k1 k2 : string) (n : N) :
  arrayIndex k1 = Some n -> arrayIndex k2 = Some n -> k1 = k2.
Proof.
  intros H1 H2.
  apply arrayIndex_digits in H1 as [[-> ->] | [D1 B1]];
    apply arrayIndex_digits in H2 as [[-> E] | [D2 B2]].
  - reflexivity.
  - exfalso. assert (0 < 10 ^ N.of_nat (String.length k2 - 1))%N
      by (apply N.neq_0_lt_0, N.pow_nonzero; discriminate). lia.
  - exfalso. subst n. assert (0 < 10 ^ N.of_nat (String.length k1 - 1))%N
      by (apply N.neq_0_lt_0, N.pow_nonzero; discriminate). lia.
  - assert (L : String.length k1 = String.length k2).
    { assert (L1 : (N.of_nat (String.length k1 - 1) < N.of_nat (String.length k2))%N).
      { apply (N.pow_lt_mono_r_iff 10); lia. }
      assert (L2 : (N.of_nat (String.length k2 - 1) < N.of_nat (String.length k1))%N).
      { apply (N.pow_lt_mono_r_iff 10); lia. }
      destruct k1; [discriminate D1 || (cbn in D1; injection D1 as <-; cbn in B1; lia)|].
      destruct k2; [discriminate D2 || (cbn in D2; injection D2 as <-; cbn in B2; lia)|].
      cbn [String.length] in *. lia. }
    eapply digitsValue_inj; eassumption.
Qed.

Lemma indexBefore_trans (k1 k2 k3 : string) :
  indexBefore k1 k2 -> indexBefore k2 k3 -> indexBefore k1 k3.
Proof.
  unfold indexBefore.
  destruct (arrayIndex k1), (arrayIndex k2), (arrayIndex k3); try tauto. lia.
Qed.

Lemma filter_all {A : Type} (f : A -> bool) (l : list A) :
  Forall (fun x => f x = true) l -> filter f l = l.
Proof.
  induction 1 as [|x l Hx _ IH]; simpl; [reflexivity|]. now rewrite Hx, IH.
Qed.

Lemma filter_none {A : Type} (f : A -> bool) (l : list A) :
  Forall (fun x => f x = false) l -> filter f l = [].
Proof.
  induction 1 as [|x l Hx _ IH]; simpl; [reflexivity|]. now rewrite Hx, IH.
Qed.

(** [indexFirst] says that the keys split into a sorted run of array
    indices and a run of other names. *)
Lemma indexFirst_split (keys : list string) :
  indexFirst keys
  <-> exists idx rest,
        keys = idx ++ rest
        /\ Forall (fun k => isIndexKey k = true) idx
        /\ Forall (fun k => isIndexKey k = false) rest
        /\ StronglySorted indexBefore idx.
Proof.
  unfold indexFirst. split.
  - intros [E S]. exists (filter isIndexKey keys),
      (filter (fun k => negb (isIndexKey k)) keys).
    split; [exact E|]. split; [|split; [|exact S]].
    + apply Forall_forall. intros k Hk. now apply filter_In in Hk.
    + apply Forall_forall. intros k Hk. apply filter_In in Hk as [_ Hk].
      now apply negb_true_iff in Hk.
  - intros (idx & rest & -> & Hi & Hr & S).
    assert (Hi' : Forall (fun k => negb (isIndexKey k) = false) idx).
    { eapply Forall_impl; [|exact Hi]. intros k Hk. simpl. now rewrite Hk. }
    assert (Hr' : Forall (fun k => negb (isIndexKey k) = true) rest).
    { eapply Forall_impl; [|exact Hr]. intros k Hk. simpl. now rewrite Hk. }
    rewrite !filter_app, (filter_all _ _ Hi), (filter_none _ _ Hr),
      (filter_none _ _ Hi'), (filter_all _ _ Hr'), app_nil_r.
    now split.
Qed.

(** A new array index goes to its place among the array indices. *)
Lemma insertIndex_keys (n : N) (key : string) (v : Value) (rest : list string) :
  arrayIndex key = Some n ->
  Forall (fun k => isIndexKey k = false) rest ->
  forall idx props,
    map fst props = idx ++ rest ->
    Forall (fun k => isIndexKey k = true) idx ->
    StronglySorted indexBefore idx ->
    ~ In key idx ->
    exists idx',
      map fst (insertIndex n key v props) = idx' ++ rest
      /\ Forall (fun k => isIndexKey k = true) idx'
      /\ StronglySorted indexBefore idx'
      /\ forall k, In k idx' -> k = key \/ In k idx.
Proof.
  intros Hkey Hrest.
  assert (Hik : isIndexKey key = true) by (unfold isIndexKey; now rewrite Hkey).
  induction idx as [|k idx IH]; intros props Hmap Hidx Hsort Hnot.
  - exists [key]. cbn [app] in Hmap.
    assert (E : insertIndex n key v props = (key, v) :: props).
    { destruct props as [|[k w] ps]; [reflexivity|]. cbn [insertIndex].
      cbn [map fst] in Hmap. rewrite <- Hmap in Hrest.
      inversion Hrest as [|? ? Hk _]; subst. unfold isIndexKey in Hk.
      destruct (arrayIndex k); [discriminate | reflexivity]. }
    rewrite E. cbn [map fst app]. rewrite Hmap.
    split; [reflexivity|]. split; [now constructor|].
    split; [repeat constructor|]. intros k [<- | []]. now left.
  - destruct props as [|[k0 w] ps]; [discriminate|].
    cbn [map fst app] in Hmap. injection Hmap as -> Hmap.
    inversion Hidx as [|? ? Hk Hidx']; subst.
    inversion Hsort as [|? ? Hsort' Hall]; subst.
    unfold isIndexKey in Hk.
    destruct (arrayIndex k) as [m|] eqn:Hm; [|discriminate].
    cbn [insertIndex]. rewrite Hm.
    destruct (n <? m)%N eqn:E.
    + apply N.ltb_lt in E.
      assert (Hb : indexBefore key k)
        by (unfold indexBefore; now rewrite Hkey, Hm).
      exists (key :: k :: idx). cbn [map fst app]. rewrite Hmap.
      split; [reflexivity|]. split; [now constructor|].
      split.
      * constructor; [exact Hsort|]. constructor; [exact Hb|].
        eapply Forall_impl; [|exact Hall]. intros x Hx.
        eapply indexBefore_trans; eassumption.
      * intros x [<- | Hx]; [now left | now right].
    + apply N.ltb_ge in E.
      assert (Hne : m <> n).
      { intros ->. apply Hnot. left. eapply arrayIndex_inj; eassumption. }
      destruct (IH ps Hmap Hidx' Hsort' (fun H => Hnot (or_intror H)))
        as (idx' & E1 & E2 & E3 & E4).
      exists (k :: idx'). cbn [map fst app]. rewrite E1.
      split; [reflexivity|].
      split; [constructor; [unfold isIndexKey; now rewrite Hm | exact E2]|].
      split.
      * constructor; [exact E3|]. apply Forall_forall. intros x Hx.
        destruct (E4 x Hx) as [-> | Hx'].
        -- unfold indexBefore. rewrite Hm, Hkey. lia.
        -- rewrite Forall_forall in Hall. now apply Hall.
      * intros x [<- | Hx]; [right; now left|].
        destruct (E4 x Hx); [now left | right; now right].
Qed.

(** An assignment keeps the array indices first and in ascending order. *)
Lemma objSet_indexFirst (key : string) (v : Value) (obj : JsObject) :
  indexFirst (ownKeys obj) -> indexFirst (ownKeys (objSet key v obj)).
Proof.
  destruct obj as [d props]. unfold ownKeys, objSet. cbn [snd]. intro H.
  destruct (hasOwn key props) eqn:Hown.
  - cbn [snd]. now rewrite replaceOwn_keys.
  - assert (Hnew : indexFirst (map fst (defineOwn key v props))).
    { apply indexFirst_split in H as (idx & rest & E & Hi & Hr & S).
      apply indexFirst_split. unfold defineOwn.
      destruct (arrayIndex key) as [n|] eqn:Hk.
      - assert (Hnot : ~ In key idx).
        { intro Hin. assert (In key (map fst props))
            by (rewrite E; apply in_or_app; now left).
          apply hasOwn_In in H. congruence. }
        destruct (insertIndex_keys n key v rest Hk Hr idx props E Hi S Hnot)
          as (idx' & E1 & E2 & E3 & _).
        now exists idx', rest.
      - exists idx, (rest ++ [key]). rewrite map_app, E, app_assoc.
        split; [reflexivity|]. split; [exact Hi|]. split; [|exact S].
        apply Forall_app. split; [exact Hr|]. constructor; [|constructor].
        unfold isIndexKey. now rewrite Hk. }
    destruct (String.eqb key "__proto__" && negb d); [|exact Hnew].
    destruct v; exact H.
Qed.

(** What an assignment does to the list of own keys. *)
Lemma objSet_keys (key : string) (v : Value) (obj : JsObject) :
  (forall k, In k (ownKeys obj) -> In k (ownKeys (objSet key v obj)))
  /\ (forall k, In k (ownKeys (objSet key v obj)) ->
                k = key \/ In k (ownKeys obj))
  /\ (key <> "__proto__" -> In key (ownKeys (objSet key v obj))).
Proof.
  destruct obj as [d props]. unfold ownKeys, objSet. cbn [snd].
  assert (Hp : Permutation (map fst (defineOwn key v props))
                           (key :: map fst props)).
  { change (key :: map fst props) with (map fst ((key, v) :: props)).
    apply Permutation_map, defineOwn_perm. }
  destruct (hasOwn key props) eqn:Hown.
  - cbn [snd]. rewrite replaceOwn_keys.
    split; [auto|]. split; [auto|]. intros _. now apply hasOwn_In.
  - assert (Hnew :
      (forall k, In k (map fst props) -> In k (map fst (defineOwn key v props)))
      /\ (forall k, In k (map fst (defineOwn key v props)) ->
                    k = key \/ In k (map fst props))
      /\ In key (map fst (defineOwn key v props))).
    { split; [|split].
      - intros k Hk. eapply Permutation_in; [symmetry; exact Hp|]. now right.
      - intros k Hk. apply (Permutation_in _ Hp) in Hk as [<- | Hk]; auto.
      - eapply Permutation_in; [symmetry; exact Hp|]. now left. }
    destruct (String.eqb key "__proto__" && negb d) eqn:Hpr.
    + apply andb_true_iff in Hpr as [Hpr _]. apply String.eqb_eq in Hpr.
      destruct v; cbn [snd];
        (split; [auto|]; split; [auto|]; intro Hne; contradiction).
    + cbn [snd]. destruct Hnew as (H1 & H2 & H3). auto.
Qed.

(** ** The keys of a decoded object *)

(** What holds of [obj] before the loop and is kept by every assignment
    holds of the object that the block returns. *)
Lemma parseLoop_obj_inv (P : JsObject -> Prop) (lines : list Line) (fuel : nat) :
  (forall key v obj, P obj -> P (objSet key v obj)) ->
  forall index ci obj arr i d props,
    parseLoop lines fuel index ci obj arr = Ok (i, Object d props) ->
    P obj -> P (d, props).
Proof.
  intro Hset.
  induction fuel as [|fuel IH]; intros index ci obj arr i d props H Ho;
    [discriminate|].
  rewrite parseLoop_S in H.
  destruct (blockStep lines _ index ci obj arr) as [i1 o1 a1| | |] eqn:Hstep;
    try discriminate.
  - eapply IH; [exact H|].
    destruct (blockStep_obj _ _ _ _ _ _ _ _ _ Hstep)
      as [-> | (n & s & Hl & Hs)]; [exact Ho|].
    destruct (blockStep_key_line _ _ _ _ _ _ _ _ _ _ _ Hl Hs Hstep) as [[v ->] _].
    now apply Hset.
  - unfold blockResult in H. destruct arr; [destruct (ownKeys obj); discriminate|].
    injection H as _ <- <-. now destruct obj.
Qed.

(** The keys of the object that a block returns: those that [obj] had
    before the loop and those of the key lines the loop met, [__proto__]
    apart. *)
Lemma parseLoop_keys (lines : list Line) (fuel : nat) :
  forall index ci obj arr i d props,
    parseLoop lines fuel index ci obj arr = Ok (i, Object d props) ->
    forall k,
      (In k (map fst props) ->
       In k (ownKeys obj)
       \/ In k (map snd (declaredKeys lines fuel index ci obj arr)))
      /\ (In k (ownKeys obj) -> In k (map fst props))
      /\ (k <> "__proto__" ->
          In k (map snd (declaredKeys lines fuel index ci obj arr)) ->
          In k (map fst props)).
Proof.
  induction fuel as [|fuel IH]; intros index ci obj arr i d props H k;
    [discriminate|].
  rewrite parseLoop_S in H. rewrite declaredKeys_S.
  destruct (blockStep lines _ index ci obj arr) as [i1 o1 a1| | |] eqn:Hstep;
    try discriminate.
  - destruct (IH _ _ _ _ _ _ _ H k) as (K1 & K2 & K3).
    destruct (nth_error lines index) as [[n s]|] eqn:Hline.
    + destruct (startsWith "." s) eqn:Hdot.
      * destruct (blockStep_key_line _ _ _ _ _ _ _ _ _ _ _ Hline Hdot Hstep)
          as [[v ->] _].
        destruct (objSet_keys (lineKey s) v obj) as (S1 & S2 & S3).
        cbn [map snd In]. split; [|split].
        -- intro Hk. destruct (K1 Hk) as [Hk' | Hk']; [|now right; right].
           destruct (S2 _ Hk') as [-> | Hk'']; [right; now left | now left].
        -- intro Hk. apply K2, S1, Hk.
        -- intros Hne [<- | Hk]; [apply K2, S3, Hne | now apply K3].
      * rewrite (blockStep_other_line _ _ _ _ _ _ _ _ _ _ _ Hline Hdot Hstep) in *.
        now split; [|split].
    + unfold blockStep in Hstep. rewrite Hline in Hstep. discriminate.
  - unfold blockResult in H. destruct arr; [destruct (ownKeys obj); discriminate|].
    injection H as _ <- <-. unfold ownKeys. cbn [map In].
    split; [now left|]. split; [auto | intros _ []].
Qed.

(** C3, as the code has it.  The key lines among the own lines of a block
    declare the keys of the object that the block returns, and the object
    lists them as JavaScript lists the properties of an object.  The key
    lines stand in the order of the text.  The keys are pairwise distinct,
    each is the key of a key line, and every key of a key line other than
    [__proto__] is among them.  The array indices come first, in ascending
    numeric order whatever the order of their lines; the other names
    follow, and those other than [__proto__] stand in the order in which
    each was declared first.  The encoder pushes one group of lines per
    property, in the order of the properties, each opened by the marker
    line of its key. *)
Theorem key_order
  (lines : list Line) (fuel index ci index' : nat)
  (d : bool) (props : list (string * Value)) :
  parseBlock lines fuel index ci = Ok (index', Object d props) ->
  let declared := keyLines lines index ci in
  let keys := map fst props in
  (StronglySorted lt (map fst declared)
   /\ Forall (fun e => exists n s, nth_error lines (fst e) = Some (n, s)
                                   /\ startsWith "." s = true
                                   /\ lineKey s = snd e) declared)
  /\ (NoDup keys
      /\ (forall k, In k keys -> In k (map snd declared))
      /\ (forall k, k <> "__proto__" -> In k (map snd declared) -> In k keys))
  /\ (keys = filter isIndexKey keys ++ filter (fun k => negb (isIndexKey k)) keys
      /\ StronglySorted indexBefore (filter isIndexKey keys))
  /\ filter plainKey keys = firstSeen [] (map snd declared)
  /\ forall indent, exists chunks,
       encodeBlock (Object d props) indent = List.concat chunks
       /\ Forall2 (fun entry chunk => markerChunk indent (fst entry) chunk)
                  props chunks.
Proof.
  intro H. unfold parseBlock in H. cbv zeta.
  rewrite <- (declaredKeys_keyLines _ _ _ _ _ _ _ H).
  split.
  { split; [apply declaredKeys_sorted|].
    eapply Forall_impl; [|apply declaredKeys_lines].
    simpl. intros e [_ Hex]. exact Hex. }
  split.
  { split.
    - assert (T : treeAll decodedNode (Object d props)).
      { eapply parseLoop_tree; [| |exact H]; [|exact I].
        repeat split; constructor. }
      apply treeAll_node in T. now destruct T as [_ [T _]].
    - split; intros k.
      + intro Hk. destruct (parseLoop_keys _ _ _ _ _ _ _ _ _ H k) as (K1 & _ & _).
        destruct (K1 Hk) as [[] | Hd]. exact Hd.
      + intros Hne Hk.
        destruct (parseLoop_keys _ _ _ _ _ _ _ _ _ H k) as (_ & _ & K3). auto. }
  split.
  { apply (parseLoop_obj_inv (fun o => indexFirst (ownKeys o)) lines fuel
             (fun key v o => objSet_indexFirst key v o) _ _ _ _ _ _ _ H).
    split; [reflexivity | constructor]. }
  split; [exact (parseLoop_plain_keys _ _ _ _ _ _ _ _ _ H)|].
  intro indent. exists (map (encodeEntry indent) props).
  split; [rewrite encodeBlock_Object; apply flat_map_concat_map|].
  clear H. induction props as [|[k val] rest IH]; simpl; constructor.
  - apply encodeEntry_marker.
  - exact IH.
Qed.

(** ** Blocks with key lines and item lines among their own lines *)

(** X16. A block among whose own lines stand a key line with a key other
    than [__proto__] and an item line never returns a value, neither the
    object part nor the array part: with fuel for the lines left,
    [parseBlock] throws.  The error names a line of the document that is no
    marker line, or it is the mixed-container error; in a document of
    marker lines only it is the mixed-container error. *)
Theorem mixed_lines_never_return
  (lines : list Line) (fuel index ci : nat) (i j : nat) (s1 s2 : string) :
  List.length lines - index < fuel ->
  In (i, s1) (blockLines lines index ci) -> startsWith "." s1 = true ->
  lineKey s1 <> "__proto__" ->
  In (j, s2) (blockLines lines index ci) -> startsWith "-" s2 = true ->
  exists e,
    parseBlock lines fuel index ci = Throw e
    /\ errorSound lines e
    /\ (Forall (fun l => isStructural (snd l) = true) lines ->
        e = MixedContainer).
Proof.
  intros Hfuel I1 D1 Hk I2 D2. unfold parseBlock.
  destruct (parseLoop lines fuel index ci emptyObject None) as [r|e|] eqn:E.
  - exfalso.
    destruct (blockLines_turns _ _ _ _ _ _ _ _ _ E I1)
      as (f1 & o1 & a1 & n1 & T1 & L1 & C1).
    destruct (blockLines_turns _ _ _ _ _ _ _ _ _ E I2)
      as (f2 & o2 & a2 & n2 & T2 & L2 & C2).
    destruct (turns_linear _ _ _ _ _ _ _ _ _ _ _ _ _ _ T1 T2) as [T | T].
    + rewrite (turns_parseLoop _ _ _ _ _ _ _ _ _ _ T2) in E. revert E.
      eapply key_then_item_never_ok; eassumption.
    + rewrite (turns_parseLoop _ _ _ _ _ _ _ _ _ _ T1) in E. revert E.
      eapply item_then_key_never_ok; eassumption.
  - exists e. split; [reflexivity|].
    pose proof (parseLoop_error_sound _ _ _ _ _ _ _ E) as Hs.
    split; [exact Hs|]. intro Hall.
    destruct e as [n s|]; [|reflexivity]. destruct Hs as [Hin Hs].
    rewrite Forall_forall in Hall. specialize (Hall _ Hin). simpl in Hall.
    congruence.
  - exfalso. revert E. now apply parseLoop_total.
Qed.

(** ** What an assignment leaves in the object *)

Lemma getOwn_replaceOwn_same (key : string) (v : Value) (props : list (string * Value)) :
  hasOwn key props = true -> getOwn key (replaceOwn key v props) = Some v.
Proof.
  induction props as [|[k w] ps IH]; cbn [hasOwn replaceOwn]; [discriminate|].
  destruct (String.eqb k key) eqn:E; cbn [getOwn orb].
  - now rewrite E.
  - rewrite E. exact IH.
Qed.

Lemma getOwn_replaceOwn_other (key k : string) (v : Value)
  (props : list (string * Value)) :
  k <> key -> getOwn k (replaceOwn key v props) = getOwn k props.
Proof.
  intro Hne. induction props as [|[k0 w] ps IH]; cbn [replaceOwn];
    [reflexivity|].
  destruct (String.eqb k0 key) eqn:E; cbn [getOwn].
  - apply String.eqb_eq in E. subst k0.
    assert (E : String.eqb key k = false) by (apply String.eqb_neq; congruence).
    now rewrite E.
  - now rewrite IH.
Qed.

Lemma hasOwn_cons_false (key k : string) (w : Value) (ps : list (string * Value)) :
  hasOwn key ((k, w) :: ps) = false ->
  String.eqb k key = false /\ hasOwn key ps = false.
Proof. cbn [hasOwn]. intro H. now apply orb_false_iff in H. Qed.

Lemma getOwn_insertIndex_same (n : N) (key : string) (v : Value)
  (props : list (string * Value)) :
  hasOwn key props = false -> getOwn key (insertIndex n key v props) = Some v.
Proof.
  induction props as [|[k w] ps IH]; intro H; cbn [insertIndex].
  - cbn [getOwn]. now rewrite String.eqb_refl.
  - apply hasOwn_cons_false in H as [E H].
    destruct (arrayIndex k) as [m|]; [destruct (n <? m)%N|]; cbn [getOwn];
      rewrite ?String.eqb_refl, ?E; auto.
Qed.

Lemma getOwn_insertIndex_other (n : N) (key k : string) (v : Value)
  (props : list (string * Value)) :
  k <> key -> getOwn k (insertIndex n key v props) = getOwn k props.
Proof.
  intro Hne.
  assert (E : String.eqb key k = false) by (apply String.eqb_neq; congruence).
  induction props as [|[k0 w] ps IH]; cbn [insertIndex].
  - cbn [getOwn]. now rewrite E.
  - destruct (arrayIndex k0) as [m|]; [destruct (n <? m)%N|]; cbn [getOwn];
      rewrite ?E, ?IH; reflexivity.
Qed.

Lemma getOwn_app_same (key : string) (v : Value) (props : list (string * Value)) :
  hasOwn key props = false -> getOwn key (props ++ [(key, v)]) = Some v.
Proof.
  induction props as [|[k w] ps IH]; intro H; cbn [app getOwn].
  - now rewrite String.eqb_refl.
  - apply hasOwn_cons_false in H as [E H]. rewrite E. now apply IH.
Qed.

Lemma getOwn_app_other (key k : string) (v : Value) (props : list (string * Value)) :
  k <> key -> getOwn k (props ++ [(key, v)]) = getOwn k props.
Proof.
  intro Hne.
  assert (E : String.eqb key k = false) by (apply String.eqb_neq; congruence).
  induction props as [|[k0 w] ps IH]; cbn [app getOwn].
  - now rewrite E.
  - now rewrite IH.
Qed.

(** After [obj[key] = v], for a name other than [__proto__], the own
    property [key] holds [v]. *)
Lemma getOwn_objSet_same (key : string) (v : Value) (obj : JsObject) :
  key <> "__proto__" -> getOwn key (snd (objSet key v obj)) = Some v.
Proof.
  destruct obj as [d props]. unfold objSet. intro Hne.
  destruct (hasOwn key props) eqn:Hown; cbn [snd].
  - now apply getOwn_replaceOwn_same.
  - apply String.eqb_neq in Hne. rewrite Hne. cbn [andb snd].
    unfold defineOwn. destruct (arrayIndex key).
    + now apply getOwn_insertIndex_same.
    + now apply getOwn_app_same.
Qed.

(** [obj[key] = v] leaves every other own property as it was. *)
Lemma getOwn_objSet_other (key k : string) (v : Value) (obj : JsObject) :
  k <> key -> getOwn k (snd (objSet key v obj)) = getOwn k (snd obj).
Proof.
  destruct obj as [d props]. unfold objSet. intro Hne.
  destruct (hasOwn key props) eqn:Hown; cbn [snd].
  - now apply getOwn_replaceOwn_other.
  - destruct (String.eqb key "__proto__" && negb d).
    + destruct v; reflexivity.
    + cbn [snd]. unfold defineOwn. destruct (arrayIndex key).
      * now apply getOwn_insertIndex_other.
      * now apply getOwn_app_other.
Qed.

(** ** Bare marker lines in the decoded value *)

Lemma bare_key_line (s : string) :
  startsWith "." s = true -> inlineValue s = false ->
  indexOf SP (sliceFrom 1 s) = None /\ lineKey s = sliceFrom 1 s.
Proof.
  unfold inlineValue, lineKey. intros -> H.
  destruct (indexOf SP (sliceFrom 1 s)); [discriminate | now split].
Qed.

Lemma dash_not_dot (s : string) :
  startsWith "-" s = true -> startsWith "." s = false.
Proof. intro H. rewrite (startsWith_char _ _ H). apply startsWith_cons. Qed.

Lemma bare_item_line (s : string) :
  startsWith "-" s = true -> inlineValue s = false ->
  trim (sliceFrom 1 s) = "".
Proof.
  unfold inlineValue. intros Hd H. rewrite (dash_not_dot _ Hd) in H.
  apply negb_false_iff in H. now apply isEmpty_true.
Qed.

(** A property that no later key line of the block names comes out of the
    loop as it went in. *)
Lemma parseLoop_getOwn_kept (lines : list Line) (k : string) (fuel : nat) :
  forall index ci obj arr i d props,
    parseLoop lines fuel index ci obj arr = Ok (i, Object d props) ->
    Forall (fun e => startsWith "." (snd e) = true -> lineKey (snd e) <> k)
           (blockLines lines index ci) ->
    getOwn k props = getOwn k (snd obj).
Proof.
  induction fuel as [|fuel IH]; intros index ci obj arr i d props H Hall;
    [discriminate|].
  rewrite parseLoop_S in H.
  destruct (blockStep lines _ index ci obj arr) as [i1 o1 a1| | |] eqn:Hstep;
    try discriminate.
  - destruct (blockLines_step _ _ _ _ _ _ _ _ _ Hstep) as (n & s & Hl & _ & E).
    rewrite E in Hall. inversion Hall as [|? ? Hs Hrest]; subst.
    rewrite (IH _ _ _ _ _ _ _ H Hrest).
    destruct (startsWith "." s) eqn:Hdot.
    + destruct (blockStep_key_line _ _ _ _ _ _ _ _ _ _ _ Hl Hdot Hstep)
        as [[v ->] _].
      apply getOwn_objSet_other. intro Hk. apply (Hs Hdot). now symmetry.
    + now rewrite (blockStep_other_line _ _ _ _ _ _ _ _ _ _ _ Hl Hdot Hstep).
  - unfold blockResult in H. destruct arr; [destruct (ownKeys obj); discriminate|].
    now injection H as _ _ <-.
Qed.

Lemma parseLoop_bare_key
  (lines : list Line) (i n : nat) (s : string) (after : list (nat * string)) :
  nth_error lines i = Some (n, s) ->
  startsWith "." s = true -> inlineValue s = false ->
  nothingNested lines i n ->
  lineKey s <> "__proto__" ->
  Forall (fun e => startsWith "." (snd e) = true -> lineKey (snd e) <> lineKey s)
         after ->
  forall fuel before index ci obj arr i' d props,
    parseLoop lines fuel index ci obj arr = Ok (i', Object d props) ->
    blockLines lines index ci = before ++ (i, s) :: after ->
    getOwn (lineKey s) props = Some (Object false []).
Proof.
  intros Hl Hdot Hbare Hnn Hk Hafter.
  destruct (bare_key_line _ Hdot Hbare) as [Hsp Hkey].
  induction fuel as [|fuel IH]; intros before index ci obj arr i' d props H Hb;
    [discriminate|].
  rewrite parseLoop_S in H.
  destruct (blockStep lines _ index ci obj arr) as [i1 o1 a1| | |] eqn:Hstep;
    try discriminate.
  - destruct (blockLines_step _ _ _ _ _ _ _ _ _ Hstep) as (n0 & s0 & Hl0 & Hci & E).
    rewrite E in Hb. destruct before as [|x before]; cbn [app] in Hb.
    + injection Hb as -> -> Hb. rewrite Hl in Hl0. injection Hl0 as <-.
      destruct (blockStep_bare_marker lines (nested lines fuel) i ci obj arr
                  n s Hl Hci Hnn) as [Hstep' _].
      pose proof (Hstep' Hdot Hsp) as Hc. rewrite Hstep in Hc.
      injection Hc as -> -> ->. rewrite <- Hb in Hafter.
      rewrite (parseLoop_getOwn_kept _ _ _ _ _ _ _ _ _ _ H Hafter).
      rewrite Hkey in Hk |- *. now apply getOwn_objSet_same.
    + injection Hb as _ Hb. eapply IH; eassumption.
  - rewrite (blockLines_exit _ _ _ _ _ _ Hstep) in Hb.
    now destruct before.
Qed.

(** The items that [arr] holds stay at the head of the array that the
    block returns. *)
Lemma parseLoop_items_prefix (lines : list Line) (fuel : nat) :
  forall index ci obj arr i items,
    parseLoop lines fuel index ci obj arr = Ok (i, Array items) ->
    exists more, items = arrItems arr ++ more.
Proof.
  induction fuel as [|fuel IH]; intros index ci obj arr i items H;
    [discriminate|].
  rewrite parseLoop_S in H.
  destruct (blockStep lines _ index ci obj arr) as [i1 o1 a1| | |] eqn:Hstep;
    try discriminate.
  - apply IH in H as [more ->].
    destruct (blockStep_arr _ _ _ _ _ _ _ _ _ Hstep) as [-> | (n & s & Hl & Hs)];
      [now exists more|].
    destruct (blockStep_item_line _ _ _ _ _ _ _ _ _ _ _ Hl Hs Hstep) as [[v ->] _].
    exists (v :: more). cbn [arrItems]. now rewrite <- app_assoc.
  - unfold blockResult in H. destruct arr as [a|]; [|discriminate].
    destruct (ownKeys obj); [|discriminate]. injection H as _ <-.
    exists []. cbn [arrItems]. now rewrite app_nil_r.
Qed.

Lemma parseLoop_bare_item
  (lines : list Line) (i n : nat) (s : string) (after : list (nat * string)) :
  nth_error lines i = Some (n, s) ->
  startsWith "-" s = true -> inlineValue s = false ->
  nothingNested lines i n ->
  forall fuel before index ci obj arr i' items,
    parseLoop lines fuel index ci obj arr = Ok (i', Array items) ->
    blockLines lines index ci = before ++ (i, s) :: after ->
    nth_error items
      (List.length (arrItems arr)
       + List.length (filter (fun e => startsWith "-" (snd e)) before))
    = Some (Object false []).
Proof.
  intros Hl Hdash Hbare Hnn.
  pose proof (bare_item_line _ Hdash Hbare) as Htail.
  induction fuel as [|fuel IH]; intros before index ci obj arr i' items H Hb;
    [discriminate|].
  rewrite parseLoop_S in H.
  destruct (blockStep lines _ index ci obj arr) as [i1 o1 a1| | |] eqn:Hstep;
    try discriminate.
  - destruct (blockLines_step _ _ _ _ _ _ _ _ _ Hstep) as (n0 & s0 & Hl0 & Hci & E).
    rewrite E in Hb. destruct before as [|x before]; cbn [app] in Hb.
    + injection Hb as -> -> Hb. rewrite Hl in Hl0. injection Hl0 as <-.
      destruct (blockStep_bare_marker lines (nested lines fuel) i ci obj arr
                  n s Hl Hci Hnn) as [_ Hstep'].
      pose proof (Hstep' Hdash Htail) as Hc. rewrite Hstep in Hc.
      injection Hc as -> -> ->.
      apply parseLoop_items_prefix in H as [more ->]. cbn [arrItems filter List.length].
      rewrite Nat.add_0_r, <- app_assoc, nth_error_app2 by lia.
      now rewrite Nat.sub_diag.
    + injection Hb as <- Hb. cbn [filter snd].
      specialize (IH _ _ _ _ _ _ _ H Hb).
      destruct (startsWith "-" s0) eqn:Hs0.
      * destruct (blockStep_item_line _ _ _ _ _ _ _ _ _ _ _ Hl0 Hs0 Hstep)
          as [[v ->] _].
        cbn [arrItems List.length] in *. rewrite length_app in IH.
        cbn [List.length] in IH.
        now replace (List.length (arrItems arr) + S (List.length
                       (filter (fun e => startsWith "-" (snd e)) before)))
          with (List.length (arrItems arr) + 1 + List.length
                  (filter (fun e => startsWith "-" (snd e)) before)) by lia.
      * destruct (blockStep_arr _ _ _ _ _ _ _ _ _ Hstep)
          as [-> | (n1 & s1 & Hl1 & Hs1)]; [exact IH|].
        rewrite Hl0 in Hl1. injection Hl1 as _ <-. congruence.
  - rewrite (blockLines_exit _ _ _ _ _ _ Hstep) in Hb.
    now destruct before.
Qed.

(** X17. Where a block returns, a bare marker line among its own lines
    that has no next line, or a next line indented no deeper, has left an
    empty object in the value.  For a key line with a key other than
    [__proto__] that no later key line of the block declares again, the
    returned object holds the empty object at that key.  For an item line,
    the returned array holds the empty object at the place of the line
    among the item lines of the block. *)
Theorem bare_marker_holds_empty_object
  (lines : list Line) (fuel index ci index' : nat) (v : Value)
  (before after : list (nat * string)) (i n : nat) (s : string) :
  parseBlock lines fuel index ci = Ok (index', v) ->
  blockLines lines index ci = before ++ (i, s) :: after ->
  nth_error lines i = Some (n, s) ->
  inlineValue s = false ->
  nothingNested lines i n ->
  (forall d props,
     v = Object d props ->
     startsWith "." s = true ->
     lineKey s <> "__proto__" ->
     Forall (fun e => startsWith "." (snd e) = true ->
                      lineKey (snd e) <> lineKey s) after ->
     getOwn (lineKey s) props = Some (Object false []))
  /\ (forall items,
        v = Array items ->
        startsWith "-" s = true ->
        nth_error items
          (List.length (filter (fun e => startsWith "-" (snd e)) before))
        = Some (Object false [])).
Proof.
  intros H Hb Hl Hbare Hnn. unfold parseBlock in H. split.
  - intros d props -> Hdot Hk Hafter.
    eapply (parseLoop_bare_key lines i n s after); eassumption.
  - intros items -> Hdash.
    exact (parseLoop_bare_item lines i n s after Hl Hdash Hbare Hnn
             _ _ _ _ _ _ _ _ H Hb).
Qed.

(** ** What the tokenizer records *)

Lemma splitLines_no_LF_bounded (n : nat) :
  forall s, String.length s <= n ->
            Forall (fun l => includes LF l = false) (splitLines s).
Proof.
  induction n as [|n IH]; intros s Hlen.
  - destruct s; [repeat constructor | simpl in Hlen; lia].
  - destruct s as [|c r]; [repeat constructor|].
    simpl in Hlen. cbn [splitLines].
    destruct (Ascii.eqb c LF) eqn:Ec.
    + constructor; [reflexivity | apply IH; lia].
    + destruct r as [|d r'].
      * repeat constructor. simpl. now rewrite Ec.
      * destruct (Ascii.eqb c CR && Ascii.eqb d LF).
        -- constructor; [reflexivity | apply IH; simpl in Hlen; lia].
        -- assert (Hr : Forall (fun l => includes LF l = false)
                                (splitLines (String d r'))) by (apply IH; lia).
           destruct (splitLines (String d r')) as [|h t].
           ++ repeat constructor. simpl. now rewrite Ec.
           ++ inversion Hr; subst. constructor; [|assumption].
              simpl. rewrite Ec. assumption.
Qed.

Lemma splitLines_no_LF (s : string) :
  Forall (fun l => includes LF l = false) (splitLines s).
Proof. apply (splitLines_no_LF_bounded (String.length s)). lia. Qed.

Lemma strip_length (line : string) :
  String.length (stripLeadingSpaces line) <= String.length line.
Proof.
  unfold stripLeadingSpaces.
  destruct (dropWhile_length (fun c => Ascii.eqb c SP) line) as [-> | H]; lia.
Qed.

(** A line is its leading spaces followed by what the tokenizer keeps. *)
Lemma strip_decompose (line : string) :
  line = (spaces (String.length line - String.length (stripLeadingSpaces line))
          ++ stripLeadingSpaces line)%string.
Proof.
  induction line as [|c r IH]; [reflexivity|].
  unfold stripLeadingSpaces in *. cbn [dropWhile].
  destruct (Ascii.eqb c SP) eqn:E.
  - apply Ascii.eqb_eq in E. subst c.
    pose proof (strip_length r) as Hlen. unfold stripLeadingSpaces in Hlen.
    cbn [String.length].
    replace (S (String.length r)
             - String.length (dropWhile (fun c => Ascii.eqb c SP) r))
      with (S (String.length r
               - String.length (dropWhile (fun c => Ascii.eqb c SP) r))) by lia.
    cbn [spaces append]. now rewrite <- IH.
  - now rewrite Nat.sub_diag.
Qed.

Lemma strip_no_space (line : string) :
  startsWith " " (stripLeadingSpaces line) = false.
Proof.
  unfold stripLeadingSpaces. induction line as [|c r IH]; [reflexivity|].
  cbn [dropWhile]. destruct (Ascii.eqb c SP) eqn:E; [exact IH|].
  rewrite startsWith_cons, Ascii.eqb_sym. exact E.
Qed.

Lemma tokenizeLoop_tokens (lines : list string) (indent : nat) (stripped : string) :
  In (indent, stripped) (tokenizeLoop lines) ->
  In (spaces indent ++ stripped)%string lines
  /\ isEmpty (trim stripped) = false
  /\ startsWith " " stripped = false
  /\ startsWith "#" stripped = false
  /\ startsWith "!ARION" stripped = false.
Proof.
  induction lines as [|line rest IH]; cbn [tokenizeLoop]; [intros []|].
  assert (Hrest : In (indent, stripped) (tokenizeLoop rest) ->
    In (spaces indent ++ stripped)%string (line :: rest)
    /\ isEmpty (trim stripped) = false
    /\ startsWith " " stripped = false
    /\ startsWith "#" stripped = false
    /\ startsWith "!ARION" stripped = false).
  { intro H. destruct (IH H) as (H1 & H2). split; [now right | exact H2]. }
  destruct (isEmpty (trim line)) eqn:E1; [exact Hrest|].
  destruct (startsWith "!ARION" (stripLeadingSpaces line)) eqn:E2; [exact Hrest|].
  destruct (startsWith "#" (stripLeadingSpaces line)) eqn:E3; [exact Hrest|].
  intros [H | H]; [|now apply Hrest].
  injection H as <- <-. split; [left; apply strip_decompose|].
  split.
  - rewrite (strip_decompose line), trim_spaces in E1. exact E1.
  - split; [apply strip_no_space | now split].
Qed.

(** X2. Every pair that the tokenizer records stands for a line of the
    text, made of as many spaces as the recorded indent and then the
    recorded text; the recorded text holds no line feed, is not blank and
    starts with none of a space, a hash and [!ARION]. *)
Theorem tokens_are_lines (text : string) (indent : nat) (stripped : string) :
  In (indent, stripped) (tokenizeLines text) ->
  In (spaces indent ++ stripped)%string (splitLines text)
  /\ includes LF stripped = false
  /\ isEmpty (trim stripped) = false
  /\ startsWith " " stripped = false
  /\ startsWith "#" stripped = false
  /\ startsWith "!ARION" stripped = false.
Proof.
  intro H. apply tokenizeLoop_tokens in H as (H1 & H2).
  split; [exact H1|]. split; [|exact H2].
  pose proof (splitLines_no_LF text) as Hall.
  rewrite Forall_forall in Hall. specialize (Hall _ H1).
  rewrite includes_append in Hall. now apply orb_false_iff in Hall.
Qed.

(** ** Lines that the tokenizer passes over *)

Lemma loadsArion_decodeLines (text : string) :
  loadsArion text = decodeLines (tokenizeLines text).
Proof. reflexivity. Qed.

Lemma tokenizeLoop_skip (l : string) (rest : list string) :
  nonStructural l = true -> tokenizeLoop (l :: rest) = tokenizeLoop rest.
Proof.
  intro H. assert (Hl : tokenizeLoop [l] = []).
  { apply tokenizeLoop_nonStructural. cbn [forallb]. now rewrite H. }
  change (l :: rest) with ([l] ++ rest). now rewrite tokenizeLoop_app, Hl.
Qed.

Lemma tokenizeLines_join (ls : list string) :
  forallb cleanLine ls = true ->
  tokenizeLines (joinNewline ls ++ String LF "") = tokenizeLoop ls.
Proof.
  intro H. destruct ls as [|l ls]; [reflexivity|].
  unfold tokenizeLines. rewrite splitLines_join by exact H.
  rewrite tokenizeLoop_app. apply app_nil_r.
Qed.

(** X3. A blank line, a comment line or a header line, put anywhere among
    the lines of a text, does not change what the text decodes to. *)
Theorem skipped_line_ignored (before after : list string) (l : string) :
  forallb cleanLine (before ++ l :: after) = true ->
  nonStructural l = true ->
  loadsArion (joinNewline (before ++ l :: after) ++ String LF "")
  = loadsArion (joinNewline (before ++ after) ++ String LF "").
Proof.
  intros Hclean Hl. rewrite !loadsArion_decodeLines. f_equal.
  assert (Hclean' : forallb cleanLine (before ++ after) = true).
  { rewrite forallb_app in *. cbn [forallb] in Hclean.
    apply andb_true_iff in Hclean as [H1 H2].
    apply andb_true_iff in H2 as [_ H2]. now rewrite H1, H2. }
  rewrite !tokenizeLines_join by assumption.
  now rewrite !tokenizeLoop_app, (tokenizeLoop_skip l after Hl).
Qed.

(** X5. The header that [dumpsArion] writes on request does not change
    what its text decodes to, whatever the value. *)
Theorem header_option_irrelevant (v : Value) :
  loadsArion (dumpsArion v true) = loadsArion (dumpsArion v false).
Proof.
  rewrite !loadsArion_decodeLines. f_equal. unfold dumpsArion, tokenizeLines.
  destruct (encodeBlock v 0) as [|l ls]; [reflexivity|].
  change (["!ARION 1.0"; ""] ++ l :: ls) with ("!ARION 1.0" :: "" :: l :: ls).
  change ([] ++ l :: ls) with (l :: ls).
  change (joinNewline ("!ARION 1.0" :: "" :: l :: ls) ++ String LF "")%string
    with ("!ARION 1.0"
          ++ String LF ("" ++ String LF (joinNewline (l :: ls) ++ String LF "")))%string.
  rewrite (splitLines_line "!ARION 1.0") by reflexivity.
  rewrite (splitLines_line "") by reflexivity.
  reflexivity.
Qed.

(** ** Scalars *)

(** X6. The scalar resolver undoes the scalar formatter on [null], the
    booleans, the numbers that print as a literal denoting them, and the
    one-line strings without whitespace at either end and without a quote
    at the front. *)
Theorem resolver_undoes_formatter (v : Value) :
  scalarOk v -> parseScalar (encodeScalar v) = v.
Proof. apply parseScalar_encodeScalar. Qed.

(** X7. A string that starts with a quote is written as it stands and read
    back without that quote (and without whitespace at its end): it never
    comes back as it was. *)
Theorem leading_quote_lost (s : string) :
  encodeScalar (Str (String "'" s)) = String "'" s
  /\ parseScalar (encodeScalar (Str (String "'" s)))
     = Str (dropWhileEnd isWhite s)
  /\ parseScalar (encodeScalar (Str (String "'" s))) <> Str (String "'" s).
Proof.
  assert (Henc : encodeScalar (Str (String "'" s)) = String "'" s).
  { cbn [encodeScalar]. unfold isNumberLike, jsonBody.
    rewrite dropWhileEnd_cons by reflexivity. reflexivity. }
  assert (Hdec : parseScalar (String "'" s) = Str (dropWhileEnd isWhite s)).
  { unfold parseScalar, trim. rewrite dropWhileEnd_cons by reflexivity.
    reflexivity. }
  rewrite Henc, Hdec. repeat split.
  intro H. injection H as H. apply (f_equal String.length) in H.
  destruct (dropWhileEnd_length isWhite s) as [E | L];
    [rewrite E in H|]; simpl in H; lia.
Qed.

(** ** The indentation of encoded lines *)

Lemma startsWith_spaces (n m : nat) (x : string) :
  n <= m -> startsWith (spaces n) (spaces m ++ x) = true.
Proof.
  revert m. induction n as [|n IH]; intros m H; [reflexivity|].
  destruct m as [|m]; [lia|]. cbn [spaces append startsWith].
  rewrite Ascii.eqb_refl. apply IH. lia.
Qed.

Lemma startsWith_spaces_weaken (n m : nat) (l : string) :
  n <= m -> startsWith (spaces m) l = true -> startsWith (spaces n) l = true.
Proof.
  revert m l. induction n as [|n IH]; intros m l H Hm; [reflexivity|].
  destruct m as [|m]; [lia|].
  destruct l as [|c l]; [discriminate|]. cbn [spaces startsWith] in *.
  apply andb_true_iff in Hm as [Hc Hm]. rewrite Hc. apply (IH m); [lia | exact Hm].
Qed.

(** X15. Every line that [encodeBlock] pushes for a value at a given indent
    starts with at least that many spaces, whatever the value. *)
Theorem encodeBlock_indented (v : Value) :
  forall n, Forall (fun l => startsWith (spaces n) l = true) (encodeBlock v n).
Proof.
  assert (Hself : forall n x, startsWith (spaces n) (spaces n ++ x) = true)
    by (intros; now apply startsWith_spaces).
  assert (Hdeep : forall n segs,
    Forall (fun l => startsWith (spaces n) l = true)
           (map (fun line => (spaces (n + 2) ++ line)%string) segs)).
  { intros n segs. apply Forall_map, Forall_forall. intros x _.
    apply startsWith_spaces. lia. }
  assert (Hnest : forall n ls,
    Forall (fun l => startsWith (spaces (n + 2)) l = true) ls ->
    Forall (fun l => startsWith (spaces n) l = true) ls).
  { intros n ls H. eapply Forall_impl; [|exact H]. intros l Hl.
    eapply startsWith_spaces_weaken; [|exact Hl]. lia. }
  induction v as [ | b | m | s | d props IH | items IH] using Value_ind';
    intro n; try (repeat constructor; apply Hself).
  - rewrite encodeBlock_Object.
    induction IH as [|[k w] ps Hw _ IHps]; [constructor|].
    cbn [flat_map]. apply Forall_app. split; [|exact IHps].
    simpl in Hw. unfold encodeEntry.
    destruct w as [|b|m|s|d' props'|items'];
      try (repeat constructor; apply Hself).
    + destruct (includes LF s).
      * constructor; [apply Hself | apply Hdeep].
      * repeat constructor; apply Hself.
    + constructor; [apply Hself | apply Hnest, Hw].
    + constructor; [apply Hself | apply Hnest, Hw].
  - rewrite encodeBlock_Array.
    induction IH as [|w ws Hw _ IHws]; [constructor|].
    cbn [flat_map]. apply Forall_app. split; [|exact IHws].
    unfold encodeItem.
    destruct w as [|b|m|s|d' props'|items'];
      try (repeat constructor; apply Hself).
    + destruct (includes LF s).
      * constructor; [apply Hself | apply Hdeep].
      * repeat constructor; apply Hself.
    + constructor; [apply Hself | apply Hnest, Hw].
    + constructor; [apply Hself | apply Hnest, Hw].
Qed.

(** ** Lines after the root block *)

Lemma collect_app_below (n : nat) (l post : list Line) :
  below n post -> collectMultiline n (l ++ post) = collectMultiline n l.
Proof.
  intro H. induction l as [|[ci cs] l IH]; cbn [app collectMultiline].
  - destruct post as [|[i t] post]; [reflexivity|]. simpl in H.
    apply Nat.ltb_lt in H. cbn [collectMultiline]. now rewrite H.
  - now rewrite IH.
Qed.

(** A turn of the loop does not look past the first line that is indented
    less than the root threshold. *)
Lemma blockStep_prefix
  (pre post : list Line) (call1 call2 : nat -> nat -> outcome (nat * Value))
  (idx ci ci0 : nat) (obj : JsObject) (arr : option (list Value)) :
  below ci0 post -> ci0 <= ci -> idx <= List.length pre ->
  (forall c, ci0 <= c -> idx + 1 <= List.length pre ->
             call1 (idx + 1) c = call2 (idx + 1) c) ->
  blockStep (pre ++ post) call1 idx ci obj arr
  = blockStep pre call2 idx ci obj arr.
Proof.
  intros Hpost Hci Hidx Hcall.
  destruct (Nat.eq_dec idx (List.length pre)) as [-> | Hne].
  - rewrite blockStep_exit by (eapply below_weaken; eassumption).
    unfold blockStep.
    now rewrite (proj2 (nth_error_None pre (List.length pre)) (le_n _)).
  - unfold blockStep. rewrite nth_error_app1 by lia.
    destruct (nth_error pre idx) as [[n s]|]; [|reflexivity].
    destruct (n <? ci)%nat eqn:En; [reflexivity|]. apply Nat.ltb_ge in En.
    rewrite skipn_app. replace (idx + 1 - List.length pre) with 0 by lia.
    cbn [skipn]. rewrite (Hcall (n + 1)) by lia.
    destruct (nth_error pre (idx + 1)) as [[ni ns]|] eqn:Enext.
    + rewrite nth_error_app1 by (apply nth_error_Some; congruence).
      rewrite Enext.
      destruct (ni <=? n)%nat eqn:E; [reflexivity|]. apply Nat.leb_gt in E.
      rewrite collect_app_below; [reflexivity|].
      eapply below_weaken; [|exact Hpost]. lia.
    + apply nth_error_None in Enext.
      rewrite nth_error_app2 by lia.
      replace (idx + 1 - List.length pre) with 0 by lia.
      destruct post as [|[pi ps] post']; [reflexivity|].
      simpl in Hpost. cbn [nth_error].
      assert (E : (pi <=? n)%nat = true) by (apply Nat.leb_le; lia).
      rewrite E. reflexivity.
Qed.

Lemma parseLoop_prefix (pre post : list Line) (ci0 : nat) (fuel : nat) :
  below ci0 post ->
  forall idx ci obj arr,
    ci0 <= ci -> idx <= List.length pre ->
    parseLoop (pre ++ post) fuel idx ci obj arr
    = parseLoop pre fuel idx ci obj arr.
Proof.
  intro Hpost. induction fuel as [|fuel IH]; intros idx ci obj arr Hci Hidx;
    [reflexivity|].
  rewrite !parseLoop_S.
  rewrite (blockStep_prefix pre post _ (nested pre fuel) idx ci ci0 obj arr
             Hpost Hci Hidx).
  - destruct (blockStep pre (nested pre fuel) idx ci obj arr)
      as [i1 o1 a1| | |] eqn:Hstep; try reflexivity.
    apply IH; [exact Hci|].
    eapply blockStep_bound; [|exact Hstep].
    intros j c j' w Hj Hn. unfold nested in Hn. eapply parseLoop_bound; eassumption.
  - intros c Hc Hlen. unfold nested. apply IH; assumption.
Qed.

Lemma blockStep_more_fuel
  (lines : list Line) (call1 call2 : nat -> nat -> outcome (nat * Value))
  (index ci : nat) (obj : JsObject) (arr : option (list Value)) :
  (forall i c, call1 i c <> Starved -> call2 i c = call1 i c) ->
  blockStep lines call1 index ci obj arr <> NoFuel ->
  blockStep lines call2 index ci obj arr
  = blockStep lines call1 index ci obj arr.
Proof.
  intros Hc Hne. unfold blockStep in *.
  destruct (nth_error lines index) as [[n s]|]; [|reflexivity].
  destruct (n <? ci)%nat; [reflexivity|].
  destruct (call1 (index + 1) (n + 1)) as [[i' v]|e|] eqn:E.
  - rewrite (Hc (index + 1) (n + 1)), E; [reflexivity | rewrite E; discriminate].
  - rewrite (Hc (index + 1) (n + 1)), E; [reflexivity | rewrite E; discriminate].
  - repeat match goal with
           | |- context [match ?x with _ => _ end] =>
               lazymatch x with
               | call2 _ _ => fail
               | _ => destruct x eqn:?
               end
           end;
      first [reflexivity | exfalso; now apply Hne].
Qed.

(** Fuel beyond what the loop needs changes nothing. *)
Lemma parseLoop_more_fuel (lines : list Line) (fuel : nat) :
  forall index ci obj arr,
    parseLoop lines fuel index ci obj arr <> Starved ->
    parseLoop lines (S fuel) index ci obj arr
    = parseLoop lines fuel index ci obj arr.
Proof.
  induction fuel as [|fuel IH]; intros index ci obj arr Hne;
    [now contradiction Hne|].
  rewrite (parseLoop_S lines (S fuel)). rewrite parseLoop_S in Hne |- *.
  rewrite (blockStep_more_fuel lines (nested lines fuel) (nested lines (S fuel))).
  - destruct (blockStep lines (nested lines fuel) index ci obj arr)
      as [i1 o1 a1| | |]; try reflexivity.
    now apply IH.
  - intros i c Hn. unfold nested in *. now apply IH.
  - intro E. rewrite E in Hne. now apply Hne.
Qed.

Lemma parseLoop_extra_fuel (lines : list Line) (fuel extra : nat) :
  forall index ci obj arr,
    parseLoop lines fuel index ci obj arr <> Starved ->
    parseLoop lines (extra + fuel) index ci obj arr
    = parseLoop lines fuel index ci obj arr.
Proof.
  intros index ci obj arr Hne. induction extra as [|k IH]; [reflexivity|].
  cbn [Nat.add]. rewrite parseLoop_more_fuel; [exact IH|].
  now rewrite IH.
Qed.

(** X14. Once a line is indented less than the first structural line, that
    line and all that follows it are left unread: the text decodes as the
    text before it does. *)
Theorem dedented_tail_ignored
  (text text' : string) (firstIndent : nat) (first : string)
  (rest post : list Line) :
  tokenizeLines text' = (firstIndent, first) :: rest ->
  tokenizeLines text = tokenizeLines text' ++ post ->
  below firstIndent post ->
  loadsArion text = loadsArion text'.
Proof.
  intros Hpre Hall Hpost. rewrite !loadsArion_decodeLines, Hall, Hpre.
  cbn [decodeLines app]. unfold parseBlock.
  change ((firstIndent, first) :: rest ++ post)
    with (((firstIndent, first) :: rest) ++ post).
  rewrite (parseLoop_prefix _ post firstIndent _ Hpost) by (cbn [List.length]; lia).
  rewrite length_app, Nat.add_comm, <- Nat.add_succ_r.
  rewrite parseLoop_extra_fuel; [reflexivity|].
  apply parseLoop_total. rewrite Nat.sub_0_r. apply Nat.lt_succ_diag_r.
Qed.

(** ** Line ends and termination *)

Lemma splitLines_crlf (l rest : string) :
  includes LF l = false ->
  splitLines (l ++ String CR (String LF rest)) = l :: splitLines rest.
Proof.
  induction l as [|c l IH]; intro Hlf; [reflexivity|].
  simpl in Hlf. apply orb_false_iff in Hlf as [Hc Hlf]. specialize (IH Hlf).
  change ((String c l ++ String CR (String LF rest))%string)
    with (String c (l ++ String CR (String LF rest))).
  cbn [splitLines]. rewrite Hc.
  destruct l as [|d l'].
  - cbn [append] in *. change (Ascii.eqb CR LF) with false.
    rewrite andb_false_r. now rewrite IH.
  - change ((String d l' ++ String CR (String LF rest))%string)
      with (String d (l' ++ String CR (String LF rest))) in *.
    simpl in Hlf. apply orb_false_iff in Hlf as [Hd _].
    rewrite Hd, andb_false_r. now rewrite IH.
Qed.

Lemma splitLines_closeCRLF (ls : list string) :
  forallb cleanLine ls = true -> splitLines (closeCRLF ls) = ls ++ [""].
Proof.
  induction ls as [|l ls IH]; [reflexivity|]. cbn [forallb closeCRLF].
  intro H. apply andb_true_iff in H as [H H'].
  unfold cleanLine in H. apply andb_true_iff in H as [H _].
  apply negb_true_iff in H. rewrite splitLines_crlf by exact H.
  now rewrite IH.
Qed.

(** X4. A text whose lines are closed by carriage return and line feed
    decodes as the text with the same lines closed by a line feed. *)
Theorem crlf_tolerated (ls : list string) :
  forallb cleanLine ls = true ->
  loadsArion (closeCRLF ls) = loadsArion (joinNewline ls ++ String LF "").
Proof.
  intro H. rewrite !loadsArion_decodeLines. f_equal.
  rewrite tokenizeLines_join by exact H.
  unfold tokenizeLines. rewrite splitLines_closeCRLF by exact H.
  rewrite tokenizeLoop_app. apply app_nil_r.
Qed.

(** X1. [loadsArion] comes to an end on every text, with a value or with
    one of its two errors: the descent never runs on (the fuel that the
    embedding gives it always suffices). *)
Theorem loadsArion_returns_or_throws (text : string) :
  (exists v, loadsArion text = Ok v) \/ (exists e, loadsArion text = Throw e).
Proof.
  pose proof (loadsArion_total text) as H.
  destruct (loadsArion text) as [v|e|]; [left | right | contradiction];
    eexists; reflexivity.
Qed.

End Codec.

Arguments Value {host}.
Arguments Null {host}.
Arguments Boolean {host} b.
Arguments Number {host} n.
Arguments Str {host} s.
Arguments Object {host} detached props.
Arguments Array {host} items.
Arguments Ok {A} a.
Arguments Throw {A} e.
Arguments Starved {A}.

#[export] Existing Instance IntHost.

(** * The codec on concrete documents

    The statements below run the codec with the integer host. *)

(** A tactic for the side conditions of concrete instances. *)
Ltac concrete :=
  repeat match goal with
    | |- _ /\ _ => split
    | |- True => exact I
    | |- numberOk _ => unfold numberOk
    | |- _ -> _ => intro
    | |- _ <> _ => discriminate
    | |- _ \/ _ => first [left; reflexivity | right]
    | |- _ = _ => reflexivity
    end.

(** C1, counterexample.  A document that is a scalar comes back wrapped in
    an array of one item, and an empty array comes back as [null]. *)
Lemma root_scalar_comes_back_wrapped :
  loadsArion (dumpsArion (Boolean true) true) = Ok (Array [Boolean true])
  /\ loadsArion (dumpsArion (Array []) true) = Ok Null.
Proof. split; reflexivity. Qed.

(** C2, at the failing input.  A line whose leading whitespace holds a tab
    is taken as the content of a multiline string: the decoder returns a
    value and raises nothing. *)
Theorem tab_indent_accepted :
  loadsArion (".k" ++ String LF (String SP (String TAB "v")))
  = Ok (Object false [("k", Str (String TAB "v"))]).
Proof. reflexivity. Qed.

(** C3, counterexample.  The key [1] is declared after the key [b] and
    comes before it in the decoded object, and in its encoding. *)
Lemma index_key_moves_first :
  loadsArion ".b x
.1 y" = Ok (Object false [("1", Str "y"); ("b", Str "x")])
  /\ dumpsArion (Object false [("1", Str "y"); ("b", Str "x")]) false
     = ".1 y
.b x
".
Proof. split; reflexivity. Qed.

(** C5, counterexample.  No line of the string starts with a dot or a
    dash; the empty line and the line opened by a hash are lost. *)
Lemma multiline_lines_lost :
  loadsArion (dumpsArion (Object false [("k", Str "a

b
#c")]) true)
  = Ok (Object false [("k", Str "a
b")]).
Proof. reflexivity. Qed.

(** C6, at the failing input.  The key line [.__proto__ x] and the item
    line [- y] stand at one indent.  The assignment to [__proto__] goes to
    the setter that every object inherits and leaves no own key, so the
    check after the loop, which counts the own keys, sees an array only:
    the decoder raises nothing and returns the array part.  With any other
    key the same two lines raise the mixed-container error. *)
Theorem proto_key_mixed_block_accepted :
  loadsArion ".__proto__ x
- y" = Ok (Array [Str "y"])
  /\ loadsArion ".a x
- y" = Throw MixedContainer.
Proof. split; reflexivity. Qed.

(** C8, at the failing inputs.  The offending line [foo] is the first line
    of one text and the second of the other, and the error raised is the
    same: its message gives the indent and the content of the line, no
    line index.  The mixed-container error names no line at all. *)
Theorem error_without_line_index :
  loadsArion "foo" = Throw (InvalidLine 0 "foo")
  /\ loadsArion ".a x
foo" = Throw (InvalidLine 0 "foo")
  /\ errorMessage (InvalidLine 0 "foo") = "Invalid ARION line at indent 0: foo"
  /\ loadsArion ".a x
- y" = Throw MixedContainer
  /\ errorMessage MixedContainer
     = "Mixed object and array at the same level is not allowed".
Proof. repeat split; reflexivity. Qed.

(** C9, at the failing inputs.  A key line [.__proto__] without inline
    value, with no next line or with a next line indented no deeper: the
    assignment of the empty object goes to the inherited setter, and the
    decoded object has no key [__proto__].  The same line with the key [a]
    gives the key its empty object. *)
Theorem bare_proto_key_not_assigned :
  loadsArion ".__proto__" = Ok (Object false [])
  /\ loadsArion ".__proto__
.a x" = Ok (Object false [("a", Str "x")])
  /\ loadsArion ".a" = Ok (Object false [("a", Object false [])]).
Proof. repeat split; reflexivity. Qed.

(** ** Instances of the theorems that carry hypotheses *)

Lemma document_roundtrip_witness :
  loadsArion
    (dumpsArion
       (Object false
          [("name", Str "Joachim"); ("age", Number 37%Z); ("active", Boolean true);
           ("profile", Object false [("role", Str "Developer"); ("tags", Object false [])]);
           ("skills", Array [Str "Python"; Str "true"; Array [Null; Number (-2)%Z]]);
           ("bio", Str "Line one
Line two")])
       true)
  = Ok (Object false
          [("name", Str "Joachim"); ("age", Number 37%Z); ("active", Boolean true);
           ("profile", Object false [("role", Str "Developer"); ("tags", Object false [])]);
           ("skills", Array [Str "Python"; Str "true"; Array [Null; Number (-2)%Z]]);
           ("bio", Str "Line one
Line two")]).
Proof. apply document_roundtrip. cbn [encodable fold_right]. concrete. Defined.

Lemma quoted_string_roundtrip_witness :
  encodeBlock (Object false [("k", Str "-3.14")]) 0 = [".k '-3.14"]
  /\ loadsArion (dumpsArion (Object false [("k", Str "-3.14")]) true)
     = Ok (Object false [("k", Str "-3.14")]).
Proof. apply (quoted_string_roundtrip "k" "-3.14" true); concrete. Defined.

Lemma multiline_roundtrip_witness :
  encodeBlock (Object false [("bio", Str "Line one
Line two
Line three")]) 0
  = [".bio"; "  Line one"; "  Line two"; "  Line three"]
  /\ loadsArion (dumpsArion (Object false [("bio", Str "Line one
Line two
Line three")]) true)
     = Ok (Object false [("bio", Str "Line one
Line two
Line three")]).
Proof.
  apply (multiline_roundtrip "bio" "Line one
Line two
Line three" true); concrete.
Defined.

Lemma parseScalar_priority_witness :
  parseScalar "-3.14" = firstMatch scalarRules "-3.14"
  /\ parseScalar "true" = Boolean true
  /\ parseScalar "'true" = Str "true".
Proof. apply (parseScalar_priority "-3.14"). reflexivity. Defined.

Lemma loadsArion_no_lines_witness :
  loadsArion "!ARION 1.0

  # a comment
   
" = Ok Null.
Proof. apply loadsArion_no_lines. reflexivity. Defined.

Lemma key_order_witness :
  (["0"; "1"; "b"; "a"]
   = filter isIndexKey ["0"; "1"; "b"; "a"]
     ++ filter (fun k => negb (isIndexKey k)) ["0"; "1"; "b"; "a"]
   /\ StronglySorted indexBefore (filter isIndexKey ["0"; "1"; "b"; "a"]))
  /\ filter plainKey ["0"; "1"; "b"; "a"]
     = firstSeen []
         (map snd (keyLines [(0, ".b x"); (0, ".1 y"); (0, ".a"); (2, "- q");
                             (0, ".0 w"); (0, ".b z")] 0 0)).
Proof.
  pose proof
    (key_order [(0, ".b x"); (0, ".1 y"); (0, ".a"); (2, "- q");
                (0, ".0 w"); (0, ".b z")] 7 0 0 6 false
               [("0", Str "w"); ("1", Str "y"); ("b", Str "z");
                ("a", Array [Str "q"])] eq_refl) as H.
  exact (conj (proj1 (proj2 (proj2 H))) (proj1 (proj2 (proj2 (proj2 H))))).
Defined.

(** ** Instances of the further properties *)

Lemma decoded_arrays_not_empty_witness :
  treeAll notEmptyArray (Array [Str "a"; Array [Str "b"]]).
Proof.
  apply (decoded_arrays_not_empty "- a
-
  - b"). reflexivity.
Defined.

Lemma decoded_keys_distinct_witness :
  treeAll keysDistinct
    (Object false [("a", Str "z"); ("b", Object false [("c", Str "y")])]).
Proof.
  apply (decoded_keys_distinct ".a x
.b
  .c y
.a z"). reflexivity.
Defined.

Lemma loadsArion_root_shape_witness :
  tokenizeLines "- x" <> [] /\ [Str "x"] <> [].
Proof. exact (loadsArion_root_shape "- x" (Array [Str "x"]) eq_refl). Defined.

Lemma invalid_line_error_sound_witness :
  In (0, "foo") (tokenizeLines ".a x
foo") /\ isStructural "foo" = false.
Proof.
  apply (invalid_line_error_sound ".a x
foo" 0 "foo"). reflexivity.
Defined.

Lemma mixed_error_needs_both_markers_witness :
  hasKeyLine (tokenizeLines ".a x
- y") /\ hasItemLine (tokenizeLines ".a x
- y").
Proof.
  apply (mixed_error_needs_both_markers ".a x
- y"). reflexivity.
Defined.

Lemma block_ends_at_dedent_witness :
  1 <= 2 <= List.length [(0, ".a"); (2, ".b x"); (0, ".c y")]
  /\ below 1 (skipn 2 [(0, ".a"); (2, ".b x"); (0, ".c y")]).
Proof.
  apply (block_ends_at_dedent [(0, ".a"); (2, ".b x"); (0, ".c y")] 5 1 1 2
           (Object false [("b", Str "x")])).
  - repeat constructor.
  - reflexivity.
Defined.

Lemma tokens_are_lines_witness :
  In ("  .a x") (splitLines "  .a x
# c")
  /\ includes LF ".a x" = false
  /\ isEmpty (trim ".a x") = false
  /\ startsWith " " ".a x" = false
  /\ startsWith "#" ".a x" = false
  /\ startsWith "!ARION" ".a x" = false.
Proof.
  apply (tokens_are_lines "  .a x
# c" 2 ".a x"). left. reflexivity.
Defined.

Lemma skipped_line_ignored_witness :
  loadsArion (joinNewline ([".a x"] ++ "  # note" :: [".b y"]) ++ String LF "")
  = loadsArion (joinNewline ([".a x"] ++ [".b y"]) ++ String LF "").
Proof. apply skipped_line_ignored; reflexivity. Defined.

Lemma resolver_undoes_formatter_witness :
  parseScalar (encodeScalar (Str "null")) = Str "null"
  /\ parseScalar (encodeScalar (@Number IntHost (-12)%Z)) = @Number IntHost (-12)%Z.
Proof.
  split.
  - apply (resolver_undoes_formatter (Str "null")). reflexivity.
  - apply (resolver_undoes_formatter (@Number IntHost (-12)%Z)). split; reflexivity.
Defined.

Lemma dedented_tail_ignored_witness :
  loadsArion "  .a x
.b y" = loadsArion "  .a x".
Proof.
  apply (dedented_tail_ignored _ _ 2 ".a x" [] [(0, ".b y")]).
  - reflexivity.
  - reflexivity.
  - repeat constructor.
Defined.

Lemma crlf_tolerated_witness :
  loadsArion (closeCRLF [".a x"; "- y"])
  = loadsArion (joinNewline [".a x"; "- y"] ++ String LF "").
Proof. apply crlf_tolerated. reflexivity. Defined.

Lemma mixed_lines_never_return_witness :
  exists e,
    parseBlock [(0, ".a x"); (0, "- y")] 3 0 0 = Throw e
    /\ errorSound [(0, ".a x"); (0, "- y")] e
    /\ (Forall (fun l => isStructural (snd l) = true) [(0, ".a x"); (0, "- y")] ->
        e = MixedContainer).
Proof.
  apply (mixed_lines_never_return [(0, ".a x"); (0, "- y")] 3 0 0 0 1 ".a x" "- y").
  - repeat constructor.
  - left. reflexivity.
  - reflexivity.
  - discriminate.
  - right. left. reflexivity.
  - reflexivity.
Defined.

Lemma bare_marker_holds_empty_object_witness :
  getOwn "a" [("a", Object false []); ("b", Str "x")] = Some (Object false [])
  /\ nth_error [Str "x"; Object false []; Str "y"] 1 = Some (Object false []).
Proof.
  split.
  - apply (proj1 (bare_marker_holds_empty_object
                    [(0, ".a"); (0, ".b x")] 3 0 0 2
                    (Object false [("a", Object false []); ("b", Str "x")])
                    [] [(1, ".b x")] 0 0 ".a"
                    eq_refl eq_refl eq_refl eq_refl
                    (or_intror (ex_intro _ 0 (ex_intro _ ".b x" (conj eq_refl (le_n 0)))))) false _ eq_refl eq_refl).
    + discriminate.
    + repeat constructor. discriminate.
  - exact (proj2 (bare_marker_holds_empty_object
                    [(0, "- x"); (0, "-"); (0, "- y")] 4 0 0 3
                    (Array [Str "x"; Object false []; Str "y"])
                    [(0, "- x")] [(2, "- y")] 1 0 "-"
                    eq_refl eq_refl eq_refl eq_refl
                    (or_intror (ex_intro _ 0 (ex_intro _ "- y" (conj eq_refl (le_n 0))))))
                 _ eq_refl eq_refl).
Defined.
